(** * repo-scan-prototype: merge engine, identity matcher, acquisition and
    analysis pipeline.

    A shallow embedding of [merge_loc_histories.py] and of [repo_scan.py]
    (the identity matcher, the file types, the listing of repositories,
    the orchestration and the export), with the properties that the
    specification states about them and further properties of the code.

    Conventions.
    - A Python [dict] that the code iterates is an insertion-ordered
      association list ([pydict]); the keys of a dict are pairwise distinct
      ([valid_dict]).  A dict that is only indexed (a MetricSet of the merge
      utility) is a [gmap].
    - Python integers are unbounded: [Z].
    - Python strings are [string]s; the model is exact on ASCII text
      ([Identity.ascii_text]), and what depends on Unicode in Python
      ([\w], [\b], the case of letters, [split], [len], [repr]) is
      stated for ASCII text.
    - Objects that the code shares by reference live in an explicit store
      ([heap]); a reference is an address into it.
    - A raised exception is the [Raise] outcome of the [res] monad; the
      [re.error] of [re.compile] is the [None] outcome of
      [Identity.re_compile].
    - What the code does to the outside (logging, job submission, export) is
      a trace of events.
    - External collaborators ([git clone], the analyzer, the completion
      order of futures, the GitHub API, [re] beyond the modelled fragment)
      are section variables.

    The file has two parts: the embedding, then the properties. *)

From Stdlib Require Import ZArith Ascii String.
From stdpp Require Import gmap strings list fin_maps pretty sorting relations.

Open Scope string_scope.
Open Scope list_scope.
Open Scope Z_scope.

(** * Part I: the embedding *)

(** ** Exceptions *)

Inductive exn : Type :=
  | KeyError (key : string)     (* d[key] on a dict without [key] *)
  | SystemError (addr : nat).   (* a reference to no object; never raised,
                                   see [MergeProps.merge_result_copy] *)

Inductive res (A : Type) : Type :=
  | Ok (x : A)
  | Raise (e : exn).
Arguments Ok {A} x.
Arguments Raise {A} e.

Definition res_bind {A B} (f : A → res B) (m : res A) : res B :=
  match m with
  | Ok x => f x
  | Raise e => Raise e
  end.

#[global] Instance res_mbind : MBind res := @res_bind.
#[global] Instance res_mret : MRet res := @Ok.

(** ** Python dicts in insertion order *)

Abbreviation pydict V := (list (string * V)).

(** [d.get(k)]: the binding of [k], if any. *)
Fixpoint d_get {V} (k : string) (d : pydict V) : option V :=
  match d with
  | [] => None
  | (k', v) :: d' => if decide (k = k') then Some v else d_get k d'
  end.

(** [k in d] *)
Definition d_mem {V} (k : string) (d : pydict V) : bool :=
  bool_decide (is_Some (d_get k d)).

(** [d[k]]: raises KeyError when [k] is absent. *)
Definition d_index {V} (k : string) (d : pydict V) : res V :=
  match d_get k d with
  | Some v => Ok v
  | None => Raise (KeyError k)
  end.

(** [d[k] = v]: an existing key keeps its position, a new key goes last. *)
Fixpoint d_set {V} (k : string) (v : V) (d : pydict V) : pydict V :=
  match d with
  | [] => [(k, v)]
  | (k', v') :: d' =>
      if decide (k = k') then (k, v) :: d' else (k', v') :: d_set k v d'
  end.

Definition d_keys {V} (d : pydict V) : list string := d.*1.

(** The keys of a dict are pairwise distinct. *)
Definition valid_dict {V} (d : pydict V) : Prop := NoDup (d_keys d).

#[global] Instance valid_dict_dec {V} (d : pydict V) : Decision (valid_dict d).
Proof. unfold valid_dict. apply _. Defined.

(** [m[k]] on a dict that is only indexed. *)
Definition getitem {V} (k : string) (m : gmap string V) : res V :=
  match m !! k with
  | Some v => Ok v
  | None => Raise (KeyError k)
  end.

(** ** The merge utility: [merge_loc_histories.py] *)

Module Merge.

(** A MetricSet as it arrives from a JSON document: field name to integer.
    Nothing forces a document to carry all six fields, or only those. *)
Abbreviation metrics := (gmap string Z).

(** month -> extension -> MetricSet, as a JSON document holds it. *)
Abbreviation document := (pydict (pydict metrics)).

(** The field list of line 33. *)
Definition FIELDS : list string :=
  ["lines"; "files"; "additions"; "deletions"; "modifications"; "repos"].

(** *** The store *)

Abbreviation loc := nat.

(** MetricSet objects by address; allocation appends. *)
Abbreviation heap := (list metrics).

(** An in-memory history: the two outer levels by value (the code never
    shares them), the MetricSet objects by reference. *)
Abbreviation history := (pydict (pydict loc)).

Definition deref (l : loc) (σ : heap) : res metrics :=
  match σ !! l with
  | Some s => Ok s
  | None => Raise (SystemError l)
  end.

(** [json.load]: every MetricSet of the document becomes a fresh object. *)
Fixpoint load_exts (exts : pydict metrics) (σ : heap) : pydict loc * heap :=
  match exts with
  | [] => ([], σ)
  | (ext, s) :: rest =>
      let '(r, σ') := load_exts rest (σ ++ [s]) in
      ((ext, length σ) :: r, σ')
  end.

Fixpoint json_load (doc : document) (σ : heap) : history * heap :=
  match doc with
  | [] => ([], σ)
  | (month, exts) :: rest =>
      let '(e, σ1) := load_exts exts σ in
      let '(r, σ2) := json_load rest σ1 in
      ((month, e) :: r, σ2)
  end.

(** *** The loops of [merge_loc_histories] *)

(** Line 34, [merged[month][ext][field] += stats[field]], where [acc] is the
    object [merged[month][ext]] and [src] the object [stats]: read the
    accumulator's field, read the input's field, store the sum into the
    accumulator object, in place. *)
Definition add_field (field : string) (acc src : loc) (σ : heap) : res heap :=
  a ← deref acc σ;
  x ← getitem field a;
  s ← deref src σ;
  y ← getitem field s;
  Ok (<[acc := <[field := x + y]> a]> σ).

(** Lines 33-34: the loop over the six field names. *)
Fixpoint add_fields (fields : list string) (acc src : loc) (σ : heap)
  : res heap :=
  match fields with
  | [] => Ok σ
  | f :: fs => σ' ← add_field f acc src σ; add_fields fs acc src σ'
  end.

(** Lines 29-34: the body of the loop over [extensions.items()]. On first
    encounter the accumulator entry is bound to the input's own object. *)
Definition merge_ext (month ext : string) (stats : loc)
    (st : history * heap) : res (history * heap) :=
  let '(merged, σ) := st in
  inner ← d_index month merged;
  match d_get ext inner with
  | None => Ok (d_set month (d_set ext stats inner) merged, σ)
  | Some acc => σ' ← add_fields FIELDS acc stats σ; Ok (merged, σ')
  end.

Fixpoint merge_exts (month : string) (exts : pydict loc)
    (st : history * heap) : res (history * heap) :=
  match exts with
  | [] => Ok st
  | (ext, stats) :: rest =>
      st' ← merge_ext month ext stats st; merge_exts month rest st'
  end.

(** Lines 24-34: the body of the loop over [data.items()]. *)
Definition merge_month (month : string) (exts : pydict loc)
    (st : history * heap) : res (history * heap) :=
  let '(merged, σ) := st in
  let merged1 := if d_mem month merged then merged else d_set month [] merged in
  merge_exts month exts (merged1, σ).

Fixpoint merge_data (data : history) (st : history * heap)
  : res (history * heap) :=
  match data with
  | [] => Ok st
  | (month, exts) :: rest =>
      st' ← merge_month month exts st; merge_data rest st'
  end.

(** The state of a run: the accumulator, the store, and the value that the
    local variable [data] had in each iteration so far (newest last). The
    last component is not used by the code; it names the objects that
    [json.load] created, so that statements can speak about them. *)
Record run : Type := Run {
  merged : history;
  store : heap;
  loaded : list history
}.

(** Lines 18-34: the loop over [files]. The argument is the sequence of
    documents stored at the given paths, in order. *)
Fixpoint merge_files (files : list document) (r : run) : res run :=
  match files with
  | [] => Ok r
  | doc :: rest =>
      let '(data, σ1) := json_load doc (store r) in
      '(m, σ2) ← merge_data data (merged r, σ1);
      merge_files rest (Run m σ2 (loaded r ++ [data]))
  end.

(** [merge_loc_histories(files)], run in store [σ]. *)
Definition merge_loc_histories (files : list document) (σ : heap) : res run :=
  merge_files files (Run [] σ []).

(** The value of an in-memory history: every reference replaced by the
    content of its object. This is what [==] compares and what [json.dump]
    serialises. *)
Fixpoint resolve_exts (exts : pydict loc) (σ : heap) : res (pydict metrics) :=
  match exts with
  | [] => Ok []
  | (ext, l) :: rest =>
      s ← deref l σ; r ← resolve_exts rest σ; Ok ((ext, s) :: r)
  end.

Fixpoint resolve (h : history) (σ : heap) : res document :=
  match h with
  | [] => Ok []
  | (month, exts) :: rest =>
      e ← resolve_exts exts σ; r ← resolve rest σ; Ok ((month, e) :: r)
  end.

(** The value that [merge_loc_histories] returns. *)
Definition merge_result (files : list document) (σ : heap) : res document :=
  r ← merge_loc_histories files σ; resolve (merged r) (store r).

(** What [main] leaves behind: the document written to the output path, or
    the exception that ended the program before the output was opened. *)
Inductive outcome : Type :=
  | Wrote (d : document)
  | Crashed (e : exn).

(** Lines 46-50. *)
Definition main (files : list document) (σ : heap) : outcome :=
  match merge_result files σ with
  | Ok merged_data => Wrote merged_data
  | Raise e => Crashed e
  end.

(** *** The merge of the specification

    [merge_copy] is the algorithm as section 4.4 of the specification words
    it: "creating the entry (as a copy, not a shared reference) on first
    encounter and summing field-by-field on subsequent encounters". It works
    on values; there is no store. The loops are written once, over the way
    [combine] in which a later occurrence enters an existing entry. *)

Definition add_field_copy (field : string) (a s : metrics) : res metrics :=
  x ← getitem field a;
  y ← getitem field s;
  Ok (<[field := x + y]> a).

Fixpoint add_fields_copy (fields : list string) (a s : metrics)
  : res metrics :=
  match fields with
  | [] => Ok a
  | f :: fs => a' ← add_field_copy f a s; add_fields_copy fs a' s
  end.

Section merge_with.
Context {V : Type} (combine : V → V → res V).

Definition merge_ext_with (month ext : string) (s : V)
    (acc : pydict (pydict V)) : res (pydict (pydict V)) :=
  inner ← d_index month acc;
  match d_get ext inner with
  | None => Ok (d_set month (d_set ext s inner) acc)
  | Some a => a' ← combine a s; Ok (d_set month (d_set ext a' inner) acc)
  end.

Fixpoint merge_exts_with (month : string) (exts : pydict V)
    (acc : pydict (pydict V)) : res (pydict (pydict V)) :=
  match exts with
  | [] => Ok acc
  | (ext, s) :: rest =>
      acc' ← merge_ext_with month ext s acc; merge_exts_with month rest acc'
  end.

Definition merge_month_with (month : string) (exts : pydict V)
    (acc : pydict (pydict V)) : res (pydict (pydict V)) :=
  let acc1 := if d_mem month acc then acc else d_set month [] acc in
  merge_exts_with month exts acc1.

Fixpoint merge_doc_with (doc acc : pydict (pydict V))
  : res (pydict (pydict V)) :=
  match doc with
  | [] => Ok acc
  | (month, exts) :: rest =>
      acc' ← merge_month_with month exts acc; merge_doc_with rest acc'
  end.

Fixpoint merge_docs_with (docs : list (pydict (pydict V)))
    (acc : pydict (pydict V)) : res (pydict (pydict V)) :=
  match docs with
  | [] => Ok acc
  | doc :: rest => acc' ← merge_doc_with doc acc; merge_docs_with rest acc'
  end.

(** What one key goes through: an entry ([None] while absent) meets the
    occurrences of the key one after the other. *)
Definition step_occ (acc : option V) (s : V) : res (option V) :=
  match acc with
  | None => Ok (Some s)
  | Some a => a' ← combine a s; Ok (Some a')
  end.

Fixpoint fold_occ (acc : option V) (l : list V) : res (option V) :=
  match l with
  | [] => Ok acc
  | s :: l' => acc' ← step_occ acc s; fold_occ acc' l'
  end.

Definition step_opt (acc : option V) (o : option V) : res (option V) :=
  match o with
  | None => Ok acc
  | Some s => step_occ acc s
  end.
End merge_with.

Definition merge_copy (docs : list document) : res document :=
  merge_docs_with (add_fields_copy FIELDS) docs [].

(** The accumulator keeps the entry it has: how references enter it. *)
Definition keep_first (a s : loc) : res loc := Ok a.

(** *** Vocabulary of the statements *)

(** [h[month][ext]], if both keys are present. *)
Definition lookup2 {V} (month ext : string) (h : pydict (pydict V))
  : option V :=
  inner ← d_get month h; d_get ext inner.

(** The dicts of a document have pairwise distinct keys (what [json.load]
    returns always has). *)
Definition valid_doc {V} (h : pydict (pydict V)) : Prop :=
  valid_dict h ∧ Forall (λ p, valid_dict p.2) h.

#[global] Instance valid_doc_dec {V} (h : pydict (pydict V))
  : Decision (valid_doc h).
Proof. unfold valid_doc. apply _. Defined.

(** All six fields are present. *)
Definition complete (s : metrics) : Prop :=
  Forall (λ f, is_Some (s !! f)) FIELDS.

#[global] Instance complete_dec (s : metrics) : Decision (complete s).
Proof. unfold complete. apply _. Defined.

(** The six-counter MetricSet of the data model: exactly the six fields. *)
Definition metric_set (s : metrics) : Prop :=
  dom s = list_to_set FIELDS.

#[global] Instance metric_set_dec (s : metrics) : Decision (metric_set s).
Proof. unfold metric_set. apply _. Defined.

(** Every MetricSet of a document satisfies [P]. *)
Definition all_metrics (P : metrics → Prop) (doc : document) : Prop :=
  Forall (λ p, Forall (λ q, P q.2) p.2) doc.

#[global] Instance all_metrics_dec (P : metrics → Prop)
  `{∀ s, Decision (P s)} (doc : document) : Decision (all_metrics P doc).
Proof. unfold all_metrics. apply _. Defined.

(** A well-formed ContributionHistory. *)
Definition well_formed (doc : document) : Prop :=
  valid_doc doc ∧ all_metrics metric_set doc.

#[global] Instance well_formed_dec (doc : document)
  : Decision (well_formed doc).
Proof. unfold well_formed. apply _. Defined.

(** Python's [==] on nested dicts: the same keys with equal values, whatever
    the insertion order. *)
Definition same_history (a b : document) : Prop :=
  ∀ month,
    (is_Some (d_get month a) ↔ is_Some (d_get month b)) ∧
    ∀ ext, lookup2 month ext a = lookup2 month ext b.

(** The MetricSets that the documents hold for one (month, extension) pair,
    in input order. *)
Definition occurrences {V} (month ext : string)
    (docs : list (pydict (pydict V))) : list V :=
  omap (lookup2 month ext) docs.

(** The sum of one field over a list of MetricSets, and the MetricSet of
    these sums. *)
Definition total (k : string) (l : list metrics) : Z :=
  foldr (λ s acc, s !!! k + acc) 0 l.

Definition sum_metrics (l : list metrics) : metrics :=
  list_to_map ((λ f, (f, total f l)) <$> FIELDS).

(** The references of an in-memory history, and its value in a store. *)
Definition locs_of (h : history) : list loc := h ≫= λ p, p.2.*2.

Definition val (σ : heap) (exts : pydict loc) : pydict metrics :=
  prod_map id (λ l, σ !!! l) <$> exts.

Definition vals (σ : heap) (h : history) : document :=
  prod_map id (val σ) <$> h.

(** *** Vocabulary of the run *)

(** The MetricSets of a document, in the order [json.load] creates them. *)
Definition mets (doc : document) : list metrics := doc ≫= λ p, p.2.*2.

(** What a stretch of the run guarantees: it starts from accumulator
    [merged] and store [σ], consumes input objects [new], and ends in
    [merged'] and [σ']. *)
Definition sim_post (new : list loc) (merged : history) (σ : heap)
    (merged' : history) (σ' : heap) : Prop :=
  length σ' = length σ ∧
  (∀ l, l ∈ locs_of merged → l ∈ locs_of merged') ∧
  (∀ l, l ∈ locs_of merged' → l ∈ new ∨ l ∈ locs_of merged) ∧
  NoDup (locs_of merged') ∧
  (∀ l, l ∉ locs_of merged' → σ' !! l = σ !! l) ∧
  (∀ m, is_Some (d_get m merged) → is_Some (d_get m merged')).

(** What it needs: the input objects are fresh and no object is shared. *)
Definition sim_pre (new : list loc) (merged : history) (σ : heap) : Prop :=
  NoDup (new ++ locs_of merged) ∧
  Forall (λ l, (l < length σ)%nat) (new ++ locs_of merged).

(** *** Vocabulary of the results *)

(** The entry that the occurrences [a :: l] of one key add up to: the six
    fields are sums, every other key is the first occurrence's. *)
Definition merged_entry (a : metrics) (l : list metrics) : metrics :=
  sum_metrics (a :: l) ∪ a.

Definition complete_doc (doc : document) : Prop :=
  valid_doc doc ∧ all_metrics complete doc.

#[global] Instance complete_doc_dec doc : Decision (complete_doc doc).
Proof. unfold complete_doc. apply _. Defined.

(** Two histories with the same months and extensions whose MetricSets agree
    on the six counters. *)
Definition same_counters (a b : document) : Prop :=
  ∀ month,
    (is_Some (d_get month a) ↔ is_Some (d_get month b)) ∧
    ∀ ext,
      match lookup2 month ext a, lookup2 month ext b with
      | Some s, Some s' => ∀ f, f ∈ FIELDS → s !! f = s' !! f
      | None, None => True
      | _, _ => False
      end.

(** Two lists of occurrences that add up to the same counters. *)
Definition equiv_occ (l l' : list metrics) : Prop :=
  (l = [] ↔ l' = []) ∧ ∀ f, f ∈ FIELDS → total f l = total f l'.

(** Two lists of occurrences whose first elements agree on the keys other
    than the six fields. *)
Definition same_first (l l' : list metrics) : Prop :=
  ∀ k, k ∉ FIELDS → head l ≫= (.!! k) = head l' ≫= (.!! k).

(** *** Documents for the examples *)

(** A MetricSet with the six fields. *)
Definition counters (l f a d m r : Z) : metrics :=
  <["lines" := l]> (<["files" := f]> (<["additions" := a]>
    (<["deletions" := d]> (<["modifications" := m]> (<["repos" := r]> ∅))))).

Definition jan_a : document := [("2024-01", [("py", counters 10 1 10 0 1 1)])].
Definition jan_b : document := [("2024-01", [("py", counters 5 1 5 0 1 1)])].
Definition jan_no_repos : document :=
  [("2024-01", [("py", delete "repos" (counters 5 1 5 0 1 1))])].

Definition jan_tagged : document :=
  [("2024-01", [("py", <["tag" := 7]> (counters 10 1 10 0 1 1))])].

(** Every input history still reads as the document it was loaded from. *)
Definition inputs_unchanged (files : list document) (r : run) : Prop :=
  Forall2 (λ doc data, resolve data (store r) = Ok doc) files (loaded r).

End Merge.

(** ** The identity matcher: [CommitIdentityMatcher] *)

Module Identity.

Record github_user : Type := GithubUser {
  name : option string;
  login : string;
  email : option string
}.

Definition code (c : ascii) : N := N_of_ascii c.

(** A Python [str] is modelled by its characters as [ascii] values. On a
    text of ASCII characters this is exact. On other text Python's [\w],
    [\b], [re.IGNORECASE], [str.split] and [len] follow Unicode, which the
    definitions below do not: what depends on them is stated for ASCII
    text. *)
Definition is_ascii (c : ascii) : bool := (code c <? 128)%N.

Definition ascii_text (s : string) : Prop :=
  forallb is_ascii (list_ascii_of_string s) = true.

#[global] Instance ascii_text_dec s : Decision (ascii_text s).
Proof. unfold ascii_text. apply _. Defined.

Definition in_range (lo hi : N) (c : ascii) : bool :=
  (lo <=? code c)%N && (code c <=? hi)%N.

Definition is_alnum (c : ascii) : bool :=
  in_range 48 57 c || in_range 65 90 c || in_range 97 122 c.

(** [\w] on ASCII text: letters, digits and the underscore. *)
Definition is_word (c : ascii) : bool := is_alnum c || (code c =? 95)%N.

Definition lower (c : ascii) : ascii :=
  if in_range 65 90 c then ascii_of_N (code c + 32) else c.

(** Equality of characters under [re.IGNORECASE]. *)
Definition ieq (c x : ascii) : bool := bool_decide (lower c = lower x).

(** [re.escape]: a backslash before each of
    [()[]{}?*+-|^$\.&~#] and the whitespace characters. *)
Definition special : list ascii :=
  list_ascii_of_string "()[]{}?*+-|^$\.&~# "
  ++ [ascii_of_N 9; ascii_of_N 10; ascii_of_N 13; ascii_of_N 11; ascii_of_N 12].

Fixpoint re_escape (s : string) : string :=
  match s with
  | EmptyString => EmptyString
  | String c s' =>
      if bool_decide (c ∈ special) then String "\" (String c (re_escape s'))
      else String c (re_escape s')
  end.

Inductive token : Type := TLit (c : ascii) | TDot | TWordB | TStar.

Definition metachar : list ascii := list_ascii_of_string ".^$*+?{}[]\|()".

Fixpoint lex (s : string) : option (list token) :=
  match s with
  | EmptyString => Some []
  | String "\" EmptyString => None
  | String "\" (String c s') =>
      if bool_decide (c = "b"%char) then (TWordB ::.) <$> lex s'
      else if is_alnum c then None
      else (TLit c ::.) <$> lex s'
  | String "." s' => (TDot ::.) <$> lex s'
  | String "*" s' => (TStar ::.) <$> lex s'
  | String c s' =>
      if bool_decide (c ∈ metachar) then None else (TLit c ::.) <$> lex s'
  end.

Inductive item : Type := Lit (c : ascii) | Dot.
Inductive atom : Type := One (i : item) | Many (i : item) | WordB.

Definition item_of (t : token) : option item :=
  match t with
  | TLit c => Some (Lit c)
  | TDot => Some Dot
  | _ => None
  end.

Fixpoint group (ts : list token) : option (list atom) :=
  match ts with
  | [] => Some []
  | TStar :: _ => None
  | TWordB :: ts' =>
      match ts' with
      | TStar :: _ => None
      | _ => (WordB ::.) <$> group ts'
      end
  | t :: ts' =>
      i ← item_of t;
      match ts' with
      | TStar :: ts'' =>
          match ts'' with
          | TStar :: _ => None
          | _ => (Many i ::.) <$> group ts''
          end
      | _ => (One i ::.) <$> group ts'
      end
  end.

(** A compiled pattern is represented by its source, which is also what
    [p.pattern] returns. *)
Record Pattern : Type := Compiled { pattern : string }.

(** The atoms of a source of the fragment; [None] for any other source. *)
Definition parse (src : string) : option (list atom) := lex src ≫= group.

Definition item_match (i : item) (x : ascii) : bool :=
  match i with
  | Lit c => ieq c x
  | Dot => negb (bool_decide (x = ascii_of_N 10))
  end.

Definition head_char (t : string) : option ascii :=
  match t with
  | EmptyString => None
  | String x _ => Some x
  end.

Definition word_at (c : option ascii) : bool :=
  match c with
  | Some x => is_word x
  | None => false
  end.

(** [\b] between [prev] and the rest [t] of the text. *)
Definition boundary (prev : option ascii) (t : string) : bool :=
  xorb (word_at prev) (word_at (head_char t)).

(** Does the sequence of atoms match at this position? [prev] is the
    character before the position. *)
Fixpoint match_here (r : list atom) : option ascii → string → bool :=
  match r with
  | [] => λ _ _, true
  | WordB :: r' => λ prev t, boundary prev t && match_here r' prev t
  | One i :: r' => λ prev t,
      match t with
      | String x t' => item_match i x && match_here r' (Some x) t'
      | EmptyString => false
      end
  | Many i :: r' =>
      fix many (prev : option ascii) (t : string) : bool :=
        match_here r' prev t
        || match t with
           | String x t' => item_match i x && many (Some x) t'
           | EmptyString => false
           end
  end.

Fixpoint search_from (r : list atom) (prev : option ascii) (t : string)
  : bool :=
  match_here r prev t
  || match t with
     | String x t' => search_from r (Some x) t'
     | EmptyString => false
     end.

Definition has_char (c : ascii) (s : string) : bool :=
  bool_decide (c ∈ list_ascii_of_string s).

(** A source with an opening parenthesis and without a closing parenthesis,
    a bracket or a backslash: the parenthesis is neither escaped nor
    inside a character class, so it opens a group, which nothing closes.
    [re.compile] raises [re.error] (missing ), unterminated subpattern). *)
Definition unterminated_group (source : string) : bool :=
  has_char "(" source && negb (has_char ")" source)
  && negb (has_char "[" source) && negb (has_char "\" source).

Section engine.
(** [re] on the sources outside the fragment: does [re.compile] accept the
    source, and does the compiled source match somewhere in the text? *)
Variable re_accepts : string → bool.
Variable re_beyond : string → string → bool.

(** [re.compile(source, re.IGNORECASE)]: the compiled pattern, or [None]
    when [re.compile] raises [re.error]. A source of the fragment is a
    regular expression; a source with an unterminated group is not. *)
Definition re_compile (source : string) : option Pattern :=
  if bool_decide (is_Some (parse source)) then Some (Compiled source)
  else if unterminated_group source then None
  else if re_accepts source then Some (Compiled source)
  else None.

(** [bool(p.search(text))] *)
Definition search (p : Pattern) (text : string) : bool :=
  match parse (pattern p) with
  | Some r => search_from r None text
  | None => re_beyond (pattern p) text
  end.
End engine.

(** [s.split('@')[0]] *)
Fixpoint before_at (s : string) : string :=
  match s with
  | EmptyString => EmptyString
  | String c s' => if bool_decide (c = "@"%char) then EmptyString
                   else String c (before_at s')
  end.

(** [str.isspace] on ASCII. *)
Definition is_space (c : ascii) : bool :=
  in_range 9 13 c || in_range 28 32 c.

(** [s.split()]: the maximal runs of non-whitespace characters. [cur] is
    the run being read, reversed. *)
Fixpoint split_ws (cur : list ascii) (s : string) : list string :=
  let flush := match cur with
               | [] => []
               | _ => [string_of_list_ascii (reverse cur)]
               end in
  match s with
  | EmptyString => flush
  | String c s' => if is_space c then flush ++ split_ws [] s'
                   else split_ws (c :: cur) s'
  end.

Definition str_split (s : string) : list string := split_ws [] s.

Record CommitIdentityMatcher : Type := { patterns : list Pattern }.

Section build.
Variable re_accepts : string → bool.

#[local] Abbreviation re_compile := (re_compile re_accepts).

(** Lines 72-74: the loop over the parts of the name. *)
Fixpoint add_name_parts (name_parts : list string) (patterns : list Pattern)
  : option (list Pattern) :=
  match name_parts with
  | [] => Some patterns
  | part :: rest =>
      if bool_decide (2 < String.length part)%nat then
        p ← re_compile ("\b" +:+ re_escape part +:+ "\b");
        add_name_parts rest (patterns ++ [p])
      else add_name_parts rest patterns
  end.

(** [CommitIdentityMatcher._build_patterns]: the list of patterns, or
    [None] when one of the calls of [re.compile] raises [re.error]. *)
Definition _build_patterns (github_user : github_user)
  : option (list Pattern) :=
  let name := default "" (name github_user) in
  let login := login github_user in
  let email := default "" (email github_user) in
  let patterns := [] in
  patterns ←
    (if bool_decide (email ≠ "") then
       p ← re_compile (re_escape email);
       let patterns := patterns ++ [p] in
       let local_part := before_at email in
       p ← re_compile (re_escape local_part +:+ "@.*");
       Some (patterns ++ [p])
     else Some patterns);
  p ← re_compile (login +:+ "@users.noreply.github.com");
  let patterns := patterns ++ [p] in
  p ← re_compile ("\b" +:+ re_escape login +:+ "\b");
  let patterns := patterns ++ [p] in
  if bool_decide (name ≠ "") then
    p ← re_compile ("\b" +:+ re_escape name +:+ "\b");
    let patterns := patterns ++ [p] in
    let name_parts := str_split name in
    add_name_parts name_parts patterns
  else Some patterns.

(** [CommitIdentityMatcher.__init__]: the exception of [_build_patterns]
    leaves the constructor. *)
Definition new_matcher (github_user : github_user)
  : option CommitIdentityMatcher :=
  patterns ← _build_patterns github_user;
  Some {| patterns := patterns |}.
End build.

(** The whole-word pattern of a text (lines 64, 69 and 74). *)
Definition word_pattern (s : string) : Pattern :=
  Compiled ("\b" +:+ re_escape s +:+ "\b").

(** The patterns of a profile in the order in which [_build_patterns]
    appends them: what it returns when it returns
    ([IdentityProps.build_patterns_eq]). *)
Definition built_patterns (github_user : github_user) : list Pattern :=
  let name := default "" (name github_user) in
  let login := login github_user in
  let email := default "" (email github_user) in
  (if bool_decide (email ≠ "") then
     [Compiled (re_escape email);
      Compiled (re_escape (before_at email) +:+ "@.*")]
   else [])
  ++ [Compiled (login +:+ "@users.noreply.github.com"); word_pattern login]
  ++ (if bool_decide (name ≠ "") then
        word_pattern name
        :: (word_pattern <$>
              filter (λ part, (2 < String.length part)%nat) (str_split name))
      else []).

Definition matcher_of (github_user : github_user) : CommitIdentityMatcher :=
  {| patterns := built_patterns github_user |}.

(** [CommitIdentityMatcher.is_users_commit] *)
Definition is_users_commit (re_beyond : string → string → bool)
    (self : CommitIdentityMatcher) (commit_author commit_email : string)
  : bool :=
  let text_to_check := commit_author +:+ " <" +:+ commit_email +:+ ">" in
  existsb (λ p, search re_beyond p text_to_check) (patterns self).

(** The last character of [s], or [prev] when [s] is empty. *)
Fixpoint last_or (prev : option ascii) (s : string) : option ascii :=
  match s with
  | EmptyString => prev
  | String c s' => last_or (Some c) s'
  end.

(** The tokens do not start with the repetition operator. *)
Definition not_star (ts : list token) : Prop :=
  match ts with TStar :: _ => False | _ => True end.

(** The characters of an account name: letters, digits, the hyphen and
    the underscore. *)
Definition name_char (c : ascii) : bool :=
  is_alnum c || bool_decide (c = "-"%char) || bool_decide (c = "_"%char).

(** The login is made of the characters of an account name. *)
Definition account_name (login : string) : Prop :=
  forallb name_char (list_ascii_of_string login) = true.

#[global] Instance account_name_dec login : Decision (account_name login).
Proof. unfold account_name. apply _. Defined.

(** A profile whose login ends with a hyphen. *)
Definition trailing_hyphen : github_user := GithubUser None "dev-" None.

(** A profile whose login has an opening parenthesis. *)
Definition open_paren : github_user := GithubUser None "a(" None.

End Identity.

(** ** Acquisition: the cloning stage of [process_all_repos] *)

Module Acquisition.

(** The fields of githubkit's [Repository] that the code reads. *)
Record Repository : Type := {
  repo_name : string;      (* repo.name *)
  full_name : string       (* repo.full_name *)
}.

(** How the subprocess of [clone_repo] ends. *)
Inductive clone_outcome : Type :=
  | Cloned                           (* return code 0 *)
  | ExitNonZero (stderr : string)    (* return code other than 0 *)
  | CloneRaised (msg : string).      (* an Exception on the way *)

Inductive level : Type := DEBUG | INFO | WARNING | ERROR.

(** [posixpath.join] on two components. *)
Definition path_join (a b : string) : string :=
  match b with
  | String "/" _ => b
  | _ => if bool_decide (a = "") then b
         else if String.eqb (String.substring (String.length a - 1) 1 a) "/"
              then a +:+ b
              else a +:+ "/" +:+ b
  end.

Section clone.
Variable temp_dir : string.                       (* self.temp_dir *)
Variable git_clone : Repository → clone_outcome.  (* the [git clone] run *)

(** [clone_repo]: the pair it returns, and what it logs. *)
Definition clone_repo (repo : Repository)
  : (string * bool) * list (level * string) :=
  let repo_path := path_join temp_dir (repo_name repo) in
  match git_clone repo with
  | Cloned => ((repo_path, true), [])
  | ExitNonZero stderr =>
      ((repo_path, false),
       [(ERROR, "Failed to clone " +:+ full_name repo +:+ ": " +:+ stderr)])
  | CloneRaised msg =>
      ((repo_path, false),
       [(ERROR, "Exception while cloning " +:+ full_name repo +:+ ": " +:+ msg)])
  end.

(** *** The semaphore

    Lines 238-244 create one coroutine [sem_clone(task)] per repository
    and hand them all to [gather]. Each of them first enters
    [async with semaphore], which it can do while the counter of the
    semaphore is positive and which decrements the counter; only inside
    does it await its [clone_repo] coroutine, which has not run before;
    when that returns, leaving the block increments the counter. The
    event loop interleaves these steps in an order the code does not
    decide, which the step relation leaves open. *)

Inductive task_state : Type :=
  | Waiting                           (* not yet inside [async with] *)
  | Running                           (* inside: [clone_repo] is running *)
  | Done (result : string * bool).    (* resolved, semaphore released *)

#[global] Instance task_state_eq_dec : EqDecision task_state.
Proof. solve_decision. Defined.

Record sched : Type := Sched {
  sem_value : nat;              (* the counter of the semaphore *)
  tasks : list task_state       (* one per repository, in input order *)
}.

(** [asyncio.Semaphore(5)] *)
Definition CONCURRENCY_LIMIT : nat := 5.

Definition sched_init (repos : list Repository) : sched :=
  Sched CONCURRENCY_LIMIT (replicate (length repos) Waiting).

Inductive step (repos : list Repository) : sched → sched → Prop :=
  | step_enter s i :
      tasks s !! i = Some Waiting → (0 < sem_value s)%nat →
      step repos s (Sched (sem_value s - 1) (<[i := Running]> (tasks s)))
  | step_exit s i repo :
      tasks s !! i = Some Running → repos !! i = Some repo →
      step repos s (Sched (sem_value s + 1)
                      (<[i := Done (clone_repo repo).1]> (tasks s))).

Definition reachable (repos : list Repository) (s : sched) : Prop :=
  rtc (step repos) (sched_init repos) s.

(** The number of clone tasks that are executing. *)
Definition running (s : sched) : nat :=
  length (filter (λ t, t = Running) (tasks s)).

Definition waiting (s : sched) : nat :=
  length (filter (λ t, t = Waiting) (tasks s)).

Definition resolved (t : task_state) : Prop :=
  match t with Done _ => True | _ => False end.

#[global] Instance resolved_dec t : Decision (resolved t).
Proof. destruct t; simpl; apply _. Defined.

Definition all_resolved (s : sched) : Prop := Forall resolved (tasks s).

(** The steps that a state still has before it. *)
Definition work_left (s : sched) : nat := 2 * waiting s + running s.

(** The number of tasks that satisfy [P]. *)
Definition count (P : task_state → Prop) `{∀ t, Decision (P t)}
    (l : list task_state) : nat :=
  length (filter P l).

(** What holds of every state that a run reaches. *)
Definition sched_inv (repos : list Repository) (s : sched) : Prop :=
  length (tasks s) = length repos ∧
  (running s + sem_value s = CONCURRENCY_LIMIT)%nat ∧
  ∀ i r, tasks s !! i = Some (Done r) →
         ∃ repo, repos !! i = Some repo ∧ r = (clone_repo repo).1.

(** What [gather] returns: the results in input order. *)
Definition gather (repos : list Repository) : list (string * bool) :=
  (λ repo, (clone_repo repo).1) <$> repos.
End clone.

(** *** States for the examples *)

(** Six candidates. *)
Definition six_repos : list Repository :=
  replicate 6 (Build_Repository "a" "o/a").

(** Five clone tasks are inside the semaphore and the sixth waits. *)
Definition saturated : sched :=
  Sched 0 (replicate 5 Running ++ [Waiting]).

End Acquisition.

(** ** The pipeline: [analyze_repo_commits] and [process_all_repos] *)

Module Pipeline.
Import Identity Acquisition.

(** What the analyzer returns: month -> extension -> metric -> count. *)
Abbreviation stats := (pydict (pydict (pydict Z))).

(** How a call of the external [analyze_git_repo] ends. The model has the
    two outcomes that line 123 tells apart. A job that ends in another
    way (the worker process dies, or the call raises something that is
    not an [Exception]) is outside the model: [future.result()] at line
    264 would raise what the executor reports. *)
Inductive analysis : Type :=
  | Returns (h : stats)
  | Fails (msg : string).     (* raises an Exception with this text *)

Inductive event : Type :=
  | Log (lvl : level) (msg : string)
  | Submit (path : string) (patterns : list Pattern)   (* executor.submit *)
  | PbarUpdate                                         (* pbar.update(1) *)
  | ExportResults (results : stats)                    (* export_results *)
  | PrintReport (results : stats)                      (* print(format_results) *)
  | Cleanup.                                           (* tracker.cleanup() *)

Definition is_submit (e : event) : Prop :=
  match e with Submit _ _ => True | _ => False end.

#[global] Instance is_submit_dec e : Decision (is_submit e).
Proof. destruct e; simpl; apply _. Defined.

Definition is_pbar (e : event) : Prop :=
  match e with PbarUpdate => True | _ => False end.

#[global] Instance is_pbar_dec e : Decision (is_pbar e).
Proof. destruct e; simpl; apply _. Defined.

Definition is_export (e : event) : Prop :=
  match e with ExportResults _ => True | _ => False end.

#[global] Instance is_export_dec e : Decision (is_export e).
Proof. destruct e; simpl; apply _. Defined.

Definition is_log (e : event) : Prop :=
  match e with Log _ _ => True | _ => False end.

(** [repr(s)] of a [str]. The text stands between single quotes, or
    between double quotes when it has a single quote and no double quote
    in it; the quote character and the backslash get a backslash before
    them; tab, newline and carriage return are written [\t], [\n] and
    [\r], every other control character as [\x] and two hexadecimal
    digits. Exact on ASCII text. *)
Definition double_quote : ascii := ascii_of_N 34.

Definition hex_digit (n : N) : ascii :=
  nth (N.to_nat n) (list_ascii_of_string "0123456789abcdef") "0"%char.

Definition repr_char (quote c : ascii) : string :=
  if bool_decide (c = quote) || bool_decide (c = "\"%char)
  then String "\" (String c "")
  else if (code c =? 9)%N then "\t"
  else if (code c =? 10)%N then "\n"
  else if (code c =? 13)%N then "\r"
  else if (code c <? 32)%N || (code c =? 127)%N
  then "\x" +:+ String (hex_digit (code c / 16))
                 (String (hex_digit (code c mod 16)) "")
  else String c "".

Definition str_repr (s : string) : string :=
  let quote := if has_char "'" s && negb (has_char double_quote s)
               then double_quote else "'"%char in
  String quote
    (foldr (λ c acc, repr_char quote c +:+ acc) (String quote "")
       (list_ascii_of_string s)).

(** [str(e)]: for a KeyError, the [repr] of the key. *)
Definition exn_str (e : exn) : string :=
  match e with
  | KeyError key => str_repr key
  | SystemError _ => ""
  end.

(** The default entry of the aggregation (lines 271-274). *)
Definition ZERO : pydict Z :=
  [("lines", 0); ("files", 0); ("additions", 0);
   ("deletions", 0); ("modifications", 0); ("repos", 0)].

(** Line 281: [total_monthly_stats[month][ext][metric] += value] on the
    nested defaultdict. *)
Definition add_metric (month ext metric : string) (value : Z)
    (total : stats) : res stats :=
  let inner := default [] (d_get month total) in
  let acc := default ZERO (d_get ext inner) in
  old ← d_index metric acc;
  Ok (d_set month (d_set ext (d_set metric (old + value) acc) inner) total).

Fixpoint add_metrics (month ext : string) (metrics : pydict Z)
    (total : stats) : res stats :=
  match metrics with
  | [] => Ok total
  | (metric, value) :: rest =>
      total' ← add_metric month ext metric value total;
      add_metrics month ext rest total'
  end.

Fixpoint add_exts (month : string) (exts : pydict (pydict Z))
    (total : stats) : res stats :=
  match exts with
  | [] => Ok total
  | (ext, metrics) :: rest =>
      total' ← add_metrics month ext metrics total; add_exts month rest total'
  end.

Fixpoint add_repo (repo_stats : stats) (total : stats) : res stats :=
  match repo_stats with
  | [] => Ok total
  | (month, exts) :: rest =>
      total' ← add_exts month exts total; add_repo rest total'
  end.

Fixpoint add_repos (repo_stats_list : list stats) (total : stats)
  : res stats :=
  match repo_stats_list with
  | [] => Ok total
  | repo_stats :: rest => total' ← add_repo repo_stats total; add_repos rest total'
  end.

Definition month_le (p q : string * pydict (pydict Z)) : Prop :=
  String.leb p.1 q.1 = true.

#[global] Instance month_le_dec p q : Decision (month_le p q).
Proof. unfold month_le. apply _. Defined.

(** Lines 271-287: sum everything, then order the months. *)
Definition aggregate (repo_stats_list : list stats) : res stats :=
  total_monthly_stats ← add_repos repo_stats_list [];
  Ok (merge_sort month_le total_monthly_stats).

Section pipeline.
Variable temp_dir : string.
Variable git_clone : Repository → clone_outcome.
(** The external analyzer, on a path and the pattern sources. *)
Variable analyze_git_repo : string → list string → analysis.
(** The order in which the futures complete: [as_completed] yields each
    of them once, in an order that the code does not decide. *)
Variable as_completed : list stats → list stats.

(** [analyze_repo_commits]: what it returns and what it logs. *)
Definition analyze_repo_commits (repo_path : string)
    (identity_patterns : list Pattern) : stats * list event :=
  let entry := Log DEBUG ("Analyzing repository at " +:+ repo_path) in
  let pattern_strings := pattern <$> identity_patterns in
  match analyze_git_repo repo_path pattern_strings with
  | Returns h => (h, [entry])
  | Fails msg =>
      ([], [entry; Log ERROR ("Failed to analyze repo " +:+ repo_path
                              +:+ ": " +:+ msg)])
  end.

(** Lines 258-260: one job per path; a job's log lines are put where it
    is submitted. The futures hold what the jobs return. *)
Fixpoint submit_all (paths : list string) (patterns : list Pattern)
  : list stats * list event :=
  match paths with
  | [] => ([], [])
  | path :: rest =>
      let '(repo_stats, logged) := analyze_repo_commits path patterns in
      let '(futures, trace) := submit_all rest patterns in
      (repo_stats :: futures, Submit path patterns :: logged ++ trace)
  end.

(** Lines 262-268: consume the futures as they complete. *)
Fixpoint collect (completed : list stats) : list stats * list event :=
  match completed with
  | [] => ([], [])
  | repo_stats :: rest =>
      let '(repo_stats_list, trace) := collect rest in
      ((if bool_decide (repo_stats ≠ []) then [repo_stats] else [])
         ++ repo_stats_list,
       PbarUpdate :: trace)
  end.

Definition repo_paths_of (results : list (string * bool)) : list string :=
  (filter (λ r, r.2 = true) results).*1.

(** [process_all_repos], after [get_contributed_repos] has returned
    [repos]: the value returned (or the exception) and the trace. *)
Definition process_all_repos (matcher : CommitIdentityMatcher)
    (repos : list Repository) : res stats * list event :=
  if bool_decide (repos = []) then
    (Ok [], [Log ERROR "No repositories found to analyze."])
  else
    let t1 := [Log INFO "Cloning repositories..."] in
    let cloned := clone_repo temp_dir git_clone <$> repos in
    let t2 := (λ l, Log l.1 l.2) <$> (cloned ≫= snd) in
    let results := gather temp_dir git_clone repos in
    let repo_paths := repo_paths_of results in
    if bool_decide (length repo_paths = 0%nat) then
      (Ok [],
       t1 ++ t2 ++ [Log ERROR "No repositories were successfully cloned"])
    else
      let t3 := [Log INFO ("Successfully cloned "
                           +:+ pretty (length repo_paths)
                           +:+ " repositories")] in
      let '(futures, t4) := submit_all repo_paths (patterns matcher) in
      let '(repo_stats_list, t5) := collect (as_completed futures) in
      let t6 := [Log INFO "Aggregating statistics..."] in
      (aggregate repo_stats_list, t1 ++ t2 ++ t3 ++ t4 ++ t5 ++ t6).

(** What the clone tasks log. *)
Definition clone_trace (repos : list Repository) : list event :=
  (λ l, Log l.1 l.2) <$> ((clone_repo temp_dir git_clone <$> repos) ≫= snd).

(** [main], from the call of [process_all_repos] on: what happens, in
    order. An exception is logged and raised again after the cleanup. *)
Definition main (matcher : CommitIdentityMatcher)
    (repos : list Repository) : list event :=
  let '(outcome, trace) := process_all_repos matcher repos in
  trace
  ++ match outcome with
     | Ok results =>
         if bool_decide (results = []) then
           [Log ERROR "No data to export or display."]
         else [ExportResults results; PrintReport results]
     | Raise e => [Log ERROR ("An error occurred: " +:+ exn_str e)]
     end
  ++ [Cleanup; Log INFO "Analysis completed"].

(** The histories of the repositories whose analysis returned something. *)
Definition contribution (patterns : list Pattern) (path : string)
  : option stats :=
  match analyze_git_repo path (pattern <$> patterns) with
  | Returns h => if bool_decide (h ≠ []) then Some h else None
  | Fails _ => None
  end.
End pipeline.

(** *** Collaborators for the examples *)

Definition one_repo : list Repository := [Build_Repository "tool" "ada/tool"].

Definition no_access : Repository → clone_outcome :=
  λ _, ExitNonZero "Permission denied (publickey).".

Definition broken_analyzer : string → list string → analysis :=
  λ _ _, Fails "not a git repository".

End Pipeline.

(** ** The merge utility: what it writes *)

Module MergeOutput.
Import Merge.

(** The keys of a sequence in the order in which they are first seen. *)
Fixpoint first_seen (keys : list string) : list string :=
  match keys with
  | [] => []
  | k :: rest => k :: filter (λ k', k' ≠ k) (first_seen rest)
  end.

(** The extension keys that a document has under a month. *)
Definition keys_at {V} (month : string) (h : pydict (pydict V))
  : list string :=
  default [] (d_keys <$> d_get month h).

(** The (month, extension) pairs of a document. *)
Definition pairs {V} (doc : pydict (pydict V)) : list (string * string) :=
  doc ≫= λ p, (λ ext, (p.1, ext)) <$> d_keys p.2.

(** A key enters a dict: at the end, unless it is there. *)
Definition add_key (keys : list string) (k : string) : list string :=
  if decide (k ∈ keys) then keys else keys ++ [k].

(** The first field, in the order of line 33, that one of the two
    MetricSets lacks. *)
Definition first_missing (a s : metrics) : option string :=
  head (filter (λ f, a !! f = None ∨ s !! f = None) FIELDS).

(** The sum of one field over all the MetricSets of a document. *)
Definition tally_exts (f : string) (exts : pydict metrics) : Z :=
  foldr (λ q acc, q.2 !!! f + acc) 0 exts.

Definition tally (f : string) (doc : document) : Z :=
  foldr (λ p acc, tally_exts f p.2 + acc) 0 doc.

Definition tally_all (f : string) (docs : list document) : Z :=
  foldr (λ doc acc, tally f doc + acc) 0 docs.

(** A history of another month. *)
Definition feb_b : document := [("2024-02", [("py", counters 5 1 5 0 1 1)])].

End MergeOutput.

(** ** The identity matcher: what it attributes *)

Module Attribution.
Import Identity.

(** Two texts that differ in the case of letters only. *)
Fixpoint ci_eq (s t : string) : bool :=
  match s, t with
  | EmptyString, EmptyString => true
  | String a s', String b t' => ieq a b && ci_eq s' t'
  | _, _ => false
  end.

(** The text that [is_users_commit] searches. *)
Definition text_to_check (commit_author commit_email : string) : string :=
  commit_author +:+ " <" +:+ commit_email +:+ ">".

(** An occurrence of [s], up to the case of letters, in [t] between two
    word boundaries. *)
Definition whole_word_in (s t : string) : Prop :=
  ∃ pre mid post,
    t = pre +:+ mid +:+ post ∧ ci_eq s mid = true ∧
    boundary (last_or None pre) (mid +:+ post) = true ∧
    boundary (last_or (last_or None pre) mid) post = true.

(** The source of the no-reply pattern after the login. *)
Definition NOREPLY : string := "@users.noreply.github.com".

(** A profile with all three fields. *)
Definition ada : github_user :=
  GithubUser (Some "Ada Lovelace") "ada-l" (Some "ada@example.com").

End Attribution.

(** ** The aggregation of [process_all_repos]: vocabulary *)

Module Totals.
Import Merge Pipeline.

(** The value that a reported MetricSet has for a metric; a metric that it
    does not report counts as nothing. *)
Definition reading (metric : string) (metrics : pydict Z) : Z :=
  default 0 (d_get metric metrics).

(** The sum of one metric over reported MetricSets. *)
Definition sum_of (metric : string) (l : list (pydict Z)) : Z :=
  foldr (λ metrics acc, reading metric metrics + acc) 0 l.

(** The entry that the reports [l] add up to from [acc]. *)
Definition entry_plus (acc : pydict Z) (l : list (pydict Z)) : pydict Z :=
  (λ p, (p.1, p.2 + sum_of p.1 l)) <$> acc.

(** No report in the list has a metric in it: line 280 has nothing to
    iterate. *)
Definition silent (l : list (pydict Z)) : Prop :=
  Forall (λ metrics, metrics = []) l.

#[global] Instance silent_dec l : Decision (silent l).
Proof. unfold silent. apply _. Defined.

(** The entry with the six sums, in the order of the default entry. *)
Definition summed (l : list (pydict Z)) : pydict Z :=
  (λ metric, (metric, sum_of metric l)) <$> d_keys ZERO.

(** The metric names of a report are among the six of the default entry. *)
Definition known (metrics : pydict Z) : Prop :=
  Forall (λ metric, metric ∈ d_keys ZERO) (d_keys metrics).

#[global] Instance known_dec metrics : Decision (known metrics).
Proof. unfold known. apply _. Defined.

(** Every dict of a per-repository result has pairwise distinct keys. *)
Definition valid_stats (h : stats) : Prop :=
  valid_doc h ∧ Forall (λ p, Forall (λ q, valid_dict q.2) p.2) h.

#[global] Instance valid_stats_dec h : Decision (valid_stats h).
Proof. unfold valid_stats. apply _. Defined.

Definition all_known (h : stats) : Prop :=
  Forall (λ p, Forall (λ q, known q.2) p.2) h.

#[global] Instance all_known_dec h : Decision (all_known h).
Proof. unfold all_known. apply _. Defined.

(** The metric names that occur in the results. *)
Definition metric_names (l : list stats) : list string :=
  l ≫= λ h, h ≫= λ p, p.2 ≫= λ q, d_keys q.2.

(** Every entry has the six keys of the default entry, in its order. *)
Definition six_keyed (total : stats) : Prop :=
  ∀ month ext entry,
    lookup2 month ext total = Some entry → d_keys entry = d_keys ZERO.

(** No month is without an extension. *)
Definition no_empty_month (total : stats) : Prop :=
  ∀ month, is_Some (d_get month total) →
           ∃ ext, is_Some (lookup2 month ext total).

(** What the reports [l] of one (month, extension) pair make of the entry
    [o] that the accumulator has for the pair ([None]: no entry). *)
Definition agg_entry (o : option (pydict Z)) (l : list (pydict Z))
  : option (pydict Z) :=
  if decide (silent l) then o
  else Some (entry_plus (default ZERO o) l).

(** What a stretch of the aggregation keeps. *)
Definition kept (total total' : stats) : Prop :=
  (valid_doc total → valid_doc total') ∧
  (no_empty_month total → no_empty_month total') ∧
  six_keyed total'.

(** The months in ascending order. *)
Definition ascending (keys : list string) : Prop :=
  Sorted (λ a b, String.leb a b = true) keys.

End Totals.

(** ** The run: [process_all_repos] and [main] as a whole *)

Module Run.
Import Merge Identity Acquisition Pipeline.

(** The paths of the jobs that a trace submits, in order. *)
Definition submitted (trace : list event) : list string :=
  omap (λ e, match e with Submit path _ => Some path | _ => None end) trace.

Definition is_cloned (o : clone_outcome) : Prop :=
  match o with Cloned => True | _ => False end.

#[global] Instance is_cloned_dec o : Decision (is_cloned o).
Proof. destruct o; simpl; apply _. Defined.

(** *** Collaborators for the examples *)

(** What an analyzer reports for a repository with three lines of Python
    in one month, and what the aggregation makes of it. *)
Definition three_lines : stats := [("2024-01", [("py", [("lines", 3)])])].

Definition three_lines_total : stats :=
  [("2024-01", [("py", [("lines", 3); ("files", 0); ("additions", 0);
                        ("deletions", 0); ("modifications", 0);
                        ("repos", 0)])])].

Definition steady_analyzer : string → list string → analysis :=
  λ _ _, Returns three_lines.

(** An analyzer with a metric of its own. *)
Definition renaming_analyzer : string → list string → analysis :=
  λ _ _, Returns [("2024-01", [("py", [("renames", 1)])])].

Definition all_cloned : Repository → clone_outcome := λ _, Cloned.

(** Two repositories, and an analyzer that fails on the first of them. *)
Definition two_repos : list Repository :=
  [Build_Repository "broken" "ada/broken"; Build_Repository "tool" "ada/tool"].

Definition flaky_analyzer : string → list string → analysis :=
  λ path _, if String.eqb path "/tmp/w/broken"
            then Fails "not a git repository"
            else Returns three_lines.

(** A metric name with a single quote in it, and its [repr]. *)
Definition quoted_metric : string := "lines'".

Definition quoting_analyzer : string → list string → analysis :=
  λ _ _, Returns [("2024-01", [("py", [(quoted_metric, 1)])])].

End Run.

(** ** From the export of the pipeline to the merge utility *)

Module Exchange.
Import Merge Pipeline Totals.

(** What [json.load] returns for the file that [json.dump(results)] has
    written: the same nested mapping, read as a document of the merge
    utility. *)
Definition as_metrics (entry : pydict Z) : metrics := list_to_map entry.

Definition as_exts (month_data : pydict (pydict Z)) : pydict metrics :=
  prod_map id as_metrics <$> month_data.

Definition as_document (results : stats) : document :=
  prod_map id as_exts <$> results.

(** The histories [rs] that runs of the pipeline on [ls] export. *)
Definition exported (ls : list (list stats)) (rs : list stats) : Prop :=
  Forall2 (λ l r, Forall valid_stats l ∧ aggregate l = Ok r) ls rs.

End Exchange.

(** ** File types: [FileTypeAnalyzer] *)

Module FileTypes.

(** [FileTypeAnalyzer.TEXT_EXTENSIONS], as the set literal lists them. *)
Definition TEXT_EXTENSIONS : list string :=
  [ (* Programming languages *)
    ".py"; ".js"; ".java"; ".cpp"; ".c"; ".h"; ".hpp"; ".cs"; ".rb"; ".php";
    ".go"; ".rs"; ".swift"; ".kt"; ".scala"; ".m"; ".ts"; ".coffee"; ".r"; ".pl";
    ".lua"; ".tsx"; ".jsx"; ".dart"; ".groovy"; ".erl"; ".el"; ".clj"; ".jl";
    (* Web *)
    ".html"; ".css"; ".scss"; ".sass"; ".less"; ".jsx"; ".tsx"; ".vue";
    (* Config/Data *)
    ".json"; ".yml"; ".yaml"; ".xml"; ".toml"; ".ini"; ".conf"; ".cfg";
    (* Documentation *)
    ".md"; ".rst"; ".txt"; ".tex"; ".adoc";
    (* Shell/Scripts *)
    ".sh"; ".bash"; ".zsh"; ".fish"; ".bat"; ".ps1";
    (* Other common text formats *)
    ".sql"; ".graphql"; ".proto"; ".cmake"; ".gradle" ].

(** [s.endswith(suffix)]: [suffix] starts at some position of [s] and ends
    with it. *)
Fixpoint endswith (s suffix : string) : bool :=
  bool_decide (s = suffix)
  || match s with
     | EmptyString => false
     | String _ s' => endswith s' suffix
     end.

(** [FileTypeAnalyzer.is_text_file] *)
Definition is_text_file (filename : string) : bool :=
  existsb (λ ext, endswith filename ext) TEXT_EXTENSIONS.

End FileTypes.

(** ** The repositories to analyze: [get_contributed_repos] *)

Module Catalog.
Import Acquisition.

(** The fields of githubkit's [FullRepository] that the listing reads:
    [repo.owner.login], and [repo.name] and [repo.full_name], which
    [clone_repo] reads too. *)
Record FullRepository : Type := {
  owner_login : string;
  repository : Repository
}.

(** How a call of the GitHub API ends. *)
Inductive api (A : Type) : Type :=
  | Responds (parsed_data : A)
  | ApiRaises (msg : string).     (* an Exception [e], with [str(e)] *)
Arguments Responds {A} parsed_data.
Arguments ApiRaises {A} msg.

(** [s.split(sep)] for a separator of one character. *)
Fixpoint str_split_on (sep : ascii) (s : string) : list string :=
  match s with
  | EmptyString => [EmptyString]
  | String c s' =>
      if bool_decide (c = sep) then EmptyString :: str_split_on sep s'
      else match str_split_on sep s' with
           | piece :: pieces => String c piece :: pieces
           | [] => [String c EmptyString]
           end
  end.

(** The number of occurrences of a character. *)
Fixpoint count_char (c : ascii) (s : string) : nat :=
  match s with
  | EmptyString => 0
  | String x s' => (if bool_decide (x = c) then 1 else 0) + count_char c s'
  end.

Section catalog.
(** [self.github.rest.repos.async_get(owner=, repo=)] *)
Variable repos_get : string → string → api FullRepository.
(** The pages of [async_list_for_authenticated_user], all of them, or the
    Exception that ends the iteration. *)
Variable list_for_authenticated_user : api (list FullRepository).
(** [async_list_commits(owner, repo, author, per_page=1)]: is the parsed
    list non-empty? *)
Variable list_commits : string → string → string → api bool.
(** [str(e)] of the ValueError that unpacking [n] values into two names
    raises. *)
Variable unpack_error : nat → string.
(** [self.username] *)
Variable username : string.

(** [check_commits] (lines 176-189): the repository or [None], and what it
    logs. *)
Definition check_commits (repo : FullRepository)
  : option FullRepository * list (level * string) :=
  match list_commits (owner_login repo) (repo_name (repository repo))
          username with
  | Responds true =>
      (Some repo,
       [(DEBUG, "Found contributions in: " +:+ full_name (repository repo))])
  | Responds false => (None, [])
  | ApiRaises msg =>
      (None,
       [(WARNING, "Failed to check repo " +:+ full_name (repository repo)
                  +:+ ": " +:+ msg)])
  end.

Definition found (repos : list FullRepository) : level * string :=
  (INFO, "Found " +:+ pretty (length repos) +:+ " repositories to analyze").

(** [get_contributed_repos]: the list it returns and what it logs. The
    checks of line 192 are awaited together; their log lines are put in
    the order of the list. *)
Definition get_contributed_repos (single_repo : option string)
  : list FullRepository * list (level * string) :=
  let single_repo := default "" single_repo in
  if bool_decide (single_repo ≠ "") then
    let failed msg :=
      ([], [(ERROR, "Failed to get repository " +:+ single_repo
                    +:+ ": " +:+ msg)]) in
    match str_split_on "/" single_repo with
    | [owner; repo_name] =>
        match repos_get owner repo_name with
        | Responds parsed_data =>
            let repos := [parsed_data] in
            (repos,
             [(INFO, "Using specified repository: " +:+ single_repo);
              found repos])
        | ApiRaises msg => failed msg
        end
    | parts => failed (unpack_error (length parts))
    end
  else
    let t0 := [(INFO, "Fetching all contributed repositories...")] in
    match list_for_authenticated_user with
    | Responds repos =>
        let results := check_commits <$> repos in
        let repos := omap fst results in
        (repos, t0 ++ (results ≫= snd) ++ [found repos])
    | ApiRaises msg =>
        ([], t0 ++ [(ERROR, "Failed to fetch repositories: " +:+ msg)])
    end.

(** Does the author have a commit in the repository? *)
Definition contributed (repo : FullRepository) : Prop :=
  list_commits (owner_login repo) (repo_name (repository repo)) username
  = Responds true.

#[global] Instance api_eq_dec {A} `{EqDecision A} : EqDecision (api A).
Proof. solve_decision. Defined.

#[global] Instance contributed_dec repo : Decision (contributed repo).
Proof. unfold contributed. apply _. Defined.

End catalog.

(** *** Collaborators for the examples *)

Definition tool : FullRepository :=
  {| owner_login := "ada"; repository := Build_Repository "tool" "ada/tool" |}.

(** The messages of CPython 3.12. *)
Definition unpack_message (n : nat) : string :=
  if decide (n < 2)%nat
  then "not enough values to unpack (expected 2, got " +:+ pretty n +:+ ")"
  else "too many values to unpack (expected 2)".

End Catalog.

(** ** The export: [export_results] *)

Module CsvExport.
Import Merge Acquisition Pipeline Totals.

(** What [csv.writer] is given for one field. *)
Inductive cell : Type :=
  | Text (s : string)
  | Number (n : Z).

(** The order of [sorted] on strings. *)
Definition str_le (a b : string) : Prop := String.leb a b = true.

#[global] Instance str_le_dec a b : Decision (str_le a b).
Proof. unfold str_le. apply _. Defined.

(** Line 318: the metrics of the table; [files] is not among them. *)
Definition CSV_METRICS : list string :=
  ["lines"; "additions"; "deletions"; "modifications"; "repos"].

(** Lines 313-315 and [sorted(languages)]: the extension keys of all
    months except [total], each once, in ascending order. *)
Definition languages (results : stats) : list string :=
  merge_sort str_le
    (remove_dups (results ≫= λ month_data,
                    filter (λ k, k ≠ "total") (d_keys month_data.2))).

(** Lines 323-326 *)
Definition csv_header (languages : list string) : list string :=
  "Month" :: (languages ≫= λ lang,
                (λ metric, lang +:+ " " +:+ metric) <$> CSV_METRICS).

(** Lines 330-334 *)
Definition csv_row (languages : list string)
    (item : string * pydict (pydict Z)) : list cell :=
  let '(month, stats) := item in
  Text month ::
    (languages ≫= λ lang,
       let lang_metrics := default [] (d_get lang stats) in
       (λ metric, Number (default 0 (d_get metric lang_metrics)))
         <$> CSV_METRICS).

(** The rows that lines 320-335 write. *)
Definition csv_rows (results : stats) : list (list cell) :=
  (Text <$> csv_header (languages results))
  :: (csv_row (languages results) <$> merge_sort month_le results).

Inductive output : Type :=
  | MakeDirs (path : string)                    (* os.makedirs(exist_ok=True) *)
  | WriteJson (path : string) (results : stats) (* json.dump(results, f, indent=2) *)
  | WriteCsv (path : string) (rows : list (list cell))
  | LogInfo (msg : string).

(** [export_results] *)
Definition export_results (results : stats) (output_dir : string)
  : list output :=
  let json_path := path_join output_dir "loc_history.json" in
  let csv_path := path_join output_dir "loc_history.csv" in
  [MakeDirs output_dir;
   WriteJson json_path results;
   LogInfo ("Exported JSON results to " +:+ json_path);
   WriteCsv csv_path (csv_rows results);
   LogInfo ("Exported CSV results to " +:+ csv_path)].

End CsvExport.

(** * Part II: the properties *)

(** ** Dicts *)

Section pydict_facts.
Context {V : Type}.
Implicit Types (d : pydict V) (k : string) (v : V).

Lemma d_get_None k d : d_get k d = None ↔ k ∉ d_keys d.
Proof.
  induction d as [|[k' v'] d IH]; simpl.
  - split; [intros _; apply not_elem_of_nil | done].
  - rewrite not_elem_of_cons. case_decide; subst.
    + split; [done | intros [? _]; done].
    + rewrite IH. tauto.
Qed.

Lemma d_get_is_Some k d : is_Some (d_get k d) ↔ k ∈ d_keys d.
Proof.
  rewrite <-not_eq_None_Some, d_get_None.
  destruct (decide (k ∈ d_keys d)); naive_solver.
Qed.

Lemma d_mem_true k d : d_mem k d = true ↔ is_Some (d_get k d).
Proof. unfold d_mem. apply bool_decide_eq_true. Qed.

Lemma d_mem_false k d : d_mem k d = false ↔ d_get k d = None.
Proof.
  unfold d_mem. rewrite bool_decide_eq_false, <-not_eq_None_Some.
  destruct (d_get k d); naive_solver.
Qed.

Lemma d_get_set_eq k v d : d_get k (d_set k v d) = Some v.
Proof.
  induction d as [|[k' v'] d IH]; simpl.
  - by rewrite decide_True.
  - case_decide; simpl; [by rewrite decide_True | by rewrite decide_False].
Qed.

Lemma d_get_set_ne k k' v d : k ≠ k' → d_get k' (d_set k v d) = d_get k' d.
Proof.
  intros Hne. induction d as [|[k0 v0] d IH]; simpl.
  - by rewrite decide_False.
  - case_decide; subst; simpl.
    + by rewrite !decide_False.
    + by rewrite IH.
Qed.

Lemma d_get_set k k' v d :
  d_get k' (d_set k v d) = if decide (k = k') then Some v else d_get k' d.
Proof.
  case_decide; subst; [apply d_get_set_eq | by apply d_get_set_ne].
Qed.

Lemma d_mem_cons k k' v' d :
  d_mem k ((k', v') :: d) = if decide (k = k') then true else d_mem k d.
Proof.
  unfold d_mem; simpl. case_decide; [|done].
  apply bool_decide_eq_true. eauto.
Qed.

Lemma d_keys_set k v d :
  d_keys (d_set k v d) = if d_mem k d then d_keys d else d_keys d ++ [k].
Proof.
  induction d as [|[k' v'] d IH]; [done|].
  rewrite d_mem_cons. cbn [d_set]. case_decide; subst; [done|].
  unfold d_keys in *. rewrite !fmap_cons, IH. by destruct (d_mem k d).
Qed.

Lemma valid_dict_set k v d : valid_dict d → valid_dict (d_set k v d).
Proof.
  unfold valid_dict. rewrite d_keys_set.
  destruct (d_mem k d) eqn:Hm; [done|].
  intros Hd. apply NoDup_app. split_and!; [done| |apply NoDup_singleton].
  intros x Hx ->%list_elem_of_singleton.
  apply d_mem_false, d_get_None in Hm. done.
Qed.

Lemma valid_dict_cons k v d :
  valid_dict ((k, v) :: d) ↔ d_get k d = None ∧ valid_dict d.
Proof. unfold valid_dict. simpl. rewrite NoDup_cons, d_get_None. done. Qed.

Lemma d_get_elem_of k v d : d_get k d = Some v → (k, v) ∈ d.
Proof.
  induction d as [|[k' v'] d IH]; simpl; [done|].
  case_decide; subst.
  - intros [= ->]. apply elem_of_cons; by left.
  - intros. apply elem_of_cons; right; auto.
Qed.

Lemma elem_of_d_get k v d : valid_dict d → (k, v) ∈ d → d_get k d = Some v.
Proof.
  induction d as [|[k' v'] d IH]; [by intros _ ?%elem_of_nil|].
  intros [Hk Hd]%valid_dict_cons [[= -> ->]|Hin]%elem_of_cons; simpl.
  - by rewrite decide_True.
  - rewrite decide_False; [auto|]. intros ->.
    apply d_get_None in Hk. apply Hk.
    unfold d_keys. apply list_elem_of_fmap. by exists (k', v).
Qed.

End pydict_facts.

Lemma d_get_fmap {V W} (f : V → W) k (d : pydict V) :
  d_get k (prod_map id f <$> d) = f <$> d_get k d.
Proof.
  induction d as [|[k' v'] d IH]; simpl; [done|]. by case_decide.
Qed.

Lemma d_set_fmap {V W} (f : V → W) k v (d : pydict V) :
  prod_map id f <$> d_set k v d = d_set k (f v) (prod_map id f <$> d).
Proof.
  induction d as [|[k' v'] d IH]; [done|].
  cbn [d_set]. rewrite !fmap_cons. cbn [prod_map fst snd id d_set].
  case_decide; [done | by rewrite fmap_cons, IH].
Qed.

Lemma d_keys_fmap {V W} (f : V → W) (d : pydict V) :
  d_keys (prod_map id f <$> d) = d_keys d.
Proof.
  unfold d_keys. rewrite <-list_fmap_compose. apply list_fmap_ext.
  by intros ? [??].
Qed.

Module MergeProps.
Import Merge.

Tactic Notation "res_simpl" := cbn [mbind res_mbind res_bind mret res_mret].
Tactic Notation "res_simpl" "in" hyp(H) := cbn [mbind res_mbind res_bind mret res_mret] in H.

#[local] Arguments add_fields_copy : simpl never.
#[local] Arguments add_fields : simpl never.

Section nested.
Context {V : Type}.
Implicit Types (h : pydict (pydict V)) (inner : pydict V).

Lemma lookup2_set month ext v inner h m e :
  d_get month h = Some inner →
  lookup2 m e (d_set month (d_set ext v inner) h) =
    if decide (m = month ∧ e = ext) then Some v else lookup2 m e h.
Proof.
  intros Hin. unfold lookup2. rewrite d_get_set.
  destruct (decide (month = m)) as [<-|Hne]; simpl.
  - rewrite d_get_set, Hin. simpl.
    destruct (decide (ext = e)) as [<-|?].
    + by rewrite decide_True.
    + rewrite decide_False; [done | naive_solver].
  - rewrite decide_False; [done | naive_solver].
Qed.

Lemma lookup2_new_month month h m e :
  d_get month h = None →
  lookup2 m e (d_set month [] h) = lookup2 m e h.
Proof.
  intros Hn. unfold lookup2. rewrite d_get_set.
  case_decide; subst; [by rewrite Hn | done].
Qed.

Lemma Forall_values_set (P : pydict V → Prop) k inner h :
  Forall (λ p, P p.2) h → P inner → Forall (λ p, P p.2) (d_set k inner h).
Proof.
  intros Hh Hi. induction Hh as [|[k' v'] h Hp Hh IH]; simpl.
  - by constructor.
  - case_decide; constructor; auto.
Qed.

Lemma Forall_values_get (P : pydict V → Prop) k inner h :
  Forall (λ p, P p.2) h → d_get k h = Some inner → P inner.
Proof.
  intros Hh Hg%d_get_elem_of. rewrite Forall_forall in Hh.
  apply (Hh _ Hg).
Qed.

Lemma valid_doc_set month ext v inner h :
  valid_doc h → d_get month h = Some inner →
  valid_doc (d_set month (d_set ext v inner) h).
Proof.
  intros [Hk Hv] Hin. split; [by apply valid_dict_set|].
  apply Forall_values_set; [done|]. apply valid_dict_set.
  by apply (Forall_values_get valid_dict month inner h).
Qed.

Lemma valid_doc_new_month month h : valid_doc h → valid_doc (d_set month [] h).
Proof.
  intros [Hk Hv]. split; [by apply valid_dict_set|].
  apply Forall_values_set; [done | apply NoDup_nil_2].
Qed.

Lemma valid_doc_cons month inner h :
  valid_doc ((month, inner) :: h) ↔
    d_get month h = None ∧ valid_dict inner ∧ valid_doc h.
Proof.
  unfold valid_doc. rewrite valid_dict_cons, Forall_cons. simpl. tauto.
Qed.

End nested.

Section merge_with_facts.
Context {V : Type} (combine : V → V → res V).
Implicit Types (doc : pydict (pydict V)) (exts inner : pydict V).

Lemma merge_ext_with_spec month ext s acc inner :
  d_get month acc = Some inner →
  match merge_ext_with combine month ext s acc with
  | Ok acc' =>
      step_occ combine (lookup2 month ext acc) s = Ok (lookup2 month ext acc') ∧
      (∀ m e, ¬ (m = month ∧ e = ext) → lookup2 m e acc' = lookup2 m e acc) ∧
      (∀ m, d_get m acc' = None ↔ d_get m acc = None) ∧
      (valid_doc acc → valid_doc acc')
  | Raise x => step_occ combine (lookup2 month ext acc) s = Raise x
  end.
Proof.
  intros Hin. unfold merge_ext_with, d_index. rewrite Hin. simpl.
  assert (Hl : lookup2 month ext acc = d_get ext inner).
  { unfold lookup2. by rewrite Hin. }
  assert (Hm : ∀ v m, d_get m (d_set month (d_set ext v inner) acc) = None
                      ↔ d_get m acc = None).
  { intros v m. rewrite d_get_set. case_decide; subst; [by rewrite Hin | done]. }
  rewrite Hl. destruct (d_get ext inner) as [a|] eqn:He; simpl.
  - destruct (combine a s) as [a'|x]; simpl; [|done].
    split_and!; [| |intros m; apply Hm|intros; by apply valid_doc_set].
    + by rewrite (lookup2_set _ _ _ _ _ _ _ Hin), decide_True.
    + intros m e Hne. by rewrite (lookup2_set _ _ _ _ _ _ _ Hin), decide_False.
  - split_and!; [| |intros m; apply Hm|intros; by apply valid_doc_set].
    + by rewrite (lookup2_set _ _ _ _ _ _ _ Hin), decide_True.
    + intros m e Hne. by rewrite (lookup2_set _ _ _ _ _ _ _ Hin), decide_False.
Qed.

Lemma merge_exts_with_spec month exts acc :
  valid_dict exts → is_Some (d_get month acc) →
  match merge_exts_with combine month exts acc with
  | Ok acc' =>
      (∀ e, step_opt combine (lookup2 month e acc) (d_get e exts)
            = Ok (lookup2 month e acc')) ∧
      (∀ m e, m ≠ month → lookup2 m e acc' = lookup2 m e acc) ∧
      (∀ m, d_get m acc' = None ↔ d_get m acc = None) ∧
      (valid_doc acc → valid_doc acc')
  | Raise x =>
      ∃ e s, d_get e exts = Some s ∧ step_occ combine (lookup2 month e acc) s = Raise x
  end.
Proof.
  revert acc. induction exts as [|[e0 s0] exts IH]; intros acc Hv [inner Hin].
  { simpl. done. }
  apply valid_dict_cons in Hv as [Hfresh Hv]. cbn [merge_exts_with].
  pose proof (merge_ext_with_spec month e0 s0 acc inner Hin) as H1.
  destruct (merge_ext_with combine month e0 s0 acc) as [acc1|x]; simpl.
  - destruct H1 as (Hs & Hother & Hmon & Hval).
    assert (Hsome : is_Some (d_get month acc1)).
    { apply not_eq_None_Some. rewrite Hmon, Hin. done. }
    specialize (IH acc1 Hv Hsome).
    destruct (merge_exts_with combine month exts acc1) as [acc'|x].
    + destruct IH as (IHs & IHo & IHm & IHv). split_and!.
      * intros e. specialize (IHs e). simpl. case_decide; subst.
        -- rewrite Hfresh in IHs. simpl in *. congruence.
        -- rewrite Hother in IHs by naive_solver. done.
      * intros m e Hne. rewrite IHo, Hother by naive_solver. done.
      * intros m. by rewrite IHm.
      * auto.
    + destruct IH as (e & s & Hg & Hr). exists e, s.
      assert (e ≠ e0) by (intros ->; congruence).
      simpl. rewrite decide_False by done.
      rewrite Hother in Hr by naive_solver. done.
  - exists e0, s0. simpl. by rewrite decide_True.
Qed.

Lemma merge_month_with_spec month exts acc :
  valid_dict exts →
  match merge_month_with combine month exts acc with
  | Ok acc' =>
      (∀ e, step_opt combine (lookup2 month e acc) (d_get e exts)
            = Ok (lookup2 month e acc')) ∧
      (∀ m e, m ≠ month → lookup2 m e acc' = lookup2 m e acc) ∧
      (∀ m, d_get m acc' = None ↔ m ≠ month ∧ d_get m acc = None) ∧
      (valid_doc acc → valid_doc acc')
  | Raise x =>
      ∃ e s, d_get e exts = Some s ∧ step_occ combine (lookup2 month e acc) s = Raise x
  end.
Proof.
  intros Hv. unfold merge_month_with.
  destruct (d_mem month acc) eqn:Hm.
  - apply d_mem_true in Hm.
    pose proof (merge_exts_with_spec month exts acc Hv Hm) as H.
    destruct (merge_exts_with combine month exts acc); [|done].
    destruct H as (?&?&Hmon&?). split_and!; try done.
    intros m. rewrite Hmon. split; [|tauto].
    intros Hn. split; [|done]. intros ->. rewrite Hn in Hm. by destruct Hm.
  - apply d_mem_false in Hm.
    assert (Hs : is_Some (d_get month (d_set month [] acc))).
    { rewrite d_get_set_eq. eauto. }
    pose proof (merge_exts_with_spec month exts _ Hv Hs) as H.
    destruct (merge_exts_with combine month exts (d_set month [] acc)).
    + destruct H as (Hs' & Ho & Hmon & Hval). split_and!.
      * intros e. rewrite <-Hs'. by rewrite lookup2_new_month.
      * intros m e Hne. rewrite Ho by done. by apply lookup2_new_month.
      * intros m. rewrite Hmon, d_get_set. case_decide; subst; naive_solver.
      * intros. by apply Hval, valid_doc_new_month.
    + destruct H as (e' & s' & ? & Hr). exists e', s'.
      by rewrite lookup2_new_month in Hr.
Qed.

Lemma lookup2_cons m e m0 exts0 (rest : pydict (pydict V)) :
  lookup2 m e ((m0, exts0) :: rest) =
    if decide (m = m0) then d_get e exts0 else lookup2 m e rest.
Proof. unfold lookup2. simpl. by case_decide. Qed.

Lemma lookup2_None m e (h : pydict (pydict V)) :
  d_get m h = None → lookup2 m e h = None.
Proof. unfold lookup2. by intros ->. Qed.

Lemma merge_doc_with_spec doc acc :
  valid_doc doc →
  match merge_doc_with combine doc acc with
  | Ok acc' =>
      (∀ m e, step_opt combine (lookup2 m e acc) (lookup2 m e doc)
              = Ok (lookup2 m e acc')) ∧
      (∀ m, d_get m acc' = None ↔ d_get m acc = None ∧ d_get m doc = None) ∧
      (valid_doc acc → valid_doc acc')
  | Raise x =>
      ∃ m e s, lookup2 m e doc = Some s ∧
               step_occ combine (lookup2 m e acc) s = Raise x
  end.
Proof.
  revert acc. induction doc as [|[m0 exts0] rest IH]; intros acc Hv.
  { simpl. split_and!; [done| |done]. intros m. tauto. }
  apply valid_doc_cons in Hv as (Hfresh & Hv0 & Hv). cbn [merge_doc_with].
  pose proof (merge_month_with_spec m0 exts0 acc Hv0) as H1.
  destruct (merge_month_with combine m0 exts0 acc) as [acc1|x]; simpl.
  - destruct H1 as (Hs & Hother & Hmon & Hval).
    specialize (IH acc1 Hv).
    destruct (merge_doc_with combine rest acc1) as [acc'|x].
    + destruct IH as (IHs & IHm & IHv). split_and!.
      * intros m e. specialize (IHs m e). rewrite lookup2_cons.
        case_decide; subst.
        -- rewrite (lookup2_None _ _ _ Hfresh) in IHs. simpl in IHs.
           rewrite Hs. done.
        -- by rewrite Hother in IHs.
      * intros m. rewrite IHm, Hmon. simpl. case_decide; subst; [|tauto].
        split; [tauto|]. intros [_ [=]].
      * auto.
    + destruct IH as (m & e & s & Hl & Hr). exists m, e, s.
      assert (m ≠ m0).
      { intros ->. by rewrite (lookup2_None _ _ _ Hfresh) in Hl. }
      rewrite lookup2_cons, decide_False by done.
      by rewrite Hother in Hr.
  - destruct H1 as (e & s & Hg & Hr). exists m0, e, s.
    by rewrite lookup2_cons, decide_True.
Qed.

Lemma fold_occ_cons (acc : option V) m e doc docs :
  fold_occ combine acc (occurrences m e (doc :: docs)) =
    acc' ← step_opt combine acc (lookup2 m e doc); fold_occ combine acc' (occurrences m e docs).
Proof.
  unfold occurrences. simpl. by destruct (lookup2 m e doc).
Qed.

Lemma merge_docs_with_spec docs acc :
  Forall valid_doc docs →
  match merge_docs_with combine docs acc with
  | Ok acc' =>
      (∀ m e, fold_occ combine (lookup2 m e acc) (occurrences m e docs)
              = Ok (lookup2 m e acc')) ∧
      (∀ m, d_get m acc' = None
            ↔ d_get m acc = None ∧ Forall (λ d, d_get m d = None) docs) ∧
      (valid_doc acc → valid_doc acc')
  | Raise x =>
      ∃ m e, fold_occ combine (lookup2 m e acc) (occurrences m e docs) = Raise x
  end.
Proof.
  intros Hv. revert acc. induction Hv as [|doc docs Hd Hv IH]; intros acc.
  { simpl. split_and!; [done| |done]. intros m. rewrite Forall_nil. tauto. }
  cbn [merge_docs_with].
  pose proof (merge_doc_with_spec doc acc Hd) as H1.
  destruct (merge_doc_with combine doc acc) as [acc1|x]; res_simpl.
  - destruct H1 as (Hs & Hmon & Hval). specialize (IH acc1).
    destruct (merge_docs_with combine docs acc1) as [acc'|x].
    + destruct IH as (IHs & IHm & IHv). split_and!.
      * intros m e. rewrite fold_occ_cons, Hs. apply IHs.
      * intros m. rewrite IHm, Hmon, Forall_cons. tauto.
      * auto.
    + destruct IH as (m & e & Hr). exists m, e.
      rewrite fold_occ_cons, Hs. apply Hr.
  - destruct H1 as (m & e & s & Hl & Hr). exists m, e.
    rewrite fold_occ_cons, Hl. by cbn [step_opt]; rewrite Hr.
Qed.


End merge_with_facts.
(** ** The field loop *)

Lemma getitem_Ok {V} k (m : gmap string V) v : m !! k = Some v → getitem k m = Ok v.
Proof. unfold getitem. by intros ->. Qed.

Lemma getitem_Raise {V} k (m : gmap string V) :
  m !! k = None → getitem k m = Raise (KeyError k).
Proof. unfold getitem. by intros ->. Qed.

Lemma add_field_copy_Ok f a s x y :
  a !! f = Some x → s !! f = Some y →
  add_field_copy f a s = Ok (<[f := x + y]> a).
Proof.
  intros Ha Hs. unfold add_field_copy.
  by rewrite (getitem_Ok _ _ _ Ha), (getitem_Ok _ _ _ Hs).
Qed.

Lemma add_field_copy_Raise f a s :
  a !! f = None ∨ s !! f = None →
  add_field_copy f a s = Raise (KeyError f).
Proof.
  unfold add_field_copy. intros [Ha|Hs].
  - by rewrite (getitem_Raise _ _ Ha).
  - unfold getitem. rewrite Hs. by destruct (a !! f).
Qed.

Lemma add_field_copy_cases f a s :
  (∃ x y, a !! f = Some x ∧ s !! f = Some y ∧
          add_field_copy f a s = Ok (<[f := x + y]> a)) ∨
  ((a !! f = None ∨ s !! f = None) ∧
   add_field_copy f a s = Raise (KeyError f)).
Proof.
  destruct (a !! f) as [x|] eqn:Ha, (s !! f) as [y|] eqn:Hs.
  - left. exists x, y. eauto using add_field_copy_Ok.
  - right. split; [by right|]. apply add_field_copy_Raise. by right.
  - right. split; [by left|]. apply add_field_copy_Raise. by left.
  - right. split; [by left|]. apply add_field_copy_Raise. by left.
Qed.

Lemma add_fields_copy_cons f fs a s :
  add_fields_copy (f :: fs) a s =
    a' ← add_field_copy f a s; add_fields_copy fs a' s.
Proof. done. Qed.

(** The loop succeeds exactly when both MetricSets carry every field of the
    list; it then overwrites these fields of the accumulator with the sums
    and leaves every other key alone. *)
Lemma add_fields_copy_Ok fs a s :
  NoDup fs →
  Forall (λ f, is_Some (a !! f)) fs → Forall (λ f, is_Some (s !! f)) fs →
  ∃ a', add_fields_copy fs a s = Ok a' ∧ dom a' = dom a ∧
        ∀ k, a' !! k = if decide (k ∈ fs)
                       then Some (a !!! k + s !!! k) else a !! k.
Proof.
  intros Hnd. revert a.
  induction Hnd as [|f fs Hf Hnd IH]; intros a Ha Hs.
  { exists a. split_and!; [done..|]. intros k.
    rewrite decide_False; [done | apply not_elem_of_nil]. }
  apply Forall_cons in Ha as [[x Hx] Ha]. apply Forall_cons in Hs as [[y Hy] Hs].
  rewrite add_fields_copy_cons, (add_field_copy_Ok _ _ _ _ _ Hx Hy). res_simpl.
  destruct (IH (<[f := x + y]> a)) as (a' & Hok & Hdom & Hl); [|done|].
  { eapply Forall_impl; [exact Ha|]. intros k [v Hv]. simpl.
    rewrite lookup_insert. case_decide; eauto. }
  exists a'. split_and!; [done| |].
  - rewrite Hdom, dom_insert_L. apply elem_of_dom_2 in Hx. set_solver.
  - intros k. rewrite Hl. destruct (decide (k = f)) as [->|Hne].
    + rewrite decide_False by done. rewrite decide_True by (apply elem_of_cons; by left).
      rewrite lookup_insert_eq.
      by rewrite (lookup_total_correct _ _ _ Hx), (lookup_total_correct _ _ _ Hy).
    + rewrite lookup_total_insert_ne, lookup_insert_ne by done.
      destruct (decide (k ∈ fs)).
      * rewrite decide_True by (apply elem_of_cons; by right). done.
      * rewrite decide_False; [done|]. rewrite elem_of_cons. tauto.
Qed.

Lemma add_fields_copy_Raise fs a s :
  Exists (λ f, a !! f = None ∨ s !! f = None) fs →
  ∃ f, f ∈ fs ∧ add_fields_copy fs a s = Raise (KeyError f).
Proof.
  revert a. induction fs as [|f fs IH]; intros a Hex.
  { by apply Exists_nil in Hex. }
  rewrite add_fields_copy_cons.
  destruct (add_field_copy_cases f a s) as [(x & y & Hx & Hy & ->)|[Hn ->]].
  - res_simpl. apply Exists_cons in Hex as [[Hn|Hn]|Hex]; [congruence..|].
    destruct (IH (<[f := x + y]> a)) as (f' & Hin & Hr).
    { eapply Exists_impl; [exact Hex|]. intros k [Hk|Hk]; [left|by right].
      rewrite lookup_insert_ne; [done|]. intros ->. congruence. }
    exists f'. split; [apply elem_of_cons; by right | done].
  - exists f. split; [apply elem_of_cons; by left | done].
Qed.

Lemma add_fields_copy_error fs a s x :
  add_fields_copy fs a s = Raise x → ∃ f, f ∈ fs ∧ x = KeyError f.
Proof.
  revert a. induction fs as [|f fs IH]; intros a; [done|].
  rewrite add_fields_copy_cons.
  destruct (add_field_copy_cases f a s) as [(x' & y & Hx & Hy & ->)|[Hn ->]];
    res_simpl.
  - intros (f' & ? & ?)%IH. exists f'. rewrite elem_of_cons. auto.
  - intros [= <-]. exists f. rewrite elem_of_cons. auto.
Qed.

Lemma NoDup_FIELDS : NoDup FIELDS.
Proof. apply (bool_decide_unpack _). by vm_compute. Qed.

Lemma complete_not s :
  ¬ complete s → Exists (λ f, s !! f = None) FIELDS.
Proof.
  unfold complete. intros H. apply not_Forall_Exists in H; [|apply _].
  eapply Exists_impl; [exact H|]. intros f Hf. simpl in Hf.
  by apply eq_None_not_Some.
Qed.

(** ** Accumulating the occurrences of one key *)

Lemma complete_lookup s f : complete s → f ∈ FIELDS → is_Some (s !! f).
Proof. unfold complete. rewrite Forall_forall. auto. Qed.

Lemma fold_occ_complete a l :
  complete a → Forall complete l →
  ∃ r, fold_occ (add_fields_copy FIELDS) (Some a) l = Ok (Some r) ∧ dom r = dom a ∧
       ∀ k, r !! k = if decide (k ∈ FIELDS)
                     then Some (a !!! k + total k l) else a !! k.
Proof.
  intros Ha Hl. revert a Ha. induction Hl as [|s l Hs Hl IH]; intros a Ha.
  { exists a. split_and!; [done..|]. intros k. case_decide; [|done].
    destruct (complete_lookup a k Ha) as [x Hx]; [done|].
    rewrite Hx, (lookup_total_correct _ _ _ Hx). simpl. f_equal. lia. }
  destruct (add_fields_copy_Ok FIELDS a s NoDup_FIELDS Ha Hs)
    as (a' & Hok & Hdom & Hlk).
  assert (Ha' : complete a').
  { apply Forall_forall. intros f Hf. rewrite Hlk, decide_True by done. eauto. }
  destruct (IH a' Ha') as (r & Hr & Hdr & Hlr).
  exists r. split_and!.
  - cbn [fold_occ step_occ]. rewrite Hok. by res_simpl.
  - congruence.
  - intros k. rewrite Hlr. case_decide as Hk.
    + specialize (Hlk k). rewrite decide_True in Hlk by done.
      rewrite (lookup_total_correct _ _ _ Hlk). simpl. f_equal. lia.
    + by rewrite Hlk, decide_False.
Qed.

Lemma fold_occ_Raise a l :
  l ≠ [] → ¬ complete a ∨ Exists (λ s, ¬ complete s) l →
  ∃ f, f ∈ FIELDS ∧ fold_occ (add_fields_copy FIELDS) (Some a) l = Raise (KeyError f).
Proof.
  revert a. induction l as [|s l IH]; intros a Hne Hbad; [done|].
  cbn [fold_occ step_occ].
  destruct (decide (complete a)) as [Ha|Ha], (decide (complete s)) as [Hs|Hs].
  - destruct (add_fields_copy_Ok FIELDS a s NoDup_FIELDS Ha Hs)
      as (a' & -> & Hdom & Hlk). res_simpl.
    assert (Ha' : complete a').
    { apply Forall_forall. intros f Hf. rewrite Hlk, decide_True by done. eauto. }
    destruct Hbad as [?|[?|Hex]%Exists_cons]; [done..|].
    apply IH; [|by right]. intros ->. by apply Exists_nil in Hex.
  - destruct (add_fields_copy_Raise FIELDS a s) as (f & Hf & ->).
    { eapply Exists_impl; [apply (complete_not _ Hs)|]. naive_solver. }
    eauto.
  - destruct (add_fields_copy_Raise FIELDS a s) as (f & Hf & ->).
    { eapply Exists_impl; [apply (complete_not _ Ha)|]. naive_solver. }
    eauto.
  - destruct (add_fields_copy_Raise FIELDS a s) as (f & Hf & ->).
    { eapply Exists_impl; [apply (complete_not _ Ha)|]. naive_solver. }
    eauto.
Qed.

Lemma fold_occ_error acc l x :
  fold_occ (add_fields_copy FIELDS) acc l = Raise x → ∃ f, f ∈ FIELDS ∧ x = KeyError f.
Proof.
  revert acc. induction l as [|s l IH]; intros acc; [done|].
  cbn [fold_occ]. destruct acc as [a|]; cbn [step_occ]; res_simpl; [|apply IH].
  destruct (add_fields_copy FIELDS a s) as [a'|x'] eqn:Hadd; res_simpl.
  - apply IH.
  - intros [= <-]. by apply add_fields_copy_error in Hadd.
Qed.

(** The order of the occurrences does not matter for six-field MetricSets. *)
Lemma total_Permutation k l l' : l ≡ₚ l' → total k l = total k l'.
Proof.
  unfold total. induction 1; simpl; [done| congruence | lia | congruence].
Qed.

Lemma total_app k l l' : total k (l ++ l') = total k l + total k l'.
Proof. unfold total. induction l; simpl; lia. Qed.

Lemma fst_graph {A B} (g : A → B) (l : list A) : ((λ x, (x, g x)) <$> l).*1 = l.
Proof. induction l as [|x l IH]; [done|]. rewrite !fmap_cons. simpl. by f_equal. Qed.

Lemma sum_metrics_lookup l k :
  sum_metrics l !! k = if decide (k ∈ FIELDS) then Some (total k l) else None.
Proof.
  unfold sum_metrics. case_decide as Hk.
  - apply elem_of_list_to_map_1.
    + rewrite fst_graph. apply NoDup_FIELDS.
    + apply list_elem_of_fmap. by exists k.
  - apply not_elem_of_list_to_map_1.
    by rewrite fst_graph.
Qed.

Lemma metric_set_lookup s k : metric_set s → is_Some (s !! k) ↔ k ∈ FIELDS.
Proof.
  unfold metric_set. intros Hd. rewrite <-elem_of_dom, Hd.
  apply elem_of_list_to_set.
Qed.

Lemma metric_set_complete s : metric_set s → complete s.
Proof.
  intros Hs. apply Forall_forall. intros f Hf. by apply metric_set_lookup.
Qed.

Lemma sum_metrics_metric_set l : metric_set (sum_metrics l).
Proof.
  unfold metric_set. apply set_eq. intros k.
  rewrite elem_of_dom, sum_metrics_lookup, elem_of_list_to_set.
  case_decide; [by eauto | split; [by intros [] | done]].
Qed.

Lemma fold_occ_metric_sets l :
  Forall metric_set l →
  fold_occ (add_fields_copy FIELDS) None l = Ok (match l with [] => None | _ => Some (sum_metrics l) end).
Proof.
  intros Hl. destruct Hl as [|s l Hs Hl]; [done|].
  cbn [fold_occ step_occ]. res_simpl.
  destruct (fold_occ_complete s l) as (r & -> & Hdom & Hlk).
  { by apply metric_set_complete. }
  { eapply Forall_impl; [exact Hl|]. apply metric_set_complete. }
  do 2 f_equal. apply map_eq. intros k.
  rewrite Hlk, sum_metrics_lookup. case_decide as Hk; [done|].
  apply eq_None_not_Some. by rewrite (metric_set_lookup s k Hs).
Qed.

(** ** References and values *)

Lemma locs_of_cons month (exts : pydict loc) (h : history) :
  locs_of ((month, exts) :: h) = exts.*2 ++ locs_of h.
Proof. done. Qed.

Lemma locs_of_app (h1 h2 : history) : locs_of (h1 ++ h2) = locs_of h1 ++ locs_of h2.
Proof. unfold locs_of. apply bind_app. Qed.

Lemma d_set_fresh {V} k (v : V) d : d_get k d = None → d_set k v d = d ++ [(k, v)].
Proof.
  induction d as [|[k' v'] d IH]; simpl; [done|].
  case_decide; [done|]. intros ?. by rewrite IH.
Qed.

Lemma d_set_same {V} k (v : V) d : d_get k d = Some v → d_set k v d = d.
Proof.
  induction d as [|[k' v'] d IH]; simpl; [done|].
  case_decide; subst; [by intros [= ->] | intros ?; by rewrite IH].
Qed.

Lemma locs_of_get month inner (h : history) l :
  d_get month h = Some inner → l ∈ inner.*2 → l ∈ locs_of h.
Proof.
  intros Hg%d_get_elem_of Hl. unfold locs_of.
  apply list_elem_of_bind. by exists (month, inner).
Qed.

Lemma locs_of_lookup2 month ext (h : history) l :
  lookup2 month ext h = Some l → l ∈ locs_of h.
Proof.
  unfold lookup2. destruct (d_get month h) as [inner|] eqn:Hm; [simpl|done].
  intros Hg%d_get_elem_of. apply (locs_of_get month inner h l Hm).
  apply list_elem_of_fmap. by exists (ext, l).
Qed.

(** Binding a new extension of a month adds one reference. *)
Lemma locs_of_adopt month ext l inner (h : history) :
  d_get month h = Some inner → d_get ext inner = None →
  locs_of (d_set month (d_set ext l inner) h) ≡ₚ l :: locs_of h.
Proof.
  intros Hm He. rewrite (d_set_fresh _ _ _ He). clear He.
  induction h as [|[m0 exts0] h IH]; [done|]. simpl in Hm |- *.
  case_decide; subst.
  - injection Hm as ->. rewrite !locs_of_cons, fmap_app. simpl.
    rewrite <-(assoc (++)). simpl. by rewrite <-Permutation_middle.
  - rewrite !locs_of_cons, (IH Hm). by rewrite <-Permutation_middle.
Qed.

Lemma locs_of_new_month month (h : history) :
  d_get month h = None → locs_of (d_set month [] h) = locs_of h.
Proof.
  intros Hm. rewrite (d_set_fresh _ _ _ Hm), locs_of_app.
  unfold locs_of at 2. simpl. by rewrite (right_id [] (++)).
Qed.

Lemma val_cons σ ext l (exts : pydict loc) :
  val σ ((ext, l) :: exts) = (ext, σ !!! l) :: val σ exts.
Proof. done. Qed.

Lemma vals_cons σ month exts (h : history) :
  vals σ ((month, exts) :: h) = (month, val σ exts) :: vals σ h.
Proof. done. Qed.

Lemma val_ext σ σ' (exts : pydict loc) :
  (∀ l, l ∈ exts.*2 → σ' !! l = σ !! l) → val σ' exts = val σ exts.
Proof.
  induction exts as [|[e l] exts IH]; intros H; [done|].
  rewrite !val_cons, IH.
  - rewrite !list_lookup_total_alt, H; [done|]. simpl. apply elem_of_cons; by left.
  - intros l' Hl'. apply H. simpl. apply elem_of_cons; by right.
Qed.

Lemma vals_ext σ σ' (h : history) :
  (∀ l, l ∈ locs_of h → σ' !! l = σ !! l) → vals σ' h = vals σ h.
Proof.
  induction h as [|[m exts] h IH]; intros H; [done|].
  rewrite !vals_cons, IH, (val_ext σ σ' exts); [done| |].
  - intros l Hl. apply H. rewrite locs_of_cons, elem_of_app. by left.
  - intros l Hl. apply H. rewrite locs_of_cons, elem_of_app. by right.
Qed.

Lemma d_get_vals σ month (h : history) :
  d_get month (vals σ h) = val σ <$> d_get month h.
Proof. apply d_get_fmap. Qed.

Lemma d_get_val σ ext (exts : pydict loc) :
  d_get ext (val σ exts) = (λ l, σ !!! l) <$> d_get ext exts.
Proof. apply d_get_fmap. Qed.

Lemma d_mem_vals σ month (h : history) :
  d_mem month (vals σ h) = d_mem month h.
Proof.
  unfold d_mem. rewrite d_get_vals. apply bool_decide_ext.
  by rewrite fmap_is_Some.
Qed.

Lemma lookup2_vals σ month ext (h : history) :
  lookup2 month ext (vals σ h) = (λ l, σ !!! l) <$> lookup2 month ext h.
Proof.
  unfold lookup2. rewrite d_get_vals.
  destruct (d_get month h); simpl; [apply d_get_val | done].
Qed.

(** Writing to the object of one entry changes the value of that entry and
    of no other, because no two entries share an object. *)
Lemma val_update (σ : heap) ext a a' (exts : pydict loc) :
  NoDup exts.*2 → d_get ext exts = Some a → (a < length σ)%nat →
  val (<[a := a']> σ) exts = d_set ext a' (val σ exts).
Proof.
  intros Hnd Hg Ha. induction exts as [|[e l] exts IH]; [done|].
  simpl in Hnd. apply NoDup_cons in Hnd as [Hl Hnd].
  rewrite !val_cons. simpl in Hg |- *. case_decide; subst.
  - injection Hg as ->. rewrite list_lookup_total_insert_eq by done.
    f_equal. apply val_ext. intros l' Hl'.
    apply list_lookup_insert_ne. intros ?; by subst.
  - rewrite IH by done. rewrite list_lookup_total_insert_ne; [done|].
    intros ->. apply Hl. apply d_get_elem_of in Hg.
    apply list_elem_of_fmap. by exists (ext, l).
Qed.

Lemma vals_update (σ : heap) month ext a a' inner (h : history) :
  NoDup (locs_of h) → d_get month h = Some inner → d_get ext inner = Some a →
  (a < length σ)%nat →
  vals (<[a := a']> σ) h = d_set month (d_set ext a' (val σ inner)) (vals σ h).
Proof.
  intros Hnd Hm He Ha. induction h as [|[m0 exts0] h IH]; [done|].
  rewrite locs_of_cons in Hnd. apply NoDup_app in Hnd as (Hnd0 & Hdisj & Hnd).
  rewrite !vals_cons. simpl in Hm |- *. case_decide; subst.
  - injection Hm as ->. rewrite (val_update σ ext a a' inner) by done.
    f_equal. apply vals_ext. intros l Hl. apply list_lookup_insert_ne.
    intros <-. apply (Hdisj a); [|done].
    apply d_get_elem_of in He. apply list_elem_of_fmap. by exists (ext, a).
  - rewrite IH by done. f_equal. f_equal. apply val_ext. intros l Hl.
    apply list_lookup_insert_ne. intros <-. apply (Hdisj a Hl).
    by apply (locs_of_lookup2 month ext); unfold lookup2; rewrite Hm.
Qed.

(** ** The code against the merge of the specification *)

Lemma sim_post_refl merged σ :
  NoDup (locs_of merged) → sim_post [] merged σ merged σ.
Proof. intros. split_and!; auto. Qed.

Lemma sim_post_trans new1 new2 merged σ merged1 σ1 merged' σ' :
  sim_post new1 merged σ merged1 σ1 →
  sim_post new2 merged1 σ1 merged' σ' →
  sim_post (new1 ++ new2) merged σ merged' σ'.
Proof.
  intros (Hl1 & Hm1 & Hs1 & Hn1 & Hf1 & Hk1) (Hl2 & Hm2 & Hs2 & Hn2 & Hf2 & Hk2).
  split_and!; [congruence|auto| |done| |auto].
  - intros l [?|[?|?]%Hs1]%Hs2; rewrite elem_of_app; auto.
  - intros l Hl. rewrite Hf2, Hf1; auto.
Qed.

Lemma sim_pre_step new1 new2 merged σ merged1 σ1 :
  sim_pre (new1 ++ new2) merged σ →
  sim_post new1 merged σ merged1 σ1 →
  sim_pre new2 merged1 σ1 ∧ (∀ l, l ∈ new2 → σ1 !! l = σ !! l).
Proof.
  intros [Hnd Hb] (Hl & Hm & Hs & Hn & Hf & Hk).
  rewrite <-(assoc (++)) in Hnd, Hb.
  apply NoDup_app in Hnd as (Hnd1 & Hd1 & Hnd).
  apply NoDup_app in Hnd as (Hnd2 & Hd2 & Hnd).
  assert (Hdisj : ∀ l, l ∈ new2 → l ∉ locs_of merged1).
  { intros l Hl2 [Hl1|Hlm]%Hs.
    - apply (Hd1 l Hl1). rewrite elem_of_app. auto.
    - by apply (Hd2 l). }
  split; [split|].
  - apply NoDup_app. auto.
  - rewrite Forall_forall in Hb |- *. intros l. rewrite Hl, elem_of_app.
    intros [?|[?|?]%Hs]; apply Hb; rewrite !elem_of_app; auto.
  - intros l Hl2. auto.
Qed.

Lemma lookup_bound (σ : heap) l : (l < length σ)%nat → σ !! l = Some (σ !!! l).
Proof. apply list_lookup_lookup_total_lt. Qed.

Lemma add_fields_cons f fs acc src σ :
  add_fields (f :: fs) acc src σ =
    σ' ← add_field f acc src σ; add_fields fs acc src σ'.
Proof. done. Qed.

(** In-place summation into an object that is not the input object does what
    the value-level loop does. *)
Lemma add_fields_sim fs acc src (σ : heap) a s :
  acc ≠ src → σ !! acc = Some a → σ !! src = Some s →
  add_fields fs acc src σ =
    (a' ← add_fields_copy fs a s; Ok (<[acc := a']> σ)).
Proof.
  intros Hne. revert σ a. induction fs as [|f fs IH]; intros σ a Ha Hs.
  { res_simpl. simpl. by rewrite list_insert_id. }
  assert (Hlt : (acc < length σ)%nat) by (by eapply lookup_lt_Some).
  rewrite add_fields_cons, add_fields_copy_cons.
  unfold add_field, add_field_copy, deref. rewrite Ha, Hs. res_simpl.
  destruct (getitem f a) as [x|]; res_simpl; [|done].
  destruct (getitem f s) as [y|]; res_simpl; [|done].
  rewrite (IH _ (<[f := x + y]> a)).
  - destruct (add_fields_copy fs _ s); res_simpl; [|done].
    by rewrite list_insert_insert_eq.
  - by apply list_lookup_insert_eq.
  - by rewrite list_lookup_insert_ne.
Qed.

#[local] Abbreviation add := (add_fields_copy FIELDS).

Lemma merge_ext_sim month ext stats merged (σ : heap) inner :
  sim_pre [stats] merged σ → d_get month merged = Some inner →
  match merge_ext_with add month ext (σ !!! stats) (vals σ merged) with
  | Ok acc' =>
      ∃ merged' σ',
        merge_ext month ext stats (merged, σ) = Ok (merged', σ') ∧
        merge_ext_with keep_first month ext stats merged = Ok merged' ∧
        vals σ' merged' = acc' ∧
        sim_post [stats] merged σ merged' σ'
  | Raise x => merge_ext month ext stats (merged, σ) = Raise x
  end.
Proof.
  intros [Hnd Hb] Hin. simpl in Hnd, Hb.
  apply NoDup_cons in Hnd as [Hfresh Hnd]. apply Forall_cons in Hb as [Hs Hb].
  unfold merge_ext_with, merge_ext, d_index.
  rewrite d_get_vals, Hin. simpl. rewrite d_get_val.
  destruct (d_get ext inner) as [a|] eqn:He; simpl.
  - assert (Ha : a ∈ locs_of merged).
    { apply (locs_of_lookup2 month ext). unfold lookup2. by rewrite Hin. }
    assert (Hlt : (a < length σ)%nat).
    { rewrite Forall_forall in Hb. auto. }
    rewrite (add_fields_sim FIELDS a stats σ (σ !!! a) (σ !!! stats));
      [|by intros <-|by apply lookup_bound..].
    destruct (add (σ !!! a) (σ !!! stats)) as [a'|x]; res_simpl; [|done].
    exists merged, (<[a := a']> σ). split_and!; [done| | |].
    + unfold keep_first. res_simpl.
      by rewrite (d_set_same ext a inner He), (d_set_same month inner merged Hin).
    + by apply (vals_update σ month ext a a' inner).
    + split_and!; [apply length_insert|done|auto|done| |done].
      intros l Hl. apply list_lookup_insert_ne. by intros <-.
  - exists (d_set month (d_set ext stats inner) merged), σ.
    assert (Hp := locs_of_adopt month ext stats inner merged Hin He).
    split_and!; [done..| |].
    + unfold vals, val. by rewrite !d_set_fmap.
    + split_and!; [done| | | |done|].
      * intros l Hl. rewrite Hp. apply elem_of_cons. by right.
      * intros l. rewrite Hp, elem_of_cons, list_elem_of_singleton. done.
      * rewrite Hp. by apply NoDup_cons.
      * intros m Hm. rewrite d_get_set. case_decide; eauto.
Qed.

Lemma merge_exts_sim month exts merged (σ : heap) :
  sim_pre exts.*2 merged σ → is_Some (d_get month merged) →
  match merge_exts_with add month (val σ exts) (vals σ merged) with
  | Ok acc' =>
      ∃ merged' σ',
        merge_exts month exts (merged, σ) = Ok (merged', σ') ∧
        merge_exts_with keep_first month exts merged = Ok merged' ∧
        vals σ' merged' = acc' ∧
        sim_post exts.*2 merged σ merged' σ'
  | Raise x => merge_exts month exts (merged, σ) = Raise x
  end.
Proof.
  revert merged σ. induction exts as [|[e0 l0] exts IH]; intros merged σ Hpre Hm.
  { simpl. exists merged, σ. split_and!; [done..|].
    apply sim_post_refl. by destruct Hpre as [Hnd _]. }
  destruct Hm as [inner Hin].
  rewrite val_cons. cbn [merge_exts_with merge_exts fmap list_fmap snd].
  assert (Hpre0 : sim_pre [l0] merged σ).
  { destruct Hpre as [Hnd Hb]. simpl in Hnd, Hb.
    apply NoDup_cons in Hnd as [Hf Hnd]. apply Forall_cons in Hb as [Hs Hb].
    apply NoDup_app in Hnd as (_ & _ & Hnd).
    rewrite not_elem_of_app in Hf. rewrite Forall_app in Hb.
    split; simpl; [apply NoDup_cons|apply Forall_cons]; tauto. }
  pose proof (merge_ext_sim month e0 l0 merged σ inner Hpre0 Hin) as H1.
  destruct (merge_ext_with add month e0 (σ !!! l0) (vals σ merged))
    as [acc1|x]; res_simpl.
  - destruct H1 as (merged1 & σ1 & -> & -> & <- & Hpost). res_simpl.
    destruct (sim_pre_step [l0] exts.*2 merged σ merged1 σ1 Hpre Hpost)
      as [Hpre1 Hframe].
    assert (Hm1 : is_Some (d_get month merged1)).
    { destruct Hpost as (_&_&_&_&_&Hk). apply Hk. eauto. }
    specialize (IH merged1 σ1 Hpre1 Hm1).
    rewrite (val_ext σ σ1 exts Hframe) in IH.
    destruct (merge_exts_with add month (val σ exts) (vals σ1 merged1))
      as [acc'|x]; [|done].
    destruct IH as (merged' & σ' & -> & -> & <- & Hpost').
    exists merged', σ'. split_and!; [done..|].
    apply (sim_post_trans [l0] exts.*2 _ _ _ _ _ _ Hpost Hpost').
  - by rewrite H1.
Qed.

Lemma merge_month_sim month exts merged (σ : heap) :
  sim_pre exts.*2 merged σ →
  match merge_month_with add month (val σ exts) (vals σ merged) with
  | Ok acc' =>
      ∃ merged' σ',
        merge_month month exts (merged, σ) = Ok (merged', σ') ∧
        merge_month_with keep_first month exts merged = Ok merged' ∧
        vals σ' merged' = acc' ∧
        sim_post exts.*2 merged σ merged' σ'
  | Raise x => merge_month month exts (merged, σ) = Raise x
  end.
Proof.
  intros Hpre. unfold merge_month_with, merge_month. rewrite d_mem_vals.
  destruct (d_mem month merged) eqn:Hmem.
  - apply d_mem_true in Hmem. apply (merge_exts_sim month exts merged σ Hpre Hmem).
  - apply d_mem_false in Hmem.
    assert (Hl := locs_of_new_month month merged Hmem).
    assert (Hpre' : sim_pre exts.*2 (d_set month [] merged) σ).
    { unfold sim_pre. by rewrite Hl. }
    assert (Hs : is_Some (d_get month (d_set month [] merged))).
    { rewrite d_get_set_eq. eauto. }
    pose proof (merge_exts_sim month exts _ σ Hpre' Hs) as H.
    replace (d_set month [] (vals σ merged))
      with (vals σ (d_set month [] merged))
      by (unfold vals; by rewrite d_set_fmap).
    destruct (merge_exts_with add month (val σ exts)
                (vals σ (d_set month [] merged))) as [acc'|x]; [|done].
    destruct H as (merged' & σ' & ? & ? & ? & Hpost).
    exists merged', σ'. split_and!; [done..|].
    destruct Hpost as (?&Hm&Hsub&?&?&Hk).
    split_and!; [done| | |done..|].
    + intros l. rewrite <-Hl. apply Hm.
    + intros l. rewrite <-Hl. apply Hsub.
    + intros m [v Hv]. apply Hk. rewrite d_get_set. case_decide; eauto.
Qed.

Lemma merge_data_sim data merged (σ : heap) :
  sim_pre (locs_of data) merged σ →
  match merge_doc_with add (vals σ data) (vals σ merged) with
  | Ok acc' =>
      ∃ merged' σ',
        merge_data data (merged, σ) = Ok (merged', σ') ∧
        merge_doc_with keep_first data merged = Ok merged' ∧
        vals σ' merged' = acc' ∧
        sim_post (locs_of data) merged σ merged' σ'
  | Raise x => merge_data data (merged, σ) = Raise x
  end.
Proof.
  revert merged σ. induction data as [|[m0 exts0] data IH]; intros merged σ Hpre.
  { simpl. exists merged, σ. split_and!; [done..|].
    apply sim_post_refl. by destruct Hpre as [Hnd _]. }
  rewrite vals_cons. cbn [merge_doc_with merge_data].
  rewrite locs_of_cons in Hpre |- *.
  assert (Hpre0 : sim_pre exts0.*2 merged σ).
  { destruct Hpre as [Hnd Hb]. rewrite <-(assoc (++)) in Hnd, Hb.
    apply NoDup_app in Hnd as (Hnd0 & Hd & Hnd).
    apply NoDup_app in Hnd as (_ & _ & Hnd).
    rewrite !Forall_app in Hb. split.
    - apply NoDup_app. split_and!; [done| |done].
      intros l Hl Hl'. apply (Hd l Hl). rewrite elem_of_app. by right.
    - rewrite Forall_app. tauto. }
  pose proof (merge_month_sim m0 exts0 merged σ Hpre0) as H1.
  destruct (merge_month_with add m0 (val σ exts0) (vals σ merged))
    as [acc1|x]; res_simpl.
  - destruct H1 as (merged1 & σ1 & -> & -> & <- & Hpost). res_simpl.
    destruct (sim_pre_step exts0.*2 (locs_of data) merged σ merged1 σ1
                Hpre Hpost) as [Hpre1 Hframe].
    specialize (IH merged1 σ1 Hpre1).
    rewrite (vals_ext σ σ1 data Hframe) in IH.
    destruct (merge_doc_with add (vals σ data) (vals σ1 merged1))
      as [acc'|x]; [|done].
    destruct IH as (merged' & σ' & -> & -> & <- & Hpost').
    exists merged', σ'. split_and!; [done..|].
    apply (sim_post_trans _ _ _ _ _ _ _ _ Hpost Hpost').
  - by rewrite H1.
Qed.

(** ** Loading *)

Lemma mets_cons month exts (doc : document) :
  mets ((month, exts) :: doc) = exts.*2 ++ mets doc.
Proof. done. Qed.

Lemma load_exts_spec exts (σ : heap) :
  ∃ r, load_exts exts σ = (r, σ ++ exts.*2) ∧
       r.*2 = seq (length σ) (length exts) ∧
       d_keys r = d_keys exts ∧
       ∀ tail, val (σ ++ exts.*2 ++ tail) r = exts.
Proof.
  revert σ. induction exts as [|[e s] exts IH]; intros σ.
  { exists []. by rewrite (right_id [] (++)). }
  destruct (IH (σ ++ [s])) as (r & Hr & Hlocs & Hkeys & Hval).
  exists ((e, length σ) :: r). cbn [load_exts]. rewrite Hr.
  rewrite <-(assoc (++)). split_and!; [done| | |].
  - rewrite length_app, Nat.add_1_r in Hlocs. by rewrite fmap_cons, Hlocs.
  - unfold d_keys in *. by rewrite !fmap_cons, Hkeys.
  - intros tail. specialize (Hval tail). rewrite <-(assoc (++)) in Hval.
    rewrite val_cons, fmap_cons. cbn [snd app] in Hval |- *. rewrite Hval.
    by rewrite list_lookup_total_middle.
Qed.

Lemma json_load_spec doc (σ : heap) :
  ∃ data, json_load doc σ = (data, σ ++ mets doc) ∧
          locs_of data = seq (length σ) (length (mets doc)) ∧
          d_keys data = d_keys doc ∧
          Forall2 (λ p q, d_keys p.2 = d_keys q.2) data doc ∧
          ∀ tail, vals (σ ++ mets doc ++ tail) data = doc.
Proof.
  revert σ. induction doc as [|[m exts] doc IH]; intros σ.
  { exists []. rewrite (right_id [] (++)). split_and!; try done. }
  destruct (load_exts_spec exts σ) as (r & Hr & Hlocs & Hkeys & Hval).
  destruct (IH (σ ++ exts.*2)) as (data & Hd & Hdl & Hdk & Hdk2 & Hdv).
  exists ((m, r) :: data). cbn [json_load]. rewrite Hr, Hd.
  rewrite mets_cons, <-(assoc (++)). split_and!; [done| | | |].
  - rewrite locs_of_cons, Hlocs, Hdl, !length_app, length_fmap.
    by rewrite seq_app.
  - unfold d_keys in *. by rewrite !fmap_cons, Hdk.
  - by constructor.
  - intros tail. rewrite vals_cons. specialize (Hdv tail).
    rewrite <-!(assoc (++)) in Hdv |- *. rewrite Hdv. by rewrite Hval.
Qed.

Lemma valid_dict_keys {V W} (d : pydict V) (d' : pydict W) :
  d_keys d = d_keys d' → valid_dict d → valid_dict d'.
Proof. unfold valid_dict. by intros ->. Qed.

Lemma valid_doc_keys {V W} (h : pydict (pydict V)) (h' : pydict (pydict W)) :
  d_keys h = d_keys h' → Forall2 (λ p q, d_keys p.2 = d_keys q.2) h h' →
  valid_doc h' → valid_doc h.
Proof.
  intros Hk Hk2 [Hv Hv2]. split; [by apply (valid_dict_keys h' h)|].
  clear Hk Hv. induction Hk2 as [|p q h h' Hpq Hk2 IH]; [done|].
  apply Forall_cons in Hv2 as [Hq Hv2]. constructor; [|auto].
  by apply (valid_dict_keys q.2 p.2).
Qed.

(** ** Entries and their objects *)

Lemma locs_of_elem (h : history) l :
  valid_doc h → l ∈ locs_of h → ∃ m e, lookup2 m e h = Some l.
Proof.
  intros [Hv Hv2] Hl. unfold locs_of in Hl.
  apply list_elem_of_bind in Hl as ([m inner] & Hl & Hin). simpl in Hl.
  apply list_elem_of_fmap in Hl as ([e l'] & -> & He).
  exists m, e. unfold lookup2.
  rewrite (elem_of_d_get m inner h Hv Hin). simpl.
  apply elem_of_d_get; [|done].
  rewrite Forall_forall in Hv2. apply (Hv2 _ Hin).
Qed.

Lemma d_get_inj (exts : pydict loc) e e' l :
  NoDup exts.*2 → d_get e exts = Some l → d_get e' exts = Some l → e = e'.
Proof.
  induction exts as [|[e0 l0] exts IH]; [done|]. simpl.
  intros [Hl Hnd]%NoDup_cons. repeat case_decide; subst; [done| | |by auto].
  - intros [= ->] He'%d_get_elem_of. destruct Hl.
    apply list_elem_of_fmap. by exists (e', l).
  - intros He%d_get_elem_of [= ->]. destruct Hl.
    apply list_elem_of_fmap. by exists (e, l).
Qed.

Lemma lookup2_inj (h : history) m e m' e' l :
  NoDup (locs_of h) → lookup2 m e h = Some l → lookup2 m' e' h = Some l →
  m = m' ∧ e = e'.
Proof.
  induction h as [|[m0 exts0] h IH]; [done|].
  rewrite locs_of_cons, !lookup2_cons. intros (Hnd0 & Hd & Hnd)%NoDup_app.
  assert (Hin : ∀ k, d_get k exts0 = Some l → l ∈ exts0.*2).
  { intros k Hk%d_get_elem_of. apply list_elem_of_fmap. by exists (k, l). }
  repeat case_decide; subst.
  - intros H1 H2. split; [done|]. by apply (d_get_inj exts0 e e' l).
  - intros H1%Hin H2%locs_of_lookup2. by destruct (Hd l).
  - intros H1%locs_of_lookup2 H2%Hin. by destruct (Hd l).
  - by apply IH.
Qed.

Lemma step_opt_keep_first (acc o : option loc) :
  step_opt keep_first acc o =
    Ok (match acc with Some a => Some a | None => o end).
Proof. by destruct acc, o. Qed.

(** ** One file, then all files *)

Lemma adopt_spec (data merged m1 : history) :
  valid_doc data → merge_doc_with keep_first data merged = Ok m1 →
  (∀ m e, lookup2 m e m1 =
          match lookup2 m e merged with
          | Some a => Some a
          | None => lookup2 m e data
          end) ∧
  (valid_doc merged → valid_doc m1).
Proof.
  intros Hv Hm. pose proof (merge_doc_with_spec keep_first data merged Hv) as H.
  rewrite Hm in H. destruct H as (Hs & _ & Hval). split; [|done].
  intros m e. specialize (Hs m e). rewrite step_opt_keep_first in Hs.
  by injection Hs.
Qed.

Lemma resolve_exts_Ok exts (σ : heap) :
  Forall (λ l, (l < length σ)%nat) exts.*2 → resolve_exts exts σ = Ok (val σ exts).
Proof.
  induction exts as [|[e l] exts IH]; [done|].
  rewrite fmap_cons. intros [Hl Hb]%Forall_cons. cbn [resolve_exts].
  unfold deref. rewrite (lookup_bound σ l Hl). res_simpl. by rewrite IH.
Qed.

Lemma resolve_Ok (h : history) (σ : heap) :
  Forall (λ l, (l < length σ)%nat) (locs_of h) → resolve h σ = Ok (vals σ h).
Proof.
  induction h as [|[m exts] h IH]; [done|].
  rewrite locs_of_cons. intros [Hl Hb]%Forall_app. cbn [resolve].
  rewrite resolve_exts_Ok by done. res_simpl. by rewrite IH.
Qed.

Lemma file_pre doc merged (σ : heap) data :
  NoDup (locs_of merged) → Forall (λ l, (l < length σ)%nat) (locs_of merged) →
  locs_of data = seq (length σ) (length (mets doc)) →
  sim_pre (locs_of data) merged (σ ++ mets doc).
Proof.
  intros Hnd Hb Hlocs. rewrite Forall_forall in Hb. split.
  - apply NoDup_app. split_and!; [rewrite Hlocs; apply NoDup_seq| |done].
    intros l. rewrite Hlocs, elem_of_seq. intros [? _] ?%Hb. lia.
  - apply Forall_forall. intros l. rewrite elem_of_app, Hlocs, elem_of_seq.
    rewrite length_app. intros [?|?%Hb]; lia.
Qed.

Lemma file_step doc merged (σ : heap) :
  NoDup (locs_of merged) → Forall (λ l, (l < length σ)%nat) (locs_of merged) →
  ∃ data,
    json_load doc σ = (data, σ ++ mets doc) ∧
    vals (σ ++ mets doc) data = doc ∧
    locs_of data = seq (length σ) (length (mets doc)) ∧
    (valid_doc doc → valid_doc data) ∧
    match merge_doc_with add doc (vals σ merged) with
    | Ok acc' =>
        ∃ merged' σ',
          merge_data data (merged, σ ++ mets doc) = Ok (merged', σ') ∧
          merge_doc_with keep_first data merged = Ok merged' ∧
          vals σ' merged' = acc' ∧
          sim_post (locs_of data) merged (σ ++ mets doc) merged' σ'
    | Raise x => merge_data data (merged, σ ++ mets doc) = Raise x
    end.
Proof.
  intros Hnd Hb.
  destruct (json_load_spec doc σ) as (data & Hload & Hlocs & Hk & Hk2 & Hval).
  specialize (Hval []). rewrite (right_id [] (++)) in Hval.
  exists data. split_and!; [done..| |].
  { by apply valid_doc_keys. }
  assert (Hpre := file_pre doc merged σ data Hnd Hb Hlocs).
  pose proof (merge_data_sim data merged (σ ++ mets doc) Hpre) as H.
  rewrite Hval in H.
  rewrite (vals_ext σ (σ ++ mets doc) merged) in H; [done|].
  intros l Hl. apply lookup_app_l. rewrite Forall_forall in Hb. auto.
Qed.

Lemma merge_files_cons doc rest r :
  merge_files (doc :: rest) r =
    let '(data, σ1) := json_load doc (store r) in
    '(m, σ2) ← merge_data data (merged r, σ1);
    merge_files rest (Run m σ2 (loaded r ++ [data])).
Proof. done. Qed.

Lemma sim_post_inv new merged (σ : heap) merged' σ' :
  sim_pre new merged σ → sim_post new merged σ merged' σ' →
  NoDup (locs_of merged') ∧ Forall (λ l, (l < length σ')%nat) (locs_of merged').
Proof.
  intros Hpre Hpost.
  rewrite <-(right_id [] (++) new) in Hpre.
  destruct (sim_pre_step new [] merged σ merged' σ' Hpre Hpost) as [[??] _].
  done.
Qed.

(** The run of the code computes, entry for entry, what the merge of the
    specification computes, and raises when it raises. *)
Lemma merge_files_sim files r0 :
  NoDup (locs_of (merged r0)) →
  Forall (λ l, (l < length (store r0))%nat) (locs_of (merged r0)) →
  match merge_docs_with add files (vals (store r0) (merged r0)) with
  | Ok acc' =>
      ∃ r, merge_files files r0 = Ok r ∧
           vals (store r) (merged r) = acc' ∧
           NoDup (locs_of (merged r)) ∧
           Forall (λ l, (l < length (store r))%nat) (locs_of (merged r))
  | Raise x => merge_files files r0 = Raise x
  end.
Proof.
  revert r0. induction files as [|doc rest IH]; intros [m0 σ0 ld0] Hnd Hb.
  { simpl. by eexists. }
  cbn [merge_docs_with store merged] in *. rewrite merge_files_cons.
  cbn [store merged loaded].
  destruct (file_step doc m0 σ0 Hnd Hb) as (data & -> & _ & Hlocs & _ & H).
  destruct (merge_doc_with add doc (vals σ0 m0)) as [acc1|x]; res_simpl.
  - destruct H as (m1 & σ2 & -> & _ & <- & Hpost). res_simpl.
    destruct (sim_post_inv _ _ _ _ _ (file_pre doc m0 σ0 data Hnd Hb Hlocs) Hpost)
      as [Hnd1 Hb1].
    apply (IH (Run m1 σ2 (ld0 ++ [data])) Hnd1 Hb1).
  - by rewrite H.
Qed.

Theorem merge_result_copy files (σ : heap) :
  merge_result files σ = merge_copy files.
Proof.
  unfold merge_result, merge_loc_histories, merge_copy.
  pose proof (merge_files_sim files (Run [] σ [])) as H. cbn in H.
  specialize (H (NoDup_nil_2) (Forall_nil_2 _)).
  destruct (merge_docs_with add files []) as [acc|x].
  - destruct H as (r & -> & <- & _ & Hb). res_simpl. by apply resolve_Ok.
  - by rewrite H.
Qed.

Lemma occurrences_cons {V} m e (doc : pydict (pydict V)) docs :
  occurrences m e (doc :: docs) =
    match lookup2 m e doc with
    | Some s => s :: occurrences m e docs
    | None => occurrences m e docs
    end.
Proof. done. Qed.

(** Where the objects of the inputs end up. *)
Lemma merge_files_frame files r0 r :
  Forall valid_doc files → valid_doc (merged r0) →
  NoDup (locs_of (merged r0)) →
  Forall (λ l, (l < length (store r0))%nat) (locs_of (merged r0)) →
  merge_files files r0 = Ok r →
  ∃ datas,
    loaded r = loaded r0 ++ datas ∧ length datas = length files ∧
    (length (store r0) ≤ length (store r))%nat ∧
    (∀ l, l ∈ locs_of (merged r) →
          l ∈ locs_of (merged r0) ∨ (length (store r0) ≤ l)%nat) ∧
    (∀ l, (l < length (store r0))%nat → l ∉ locs_of (merged r0) →
          store r !! l = store r0 !! l) ∧
    (∀ m e l0, lookup2 m e (merged r0) = Some l0 →
               lookup2 m e (merged r) = Some l0) ∧
    (∀ i doc data m e,
       files !! i = Some doc → datas !! i = Some data →
       match lookup2 m e doc with
       | None => lookup2 m e data = None
       | Some s =>
           ∃ l, lookup2 m e data = Some l ∧
                if decide (lookup2 m e (merged r0) = None ∧
                           occurrences m e (take i files) = [])
                then lookup2 m e (merged r) = Some l
                else store r !! l = Some s
       end).
Proof.
  intros Hv. revert r0.
  induction Hv as [|doc rest Hvd Hv IH]; intros [m0 σ0 ld0] Hvm Hnd Hb Hrun.
  { injection Hrun as <-. exists []. cbn [store merged loaded].
    rewrite (right_id [] (++)). split_and!; auto. intros i ????. done. }
  rewrite merge_files_cons in Hrun. cbn [store merged loaded] in *.
  destruct (file_step doc m0 σ0 Hnd Hb) as (data & Hload & Hval & Hlocs & Hvdata & H).
  rewrite Hload in Hrun. specialize (Hvdata Hvd).
  destruct (merge_doc_with add doc (vals σ0 m0)) as [acc1|x];
    [|rewrite H in Hrun; done].
  destruct H as (m1 & σ2 & Hmd & Hkf & _ & Hpost). rewrite Hmd in Hrun.
  cbn [mbind res_mbind res_bind] in Hrun.
  pose proof (file_pre doc m0 σ0 data Hnd Hb Hlocs) as Hpre.
  destruct (sim_post_inv _ _ _ _ _ Hpre Hpost) as [Hnd1 Hb1].
  destruct (adopt_spec data m0 m1 Hvdata Hkf) as [Hadopt Hvm1].
  specialize (Hvm1 Hvm).
  destruct (IH (Run m1 σ2 (ld0 ++ [data])) Hvm1 Hnd1 Hb1 Hrun)
    as (datas & Hld & Hlen & Hle & Hsub & Hold & Hstab & Hnew).
  cbn [store merged loaded] in *.
  destruct Hpost as (Hlen2 & Hmono & Hsub1 & _ & Hframe & _).
  rewrite length_app in Hlen2.
  assert (Hdata_ge : ∀ l, l ∈ locs_of data → (length σ0 ≤ l < length σ2)%nat).
  { intros l. rewrite Hlocs, elem_of_seq. lia. }
  assert (Hm0_lt : ∀ l, l ∈ locs_of m0 → (l < length σ0)%nat).
  { by apply Forall_forall. }
  assert (Hkeep : ∀ l, (l < length σ2)%nat → l ∉ locs_of m1 →
                       (store r) !! l = (σ0 ++ mets doc) !! l).
  { intros l Hl Hn. rewrite Hold by done. by apply Hframe. }
  exists (data :: datas). split_and!.
  - by rewrite Hld, <-(assoc (++)).
  - simpl. by rewrite Hlen.
  - lia.
  - intros l [[Hd|?]%Hsub1|?]%Hsub; [|by left|right; lia].
    right. apply Hdata_ge in Hd. lia.
  - intros l Hl Hn. rewrite Hkeep; [by apply lookup_app_l|lia|].
    intros [Hd%Hdata_ge|?]%Hsub1; [lia|done].
  - intros m e l0 Hl0. apply Hstab. by rewrite Hadopt, Hl0.
  - intros i doc' data' m e Hi Hd.
    assert (Hdoc : lookup2 m e doc = (λ l, (σ0 ++ mets doc) !!! l) <$> lookup2 m e data).
    { by rewrite <-lookup2_vals, Hval. }
    destruct i as [|i]; simpl in Hi, Hd.
    + injection Hi as <-. injection Hd as <-. rewrite Hdoc.
      destruct (lookup2 m e data) as [l|] eqn:Hl; [|done].
      cbn [fmap option_fmap option_map]. exists l. split; [done|].
      rewrite take_0. assert (Hld' := locs_of_lookup2 m e data l Hl).
      destruct (lookup2 m e m0) as [l0|] eqn:Hl0.
      * rewrite decide_False by (by intros [? _]).
        rewrite Hkeep; [apply lookup_bound; rewrite length_app| |].
        -- apply Hdata_ge in Hld'. lia.
        -- apply Hdata_ge in Hld'. lia.
        -- intros (m' & e' & Hl')%(locs_of_elem m1 l Hvm1).
           rewrite Hadopt in Hl'.
           destruct (lookup2 m' e' m0) as [a|] eqn:Ha.
           ++ injection Hl' as ->. apply locs_of_lookup2, Hm0_lt in Ha.
              apply Hdata_ge in Hld'. lia.
           ++ destruct (lookup2_inj data m e m' e' l) as [-> ->]; [|done..|congruence].
              rewrite Hlocs. apply NoDup_seq.
      * rewrite decide_True by done. apply Hstab. by rewrite Hadopt, Hl0.
    + specialize (Hnew i doc' data' m e Hi Hd).
      destruct (lookup2 m e doc') as [s|]; [|done].
      destruct Hnew as (l & Hl & Hcase). exists l. split; [done|].
      rewrite firstn_cons, occurrences_cons.
      rewrite Hadopt in Hcase. rewrite Hdoc.
      destruct (lookup2 m e m0) as [l0|], (lookup2 m e data) as [l1|];
        cbn [fmap option_fmap option_map] in *;
        repeat case_decide; try done; intuition congruence.
Qed.

(** ** The value of a successful merge *)

Lemma merged_entry_lookup a l k :
  merged_entry a l !! k =
    if decide (k ∈ FIELDS) then Some (total k (a :: l)) else a !! k.
Proof.
  unfold merged_entry. rewrite lookup_union, sum_metrics_lookup.
  case_decide; [|by rewrite (left_id None _)].
  by destruct (a !! k).
Qed.

Lemma fold_occ_merged_entry a l :
  complete a → Forall complete l →
  fold_occ add (Some a) l = Ok (Some (merged_entry a l)).
Proof.
  intros Ha Hl. destruct (fold_occ_complete a l Ha Hl) as (r & -> & _ & Hlk).
  do 2 f_equal. apply map_eq. intros k.
  rewrite Hlk, merged_entry_lookup. case_decide; [|done].
  simpl. f_equal.
Qed.

Lemma all_metrics_lookup2 (P : metrics → Prop) doc m e s :
  all_metrics P doc → lookup2 m e doc = Some s → P s.
Proof.
  unfold all_metrics, lookup2. rewrite Forall_forall. intros Hall.
  destruct (d_get m doc) as [inner|] eqn:Hm; [simpl|done].
  intros He%d_get_elem_of. apply d_get_elem_of, Hall in Hm.
  rewrite Forall_forall in Hm. apply (Hm _ He).
Qed.

Lemma all_metrics_intro (P : metrics → Prop) doc :
  valid_doc doc → (∀ m e s, lookup2 m e doc = Some s → P s) →
  all_metrics P doc.
Proof.
  intros [Hv Hv2] H. apply Forall_forall. intros [m inner] Hin.
  apply Forall_forall. intros [e s] He. simpl in *. apply (H m e).
  unfold lookup2. rewrite (elem_of_d_get m inner doc Hv Hin). simpl.
  apply elem_of_d_get; [|done]. rewrite Forall_forall in Hv2.
  apply (Hv2 _ Hin).
Qed.

Lemma occurrences_Forall (P : metrics → Prop) m e docs :
  Forall (all_metrics P) docs → Forall P (occurrences m e docs).
Proof.
  intros H. apply Forall_forall. intros s (doc & Hd & Hl)%list_elem_of_omap.
  rewrite Forall_forall in H. by apply (all_metrics_lookup2 P doc m e s); auto.
Qed.

Lemma occurrences_app {V} m e (xs ys : list (pydict (pydict V))) :
  occurrences m e (xs ++ ys) = occurrences m e xs ++ occurrences m e ys.
Proof. apply omap_app. Qed.

(** What [merge_loc_histories] returns, key by key. *)
Lemma merge_result_spec files (σ : heap) :
  Forall valid_doc files →
  match merge_result files σ with
  | Ok r =>
      valid_doc r ∧
      (∀ m e, fold_occ add None (occurrences m e files) = Ok (lookup2 m e r)) ∧
      (∀ m, d_get m r = None ↔ Forall (λ d, d_get m d = None) files)
  | Raise x => ∃ m e, fold_occ add None (occurrences m e files) = Raise x
  end.
Proof.
  intros Hv. rewrite merge_result_copy. unfold merge_copy.
  pose proof (merge_docs_with_spec add files [] Hv) as H.
  destruct (merge_docs_with add files []) as [r|x]; [|done].
  destruct H as (Hs & Hm & Hval). split_and!; [|done|].
  - apply Hval. split; [apply NoDup_nil_2 | apply Forall_nil_2].
  - intros m. rewrite Hm. simpl. tauto.
Qed.

Lemma merge_result_complete files (σ : heap) :
  Forall complete_doc files →
  ∃ r, merge_result files σ = Ok r ∧ complete_doc r ∧
       (∀ m e, lookup2 m e r =
               match occurrences m e files with
               | [] => None
               | a :: l => Some (merged_entry a l)
               end) ∧
       (∀ m, d_get m r = None ↔ Forall (λ d, d_get m d = None) files).
Proof.
  intros Hc.
  assert (Hv : Forall valid_doc files).
  { eapply Forall_impl; [exact Hc|]. by intros ? [? _]. }
  assert (Hcomp : ∀ m e, Forall complete (occurrences m e files)).
  { intros m e. apply occurrences_Forall.
    eapply Forall_impl; [exact Hc|]. by intros ? [_ ?]. }
  assert (Hfold : ∀ m e, fold_occ add None (occurrences m e files) =
                         Ok (match occurrences m e files with
                             | [] => None
                             | a :: l => Some (merged_entry a l)
                             end)).
  { intros m e. specialize (Hcomp m e).
    destruct (occurrences m e files) as [|a l]; [done|].
    apply Forall_cons in Hcomp as [Ha Hl]. by apply fold_occ_merged_entry. }
  pose proof (merge_result_spec files σ Hv) as H.
  destruct (merge_result files σ) as [r|x].
  - destruct H as (Hvr & Hs & Hm). exists r.
    assert (Hlk : ∀ m e, lookup2 m e r =
                         match occurrences m e files with
                         | [] => None
                         | a :: l => Some (merged_entry a l)
                         end).
    { intros m e. specialize (Hs m e). rewrite Hfold in Hs. by injection Hs. }
    split_and!; [done| |done..]. split; [done|].
    apply all_metrics_intro; [done|]. intros m e s. rewrite Hlk.
    specialize (Hcomp m e). destruct (occurrences m e files) as [|a l]; [done|].
    intros [= <-]. apply Forall_forall. intros f Hf.
    rewrite merged_entry_lookup, decide_True by done. eauto.
  - destruct H as (m & e & Hr). by rewrite Hfold in Hr.
Qed.

(** ** Order and grouping (C1) *)

Lemma equiv_occ_Permutation l l' : l ≡ₚ l' → equiv_occ l l'.
Proof.
  intros Hp. split.
  - split; intros ->; [by apply Permutation_nil_l in Hp | by apply Permutation_nil_r in Hp].
  - intros f _. by apply total_Permutation.
Qed.

Lemma total_cons f s l : total f (s :: l) = s !!! f + total f l.
Proof. done. Qed.

Lemma total_merged_entry f a l :
  f ∈ FIELDS → merged_entry a l !!! f = total f (a :: l).
Proof.
  intros Hf. apply lookup_total_correct.
  by rewrite merged_entry_lookup, decide_True.
Qed.

Lemma merge_result_agree docs1 docs2 (σ1 σ2 : heap) :
  Forall complete_doc docs1 → Forall complete_doc docs2 →
  (∀ m, Forall (λ d, d_get m d = None) docs1
        ↔ Forall (λ d, d_get m d = None) docs2) →
  (∀ m e, equiv_occ (occurrences m e docs1) (occurrences m e docs2)) →
  ∃ r1 r2,
    merge_result docs1 σ1 = Ok r1 ∧ merge_result docs2 σ2 = Ok r2 ∧
    same_counters r1 r2 ∧
    (Forall (all_metrics metric_set) docs1 →
     Forall (all_metrics metric_set) docs2 → same_history r1 r2).
Proof.
  intros Hc1 Hc2 Hmonths Hocc.
  destruct (merge_result_complete docs1 σ1 Hc1) as (r1 & Hr1 & _ & Hl1 & Hm1).
  destruct (merge_result_complete docs2 σ2 Hc2) as (r2 & Hr2 & _ & Hl2 & Hm2).
  exists r1, r2. split_and!; [done..| |].
  - intros m. split.
    + rewrite <-!not_eq_None_Some, Hm1, Hm2, Hmonths. done.
    + intros e. rewrite Hl1, Hl2. destruct (Hocc m e) as [Hnil Htot].
      destruct (occurrences m e docs1) as [|a l],
               (occurrences m e docs2) as [|a' l']; try done.
      * by destruct Hnil as [Hnil _]; specialize (Hnil eq_refl).
      * by destruct Hnil as [_ Hnil]; specialize (Hnil eq_refl).
      * intros f Hf. rewrite !merged_entry_lookup, !decide_True by done.
        f_equal. by apply Htot.
  - intros He1 He2 m. split.
    + rewrite <-!not_eq_None_Some, Hm1, Hm2, Hmonths. done.
    + intros e. rewrite Hl1, Hl2. destruct (Hocc m e) as [Hnil Htot].
      pose proof (occurrences_Forall metric_set m e docs1 He1) as Ho1.
      pose proof (occurrences_Forall metric_set m e docs2 He2) as Ho2.
      destruct (occurrences m e docs1) as [|a l],
               (occurrences m e docs2) as [|a' l']; try done.
      * by destruct Hnil as [Hnil _]; specialize (Hnil eq_refl).
      * by destruct Hnil as [_ Hnil]; specialize (Hnil eq_refl).
      * apply Forall_cons in Ho1 as [Ha _]. apply Forall_cons in Ho2 as [Ha' _].
        f_equal. apply map_eq. intros k. rewrite !merged_entry_lookup.
        case_decide as Hk; [f_equal; by apply Htot|].
        transitivity (@None Z); [|symmetry]; apply eq_None_not_Some.
        -- by rewrite (metric_set_lookup a k Ha).
        -- by rewrite (metric_set_lookup a' k Ha').
Qed.

Lemma occurrences_singleton m e (sub : document) :
  occurrences m e [sub] = option_list (lookup2 m e sub).
Proof. unfold occurrences. simpl. by destruct (lookup2 m e sub). Qed.

(** Feeding the result of a sub-merge back in, in place of its inputs. *)
Lemma regroup_occ m e xs ys zs (sub : document) :
  lookup2 m e sub = match occurrences m e ys with
                    | [] => None
                    | a :: l => Some (merged_entry a l)
                    end →
  equiv_occ (occurrences m e (xs ++ ys ++ zs))
            (occurrences m e (xs ++ sub :: zs)).
Proof.
  intros Hsub.
  replace (xs ++ sub :: zs) with (xs ++ [sub] ++ zs) by done.
  rewrite !occurrences_app, occurrences_singleton, Hsub.
  destruct (occurrences m e ys) as [|a l]; [split; done|].
  change (option_list (Some (merged_entry a l))) with [merged_entry a l].
  split.
  - split; intros H%app_eq_nil; destruct H as [-> H]; done.
  - intros f Hf. rewrite !total_app, (total_cons f (merged_entry a l)).
    rewrite (total_merged_entry f a l Hf).
    change (total f []) with 0. lia.
Qed.

(** When the occurrences of every pair add up to the same counters and
    start with the same further keys, the results are equal. *)
Lemma merge_result_same docs1 docs2 (σ1 σ2 : heap) :
  Forall complete_doc docs1 → Forall complete_doc docs2 →
  (∀ m, Forall (λ d, d_get m d = None) docs1
        ↔ Forall (λ d, d_get m d = None) docs2) →
  (∀ m e, equiv_occ (occurrences m e docs1) (occurrences m e docs2)) →
  (∀ m e, same_first (occurrences m e docs1) (occurrences m e docs2)) →
  ∃ r1 r2,
    merge_result docs1 σ1 = Ok r1 ∧ merge_result docs2 σ2 = Ok r2 ∧
    same_history r1 r2.
Proof.
  intros Hc1 Hc2 Hmonths Hocc Hfirst.
  destruct (merge_result_complete docs1 σ1 Hc1) as (r1 & Hr1 & _ & Hl1 & Hm1).
  destruct (merge_result_complete docs2 σ2 Hc2) as (r2 & Hr2 & _ & Hl2 & Hm2).
  exists r1, r2. split_and!; [done..|]. intros m. split.
  - rewrite <-!not_eq_None_Some, Hm1, Hm2, Hmonths. done.
  - intros e. rewrite Hl1, Hl2. destruct (Hocc m e) as [Hnil Htot].
    specialize (Hfirst m e).
    destruct (occurrences m e docs1) as [|a l],
             (occurrences m e docs2) as [|a' l']; try done.
    + by destruct Hnil as [Hnil _]; specialize (Hnil eq_refl).
    + by destruct Hnil as [_ Hnil]; specialize (Hnil eq_refl).
    + f_equal. apply map_eq. intros k. rewrite !merged_entry_lookup.
      case_decide as Hk; [f_equal; by apply Htot|]. by apply Hfirst.
Qed.

Lemma regroup_first m e xs ys zs (sub : document) :
  lookup2 m e sub = match occurrences m e ys with
                    | [] => None
                    | a :: l => Some (merged_entry a l)
                    end →
  same_first (occurrences m e (xs ++ ys ++ zs))
             (occurrences m e (xs ++ sub :: zs)).
Proof.
  intros Hsub k Hk.
  replace (xs ++ sub :: zs) with (xs ++ [sub] ++ zs) by done.
  rewrite !occurrences_app, occurrences_singleton, Hsub.
  destruct (occurrences m e xs) as [|x ox]; [|done].
  destruct (occurrences m e ys) as [|a l]; [done|]. simpl.
  by rewrite merged_entry_lookup, decide_False.
Qed.

(** C1, as the code has it. For inputs whose dicts have distinct keys and
    whose MetricSets carry the six fields, [merge_loc_histories] returns a
    history [r], and
    (1) for every permutation of the inputs the result has the months and
    the (month, extension) pairs of [r] and the values of [r] in the six
    fields; it is [r], as a nested mapping, when the MetricSets carry no
    key beyond the six fields;
    (2) when any run [ys] of consecutive inputs is replaced by the result
    of merging [ys] alone, the result is [r], as a nested mapping; with
    [xs = []] and [ys = [a; b]] this is
    [merge([a,b,c]) == merge([merge([a,b]), c])].
    The stores in which the calls run are arbitrary. *)
Theorem merge_order_and_grouping (docs : list document) (σ : heap) :
  Forall complete_doc docs →
  ∃ r, merge_result docs σ = Ok r ∧
    (∀ docs' σ', docs' ≡ₚ docs →
       ∃ r', merge_result docs' σ' = Ok r' ∧ same_counters r r' ∧
             (Forall well_formed docs → same_history r r')) ∧
    (∀ xs ys zs σ1 σ2, docs = xs ++ ys ++ zs →
       ∃ sub r', merge_result ys σ1 = Ok sub ∧
                 merge_result (xs ++ sub :: zs) σ2 = Ok r' ∧
                 same_history r r').
Proof.
  intros Hc.
  destruct (merge_result_complete docs σ Hc) as (r & Hr & _). exists r.
  assert (Hms : ∀ l, Forall well_formed l → Forall (all_metrics metric_set) l).
  { intros l Hl. eapply Forall_impl; [exact Hl|]. by intros ? [_ ?]. }
  split_and!; [done| |].
  - intros docs' σ' Hp.
    destruct (merge_result_agree docs docs' σ σ') as (r1 & r' & Hr1 & Hr' & Hsc & Hsh).
    + done.
    + by rewrite Hp.
    + intros m. by rewrite Hp.
    + intros m e. apply equiv_occ_Permutation. unfold occurrences. by rewrite Hp.
    + rewrite Hr in Hr1. injection Hr1 as <-. exists r'. split_and!; [done..|].
      intros Hwf. apply Hsh; apply Hms; [done | by rewrite Hp].
  - intros xs ys zs σ1 σ2 ->.
    apply Forall_app in Hc as [Hcx Hc]. apply Forall_app in Hc as [Hcy Hcz].
    destruct (merge_result_complete ys σ1 Hcy) as (sub & Hsub & Hcsub & Hlsub & Hmsub).
    assert (Hc2 : Forall complete_doc (xs ++ sub :: zs)).
    { apply Forall_app. split; [done|]. by apply Forall_cons. }
    destruct (merge_result_same (xs ++ ys ++ zs) (xs ++ sub :: zs) σ σ2)
      as (r1 & r' & Hr1 & Hr' & Hsh).
    + rewrite !Forall_app. done.
    + done.
    + intros m. rewrite !Forall_app, Forall_cons, Hmsub. done.
    + intros m e. by apply regroup_occ.
    + intros m e. by apply regroup_first.
    + rewrite Hr in Hr1. injection Hr1 as <-. by exists sub, r'.
Qed.

(** C4. For a history [H] whose MetricSets carry the six fields,
    [merge([H, H])] returns a history with the months and the
    (month, extension) keys of [H] in which each of the six fields is twice
    its value in [H]. *)
Theorem merge_twice_doubles (H : document) (σ : heap) :
  valid_doc H → all_metrics complete H →
  ∃ r, merge_result [H; H] σ = Ok r ∧
       (∀ m, is_Some (d_get m r) ↔ is_Some (d_get m H)) ∧
       (∀ m e, is_Some (lookup2 m e r) ↔ is_Some (lookup2 m e H)) ∧
       (∀ m e s, lookup2 m e H = Some s →
          ∃ s', lookup2 m e r = Some s' ∧
                ∀ f, f ∈ FIELDS → s' !! f = (λ x, 2 * x) <$> s !! f).
Proof.
  intros Hv Hc.
  destruct (merge_result_complete [H; H] σ) as (r & Hr & _ & Hl & Hm).
  { assert (complete_doc H) by (by split). by repeat apply Forall_cons_2. }
  assert (Hocc : ∀ m e, occurrences m e [H; H] =
                        match lookup2 m e H with Some s => [s; s] | None => [] end).
  { intros m e. unfold occurrences. simpl. by destruct (lookup2 m e H). }
  exists r. split_and!; [done| | |].
  - intros m. rewrite <-!not_eq_None_Some, Hm, !Forall_cons, Forall_nil. tauto.
  - intros m e. rewrite Hl, Hocc. destruct (lookup2 m e H); [|done].
    split; eauto.
  - intros m e s Hs. rewrite Hl, Hocc, Hs. eexists. split; [done|].
    intros f Hf. rewrite merged_entry_lookup, decide_True by done.
    destruct (complete_lookup s f (all_metrics_lookup2 _ _ _ _ _ Hc Hs) Hf)
      as [x Hx].
    rewrite Hx, !total_cons, (lookup_total_correct _ _ _ Hx).
    change (total f []) with 0. cbn [fmap option_fmap option_map].
    f_equal. lia.
Qed.

Lemma add_fields_copy_other fs a s a' k :
  add_fields_copy fs a s = Ok a' → k ∉ fs → a' !! k = a !! k.
Proof.
  revert a. induction fs as [|f fs IH]; intros a.
  { by intros [= ->]. }
  rewrite add_fields_copy_cons, not_elem_of_cons.
  destruct (add_field_copy_cases f a s) as [(x & y & _ & _ & ->)|[_ ->]];
    res_simpl; [|done].
  intros Hok [Hne Hk]. rewrite (IH _ Hok Hk). by apply lookup_insert_ne.
Qed.

Lemma fold_occ_None_cons a l :
  fold_occ add None (a :: l) = fold_occ add (Some a) l.
Proof. done. Qed.

Lemma fold_occ_Ok_inv a l o :
  fold_occ add (Some a) l = Ok o →
  o = Some (if decide (l = []) then a else merged_entry a l) ∧
  (l ≠ [] → complete a ∧ Forall complete l).
Proof.
  intros Hok. destruct l as [|s l].
  { injection Hok as <-. by rewrite decide_True. }
  rewrite decide_False by done.
  destruct (decide (complete a)) as [Ha|Ha];
    [destruct (decide (Forall complete (s :: l))) as [Hl|Hl]|].
  - rewrite (fold_occ_merged_entry a (s :: l) Ha Hl) in Hok.
    injection Hok as <-. done.
  - apply not_Forall_Exists in Hl; [|apply _].
    destruct (fold_occ_Raise a (s :: l)) as (f & _ & Hr); [done|by right|].
    by rewrite Hr in Hok.
  - destruct (fold_occ_Raise a (s :: l)) as (f & _ & Hr); [done|by left|].
    by rewrite Hr in Hok.
Qed.

(** C9. When [merge_loc_histories] returns, an entry of the result has the
    keys other than the six fields, and their values, of the first input in
    which its (month, extension) pair occurs; later occurrences contribute to
    the six fields only, which hold the sums. *)
Theorem merge_extra_keys_from_first (files : list document) (σ : heap)
    (r : document) :
  Forall valid_doc files → merge_result files σ = Ok r →
  ∀ m e s, lookup2 m e r = Some s →
    ∃ a l, occurrences m e files = a :: l ∧
           (∀ k, k ∉ FIELDS → s !! k = a !! k) ∧
           (∀ k, k ∈ FIELDS →
                 s !! k = if decide (l = []) then a !! k
                          else Some (total k (a :: l))).
Proof.
  intros Hv Hr m e s Hs. pose proof (merge_result_spec files σ Hv) as H.
  rewrite Hr in H. destruct H as (_ & Hfold & _). specialize (Hfold m e).
  rewrite Hs in Hfold. destruct (occurrences m e files) as [|a l]; [done|].
  exists a, l. split; [done|]. rewrite fold_occ_None_cons in Hfold.
  apply fold_occ_Ok_inv in Hfold as [[= ->] _].
  split; intros k Hk; case_decide; try done;
    by rewrite merged_entry_lookup, ?decide_True, ?decide_False by done.
Qed.

(** C2, as the code has it. A call of the merge utility fails exactly when
    some (month, extension) pair occurs in two or more inputs and one of its
    MetricSets lacks one of the six fields: [main] then ends with the
    KeyError of a field name before the output file is opened. In every other
    case, also when a MetricSet that occurs in one input only lacks a field,
    the merged document is written. *)
Theorem merge_fails_on_shared_incomplete (files : list document) (σ : heap) :
  Forall valid_doc files →
  ((∃ m e, (2 ≤ length (occurrences m e files))%nat ∧
           Exists (λ s, ¬ complete s) (occurrences m e files)) →
   ∃ f, f ∈ FIELDS ∧ main files σ = Crashed (KeyError f)) ∧
  ((∀ m e, (2 ≤ length (occurrences m e files))%nat →
           Forall complete (occurrences m e files)) →
   ∃ r, main files σ = Wrote r).
Proof.
  intros Hv. pose proof (merge_result_spec files σ Hv) as H. unfold main.
  split.
  - intros (m & e & Hlen & Hex).
    destruct (merge_result files σ) as [r|x].
    + destruct H as (_ & Hfold & _). specialize (Hfold m e).
      destruct (occurrences m e files) as [|a [|s l]]; simpl in Hlen; [lia..|].
      rewrite fold_occ_None_cons in Hfold.
      apply fold_occ_Ok_inv in Hfold as [_ Hc].
      destruct Hc as [Ha Hl]; [done|].
      apply Exists_cons in Hex as [?|Hex]; [done|].
      apply Exists_exists in Hex as (s' & Hin & Hn).
      rewrite Forall_forall in Hl. by destruct Hn; apply Hl.
    + destruct H as (m' & e' & (f & Hf & ->)%fold_occ_error). eauto.
  - intros Hall. destruct (merge_result files σ) as [r|x]; [eauto|].
    destruct H as (m & e & Hr). specialize (Hall m e).
    destruct (occurrences m e files) as [|a [|s l]]; [done..|].
    apply Forall_cons in Hall as [Ha Hl]; [|simpl; lia].
    rewrite fold_occ_None_cons in Hr.
    by rewrite (fold_occ_merged_entry a (s :: l) Ha Hl) in Hr.
Qed.

(** C3, as the code has it. On first encounter of a (month, extension) pair
    the accumulator entry is bound to the very MetricSet object that
    [json.load] created for that input (no copy), and later occurrences are
    summed into this object. After [merge_loc_histories] returns, for the
    object [l] that input [i] holds at a pair: if no earlier input has the
    pair, the returned history holds [l] itself at the pair; otherwise [l]
    still has the content [s] it was loaded with. Objects that existed before
    the call are unchanged. *)
Theorem merge_shares_first_occurrence (files : list document) (σ : heap)
    (r : run) :
  Forall valid_doc files → merge_loc_histories files σ = Ok r →
  length (loaded r) = length files ∧
  (∀ l, (l < length σ)%nat → store r !! l = σ !! l) ∧
  ∀ i doc data m e,
    files !! i = Some doc → loaded r !! i = Some data →
    match lookup2 m e doc with
    | None => lookup2 m e data = None
    | Some s =>
        ∃ l, lookup2 m e data = Some l ∧
             if decide (occurrences m e (take i files) = [])
             then lookup2 m e (merged r) = Some l
             else store r !! l = Some s
    end.
Proof.
  intros Hv Hrun. unfold merge_loc_histories in Hrun.
  destruct (merge_files_frame files (Run [] σ []) r Hv)
    as (datas & Hld & Hlen & _ & _ & Hold & _ & Hnew); cbn [merged store loaded].
  { split; [apply NoDup_nil_2 | apply Forall_nil_2]. }
  { apply NoDup_nil_2. }
  { apply Forall_nil_2. }
  { done. }
  cbn [merged store loaded] in *. simpl in Hld. subst datas.
  split_and!; [done| |].
  - intros l Hl. apply Hold; [done|]. apply not_elem_of_nil.
  - intros i doc data m e Hi Hd. specialize (Hnew i doc data m e Hi Hd).
    destruct (lookup2 m e doc) as [s|]; [|done].
    destruct Hnew as (l & Hl & Hcase). exists l. split; [done|].
    repeat case_decide; try done; intuition congruence.
Qed.

(** ** Concrete runs

    Two exports of one month with one extension each. *)
Example merge_scenario :
  main [jan_a; jan_b] [] = Wrote [("2024-01", [("py", counters 15 2 15 0 2 2)])].
Proof. vm_compute. reflexivity. Qed.

(** A single input whose MetricSet has no [repos] field: nothing reads the
    MetricSet, and the document is written as it is. *)
Lemma merge_single_incomplete_is_written :
  (∃ m e s, lookup2 m e jan_no_repos = Some s ∧ s !! "repos" = None) ∧
  main [jan_no_repos] [] = Wrote jan_no_repos.
Proof.
  split.
  - exists "2024-01", "py", (delete "repos" (counters 5 1 5 0 1 1)).
    split; [reflexivity | by vm_compute].
  - by vm_compute.
Qed.

(** After merging [jan_a] and [jan_b] the entry of the result is the object
    that was loaded for [jan_a], which now holds the sums: the first input
    no longer reads as the document it was loaded from. *)
Lemma merge_mutates_first_input :
  ∃ r, merge_loc_histories [jan_a; jan_b] [] = Ok r ∧
       lookup2 "2024-01" "py" (merged r) = Some 0%nat ∧
       loaded r !! 0%nat = Some [("2024-01", [("py", 0%nat)])] ∧
       store r !! 0%nat = Some (counters 15 2 15 0 2 2) ∧
       ¬ inputs_unchanged [jan_a; jan_b] r.
Proof.
  eexists. split; [by vm_compute|]. split_and!; [done..|].
  intros H. inversion H as [|???? Heq _]; subst. vm_compute in Heq.
  discriminate Heq.
Qed.

(** With a key beyond the six fields the order of the inputs shows in the
    result: the key [tag] of [jan_tagged] is in the merge of
    [jan_tagged; jan_b] and not in the merge of [jan_b; jan_tagged]. *)
Lemma merge_order_shows_in_extra_keys :
  let r := [("2024-01", [("py", <["tag" := 7]> (counters 15 2 15 0 2 2))])] in
  let r' := [("2024-01", [("py", counters 15 2 15 0 2 2)])] in
  Forall complete_doc [jan_tagged; jan_b] ∧
  [jan_b; jan_tagged] ≡ₚ [jan_tagged; jan_b] ∧
  merge_result [jan_tagged; jan_b] [] = Ok r ∧
  merge_result [jan_b; jan_tagged] [] = Ok r' ∧
  ¬ same_history r r'.
Proof.
  intros r r'.
  split; [apply (bool_decide_unpack _); by vm_compute|].
  split; [apply Permutation_swap|].
  split; [vm_compute; reflexivity|]. split; [vm_compute; reflexivity|].
  intros H. destruct (H "2024-01") as [_ He]. specialize (He "py").
  apply (f_equal (λ o, o ≫= (.!! "tag"))) in He. by vm_compute in He.
Qed.

(** The theorems at these inputs. *)
Lemma merge_order_and_grouping_witness :
  ∃ r, merge_result [jan_tagged; jan_b] [] = Ok r ∧
    (∀ docs' σ', docs' ≡ₚ [jan_tagged; jan_b] →
       ∃ r', merge_result docs' σ' = Ok r' ∧ same_counters r r' ∧
             (Forall well_formed [jan_tagged; jan_b] → same_history r r')) ∧
    (∀ xs ys zs σ1 σ2, [jan_tagged; jan_b] = xs ++ ys ++ zs →
       ∃ sub r', merge_result ys σ1 = Ok sub ∧
                 merge_result (xs ++ sub :: zs) σ2 = Ok r' ∧
                 same_history r r').
Proof.
  apply (merge_order_and_grouping [jan_tagged; jan_b] []).
  apply (bool_decide_unpack _). by vm_compute.
Defined.
Lemma merge_twice_doubles_witness :
  ∃ r, merge_result [jan_a; jan_a] [] = Ok r ∧
       (∀ m, is_Some (d_get m r) ↔ is_Some (d_get m jan_a)) ∧
       (∀ m e, is_Some (lookup2 m e r) ↔ is_Some (lookup2 m e jan_a)) ∧
       (∀ m e s, lookup2 m e jan_a = Some s →
          ∃ s', lookup2 m e r = Some s' ∧
                ∀ f, f ∈ FIELDS → s' !! f = (λ x, 2 * x) <$> s !! f).
Proof.
  apply (merge_twice_doubles jan_a []).
  - apply (bool_decide_unpack _). by vm_compute.
  - apply (bool_decide_unpack _). by vm_compute.
Defined.

Lemma merge_extra_keys_from_first_witness :
  let s := <["tag" := 7]> (counters 15 2 15 0 2 2) in
  ∃ a l, occurrences "2024-01" "py" [jan_tagged; jan_b] = a :: l ∧
         (∀ k, k ∉ FIELDS → s !! k = a !! k) ∧
         (∀ k, k ∈ FIELDS →
               s !! k = if decide (l = []) then a !! k
                        else Some (total k (a :: l))).
Proof.
  apply (merge_extra_keys_from_first [jan_tagged; jan_b] []
           [("2024-01", [("py", <["tag" := 7]> (counters 15 2 15 0 2 2))])]).
  - apply (bool_decide_unpack _). by vm_compute.
  - by vm_compute.
  - reflexivity.
Defined.

Lemma merge_fails_on_shared_incomplete_witness :
  ((∃ m e, (2 ≤ length (occurrences m e [jan_a; jan_no_repos]))%nat ∧
           Exists (λ s, ¬ complete s) (occurrences m e [jan_a; jan_no_repos])) →
   ∃ f, f ∈ FIELDS ∧ main [jan_a; jan_no_repos] [] = Crashed (KeyError f)) ∧
  ((∀ m e, (2 ≤ length (occurrences m e [jan_a; jan_no_repos]))%nat →
           Forall complete (occurrences m e [jan_a; jan_no_repos])) →
   ∃ r, main [jan_a; jan_no_repos] [] = Wrote r).
Proof.
  apply (merge_fails_on_shared_incomplete [jan_a; jan_no_repos] []).
  apply (bool_decide_unpack _). by vm_compute.
Defined.

Lemma merge_shares_first_occurrence_witness :
  let r := Run [("2024-01", [("py", 0%nat)])]
               [counters 15 2 15 0 2 2; counters 5 1 5 0 1 1]
               [[("2024-01", [("py", 0%nat)])]; [("2024-01", [("py", 1%nat)])]] in
  length (loaded r) = length [jan_a; jan_b] ∧
  (∀ l, (l < length (@nil metrics))%nat → store r !! l = (@nil metrics) !! l) ∧
  ∀ i doc data m e,
    [jan_a; jan_b] !! i = Some doc → loaded r !! i = Some data →
    match lookup2 m e doc with
    | None => lookup2 m e data = None
    | Some s =>
        ∃ l, lookup2 m e data = Some l ∧
             if decide (occurrences m e (take i [jan_a; jan_b]) = [])
             then lookup2 m e (merged r) = Some l
             else store r !! l = Some s
    end.
Proof.
  apply (merge_shares_first_occurrence [jan_a; jan_b] []).
  - apply (bool_decide_unpack _). by vm_compute.
  - by vm_compute.
Defined.

End MergeProps.

Module IdentityProps.
Import Identity.

(** ** The fragment of [re] *)

Lemma special_escaped c :
  c ∈ special → bool_decide (c = "b"%char) = false ∧ is_alnum c = false.
Proof.
  intros H. apply (bool_decide_pack _) in H.
  destruct c as [[] [] [] [] [] [] [] []]; vm_compute in H; try done;
    by vm_compute.
Qed.

Lemma lex_plain c s :
  c ∉ special → lex (String c s) = (TLit c ::.) <$> lex s.
Proof.
  intros H. apply (bool_decide_eq_false_2 _) in H.
  destruct c as [[] [] [] [] [] [] [] []]; vm_compute in H; try done;
    reflexivity.
Qed.

Lemma lex_escaped c s :
  c ∈ special → lex (String "\" (String c s)) = (TLit c ::.) <$> lex s.
Proof.
  intros [H1 H2]%special_escaped. cbn [lex]. by rewrite H1, H2.
Qed.

Abbreviation chars := String.list_ascii_of_string.

Lemma append_cons c s t : String c s +:+ t = String c (s +:+ t).
Proof. done. Qed.

(** An escaped text is read as the literals of the text. *)
Lemma lex_escape s rest :
  lex (re_escape s +:+ rest) = ((TLit <$> chars s) ++.) <$> lex rest.
Proof.
  induction s as [|c s IH].
  { change (lex rest = app [] <$> lex rest). by destruct (lex rest). }
  cbn [re_escape]. case_bool_decide as Hc.
  - rewrite !append_cons, (lex_escaped c _ Hc), IH.
    by destruct (lex rest).
  - rewrite append_cons, (lex_plain c _ Hc), IH. by destruct (lex rest).
Qed.

Lemma group_lit c ts :
  not_star ts → group (TLit c :: ts) = (One (Lit c) ::.) <$> group ts.
Proof. intros H. destruct ts as [|[] ts]; done. Qed.

Lemma group_lits cs ts :
  not_star ts →
  group ((TLit <$> cs) ++ ts) = (((One ∘ Lit) <$> cs) ++.) <$> group ts.
Proof.
  intros H. induction cs as [|c cs IH].
  { simpl. by destruct (group ts). }
  rewrite !fmap_cons. cbn [app]. rewrite group_lit.
  - rewrite IH. by destruct (group ts).
  - destruct cs; [done|]. by rewrite fmap_cons.
Qed.

Lemma parse_word_pattern s :
  parse (pattern (word_pattern s)) =
    Some (WordB :: ((One ∘ Lit) <$> chars s) ++ [WordB]).
Proof.
  unfold parse, word_pattern. cbn [pattern].
  change ("\b" +:+ re_escape s +:+ "\b")
    with (String "\" (String "b" (re_escape s +:+ "\b"))).
  cbn [lex]. rewrite lex_escape. simpl.
  destruct (chars s) as [|c cs] eqn:Hs; [done|].
  change (TLit c :: (TLit <$> cs) ++ [TWordB])
    with ((TLit <$> (c :: cs)) ++ [TWordB]).
  by rewrite group_lits.
Qed.

(** The other sources that [_build_patterns] makes from escaped text. *)
Lemma append_empty s : s +:+ "" = s.
Proof. induction s as [|c s IH]; [done|]. by rewrite append_cons, IH. Qed.

Lemma group_literals cs : group (TLit <$> cs) = Some ((One ∘ Lit) <$> cs).
Proof.
  rewrite <-(app_nil_r (TLit <$> cs)), group_lits by done.
  simpl. by rewrite app_nil_r.
Qed.

Lemma parse_escape s : parse (re_escape s) = Some ((One ∘ Lit) <$> chars s).
Proof.
  unfold parse. rewrite <-(append_empty (re_escape s)), lex_escape. simpl.
  rewrite app_nil_r. apply group_literals.
Qed.

Lemma parse_local_part s :
  parse (re_escape s +:+ "@.*") =
    Some (((One ∘ Lit) <$> chars s) ++ [One (Lit "@"); Many Dot]).
Proof.
  unfold parse. rewrite lex_escape. simpl. by rewrite group_lits.
Qed.

(** The no-reply source takes the login as it is. *)
Lemma lex_name_char c s :
  name_char c = true → lex (String c s) = (TLit c ::.) <$> lex s.
Proof.
  intros H.
  destruct c as [[] [] [] [] [] [] [] []]; vm_compute in H; try done;
    reflexivity.
Qed.

Lemma lex_account_name s rest :
  forallb name_char (chars s) = true →
  lex (s +:+ rest) = ((TLit <$> chars s) ++.) <$> lex rest.
Proof.
  induction s as [|c s IH].
  { intros _. change (lex rest = app [] <$> lex rest). by destruct (lex rest). }
  change (chars (String c s)) with (c :: chars s). cbn [forallb].
  intros [Hc Hs]%andb_prop.
  rewrite append_cons, (lex_name_char _ _ Hc), (IH Hs).
  by destruct (lex rest).
Qed.

Lemma parse_noreply s :
  forallb name_char (chars s) = true →
  is_Some (parse (s +:+ "@users.noreply.github.com")).
Proof.
  intros H. unfold parse. rewrite (lex_account_name _ _ H). simpl.
  rewrite group_lits by done. by eexists.
Qed.

(** ** Matching *)

Lemma ieq_refl c : ieq c c = true.
Proof. by apply bool_decide_eq_true. Qed.

Lemma match_lits s r prev t :
  match_here (((One ∘ Lit) <$> chars s) ++ r) prev (s +:+ t) =
    match_here r (last_or prev s) t.
Proof.
  revert prev. induction s as [|c s IH]; intros prev; [done|].
  simpl. by rewrite ieq_refl, IH.
Qed.

Lemma last_or_word prev s :
  word_at (last_or None s) = true → word_at (last_or prev s) = true.
Proof. by destruct s. Qed.

Lemma search_from_here r prev t :
  match_here r prev t = true → search_from r prev t = true.
Proof. intros H. destruct t; simpl; by rewrite H. Qed.

(** A text that starts and ends with a word character is found as a whole
    word at the start of a text in which a non-word character follows. *)
Lemma search_word_pattern re_beyond s t :
  word_at (head_char s) = true → word_at (last_or None s) = true →
  word_at (head_char t) = false →
  search re_beyond (word_pattern s) (s +:+ t) = true.
Proof.
  intros Hfirst Hlast Hnext. unfold search. rewrite parse_word_pattern.
  apply search_from_here. cbn [match_here].
  assert (Hhead : head_char (s +:+ t) = head_char s).
  { destruct s; [done|]. done. }
  unfold boundary at 1. rewrite Hhead, Hfirst. simpl.
  rewrite match_lits. cbn [match_here]. unfold boundary.
  by rewrite (last_or_word None s Hlast), Hnext.
Qed.

(** ** What the constructor returns *)

Lemma re_compile_fragment re_accepts source :
  is_Some (parse source) →
  re_compile re_accepts source = Some (Compiled source).
Proof. intros H. unfold re_compile. by rewrite bool_decide_true. Qed.

Lemma re_compile_inv re_accepts source p :
  re_compile re_accepts source = Some p → p = Compiled source.
Proof.
  unfold re_compile. repeat case_match; naive_solver.
Qed.

Lemma re_compile_word re_accepts s :
  re_compile re_accepts ("\b" +:+ re_escape s +:+ "\b") = Some (word_pattern s).
Proof.
  apply re_compile_fragment.
  change (is_Some (parse (pattern (word_pattern s)))).
  rewrite parse_word_pattern. eauto.
Qed.

Lemma re_compile_escape re_accepts s :
  re_compile re_accepts (re_escape s) = Some (Compiled (re_escape s)).
Proof. apply re_compile_fragment. rewrite parse_escape. eauto. Qed.

Lemma re_compile_local_part re_accepts s :
  re_compile re_accepts (re_escape s +:+ "@.*")
  = Some (Compiled (re_escape s +:+ "@.*")).
Proof. apply re_compile_fragment. rewrite parse_local_part. eauto. Qed.

Lemma add_name_parts_eq re_accepts name_parts patterns :
  add_name_parts re_accepts name_parts patterns =
    Some (patterns
          ++ (word_pattern <$>
                filter (λ part, (2 < String.length part)%nat) name_parts)).
Proof.
  revert patterns. induction name_parts as [|part rest IH]; intros patterns.
  { simpl. by rewrite app_nil_r. }
  cbn [add_name_parts]. rewrite filter_cons. case_bool_decide as Hlen.
  - rewrite decide_True by done. rewrite re_compile_word. cbn [mbind option_bind].
    rewrite IH, fmap_cons. by rewrite <-(assoc (++)).
  - rewrite decide_False by done. apply IH.
Qed.

(** The only source that [re.compile] can refuse is the no-reply source,
    into which line 61 puts the login as it is; when it compiles, the
    patterns are [built_patterns]. *)
Lemma build_patterns_eq re_accepts u :
  _build_patterns re_accepts u =
    (_ ← re_compile re_accepts (login u +:+ "@users.noreply.github.com");
     Some (built_patterns u)).
Proof.
  unfold _build_patterns, built_patterns.
  destruct (re_compile re_accepts (login u +:+ "@users.noreply.github.com"))
    as [p|] eqn:Hp.
  - apply re_compile_inv in Hp. subst p.
    repeat case_bool_decide;
      do 4 (rewrite ?re_compile_escape, ?re_compile_local_part,
              ?re_compile_word, ?add_name_parts_eq;
            cbn [mbind option_bind]);
      cbn [app]; by rewrite <-?(assoc (++)).
  - repeat case_bool_decide;
      by rewrite ?re_compile_escape, ?re_compile_local_part.
Qed.

Lemma new_matcher_eq re_accepts u :
  new_matcher re_accepts u =
    (_ ← re_compile re_accepts (login u +:+ "@users.noreply.github.com");
     Some (matcher_of u)).
Proof.
  unfold new_matcher. rewrite build_patterns_eq.
  by destruct (re_compile re_accepts _).
Qed.

Lemma new_matcher_inv re_accepts u self :
  new_matcher re_accepts u = Some self → self = matcher_of u.
Proof.
  rewrite new_matcher_eq. destruct (re_compile re_accepts _); naive_solver.
Qed.

(** For a login made of the characters of an account name the
    constructor returns. *)
Lemma new_matcher_account_name re_accepts u :
  account_name (login u) → new_matcher re_accepts u = Some (matcher_of u).
Proof.
  intros H. rewrite new_matcher_eq, re_compile_fragment; [done|].
  by apply parse_noreply.
Qed.

Lemma word_pattern_built u : word_pattern (login u) ∈ built_patterns u.
Proof.
  unfold built_patterns. repeat case_bool_decide;
    rewrite ?elem_of_app, ?elem_of_cons; tauto.
Qed.

(** C7, as the code has it. For every profile whose login starts and ends
    with a word character (a letter, a digit or the underscore), and for
    every email: when the constructor returns, the patterns match the
    author string whose display name is the login, since the whole-word
    login pattern matches at the start of the string, whatever the other
    patterns do; and the constructor can only raise for a login that is
    not made of the characters of an account name. *)
Theorem self_match (re_accepts : string → bool)
    (re_beyond : string → string → bool) (u : github_user)
    (commit_email : string) :
  word_at (head_char (login u)) = true →
  word_at (last_or None (login u)) = true →
  match new_matcher re_accepts u with
  | Some self => is_users_commit re_beyond self (login u) commit_email = true
  | None => ¬ account_name (login u)
  end.
Proof.
  intros Hfirst Hlast.
  destruct (new_matcher re_accepts u) as [self|] eqn:Hnew.
  - apply new_matcher_inv in Hnew. subst self.
    unfold is_users_commit. apply existsb_exists.
    exists (word_pattern (login u)). split.
    + apply list_elem_of_In. apply word_pattern_built.
    + by apply search_word_pattern.
  - intros Hl. by rewrite (new_matcher_account_name _ _ Hl) in Hnew.
Qed.

(** When [_build_patterns] returns, whatever the optional fields of the
    profile are, the list has the no-reply pattern and the whole-word
    login pattern, hence at least two elements; it returns for every
    login made of the characters of an account name. *)
Lemma build_patterns_at_least_two (re_accepts : string → bool)
    (u : github_user) :
  (∀ patterns, _build_patterns re_accepts u = Some patterns →
     (2 ≤ length patterns)%nat ∧
     Compiled (login u +:+ "@users.noreply.github.com") ∈ patterns ∧
     word_pattern (login u) ∈ patterns) ∧
  (account_name (login u) → is_Some (_build_patterns re_accepts u)).
Proof.
  rewrite build_patterns_eq. split.
  - intros patterns Hp.
    destruct (re_compile re_accepts _); [|done]. injection Hp as <-.
    unfold built_patterns. split_and!.
    + repeat case_bool_decide; rewrite ?length_app; simpl; lia.
    + repeat case_bool_decide; rewrite ?elem_of_app, ?elem_of_cons; tauto.
    + apply word_pattern_built.
  - intros Hl. rewrite re_compile_fragment; [by eexists|].
    by apply parse_noreply.
Qed.

(** C10 at the login [a(]. Line 61 puts the login into the no-reply
    source as it is, where lines 55, 58, 64, 69 and 74 escape what they
    put in. The source [a(@users.noreply.github.com] opens a group that
    is never closed: [re.compile] raises [re.error], [_build_patterns]
    returns no list and the constructor no matcher, whatever [re] does
    with the sources that the model leaves open. *)
Theorem unescaped_login_raises (re_accepts : string → bool) :
  _build_patterns re_accepts open_paren = None ∧
  new_matcher re_accepts open_paren = None ∧
  re_compile re_accepts ("\b" +:+ re_escape (login open_paren) +:+ "\b")
    = Some (word_pattern "a(").
Proof. split_and!; reflexivity. Qed.

(** ** A login that does not match itself

    For the login [dev-] the author string is [dev- <x@y.z>]. The whole-word
    pattern needs a word boundary after the hyphen, where a space follows:
    no boundary. The no-reply pattern does not occur in the string. *)
Lemma trailing_hyphen_no_match re_accepts re_beyond :
  new_matcher re_accepts trailing_hyphen = Some (matcher_of trailing_hyphen) ∧
  is_users_commit re_beyond (matcher_of trailing_hyphen) "dev-" "x@y.z" = false.
Proof. split; reflexivity. Qed.

(** Hence self-match does not hold of every non-empty login. *)
Lemma self_match_fails_for_trailing_hyphen :
  ¬ (∀ (re_accepts : string → bool) (re_beyond : string → string → bool)
       (u : github_user) (e : string),
       login u ≠ "" →
       ∃ self, new_matcher re_accepts u = Some self ∧
               is_users_commit re_beyond self (login u) e = true).
Proof.
  intros H.
  destruct (H (λ _, true) (λ _ _, true) trailing_hyphen "x@y.z")
    as (self & Hnew & Hmatch); [done|].
  destruct (trailing_hyphen_no_match (λ _, true) (λ _ _, true)) as [Hm Hno].
  rewrite Hm in Hnew. injection Hnew as <-.
  change (login trailing_hyphen) with "dev-" in Hmatch.
  by rewrite Hno in Hmatch.
Qed.

(** A login with a hyphen inside matches itself. *)
Lemma self_match_witness :
  match new_matcher (λ _, false) (GithubUser (Some "Ada Lovelace") "ada-l" None)
  with
  | Some self => is_users_commit (λ _ _, false) self "ada-l" "ada@example.com"
                 = true
  | None => ¬ account_name "ada-l"
  end.
Proof.
  by apply (self_match (λ _, false) (λ _ _, false)
              (GithubUser (Some "Ada Lovelace") "ada-l" None) "ada@example.com").
Defined.

End IdentityProps.

Module AcquisitionProps.
Import Acquisition.

Section clone_facts.
Variable temp_dir : string.
Variable git_clone : Repository → clone_outcome.

#[local] Abbreviation step := (step temp_dir git_clone).
#[local] Abbreviation reachable := (reachable temp_dir git_clone).
#[local] Abbreviation gather := (gather temp_dir git_clone).
#[local] Abbreviation clone_repo := (clone_repo temp_dir git_clone).
#[local] Abbreviation sched_inv := (sched_inv temp_dir git_clone).

Lemma count_cons P `{∀ t, Decision (P t)} t l :
  count P (t :: l) = ((if decide (P t) then 1 else 0) + count P l)%nat.
Proof. unfold count. rewrite filter_cons. by case_decide. Qed.

(** Replacing one task changes a count by what the task was and is. *)
Lemma count_insert P `{∀ t, Decision (P t)} l i old new :
  l !! i = Some old →
  (count P (<[i := new]> l) + (if decide (P old) then 1 else 0) =
   count P l + (if decide (P new) then 1 else 0))%nat.
Proof.
  revert i. induction l as [|t l IH]; intros [|i] Hi; try done; simpl in *.
  - injection Hi as ->. rewrite !count_cons. lia.
  - rewrite !count_cons. specialize (IH i Hi). lia.
Qed.

Lemma count_replicate_ne P `{∀ t, Decision (P t)} n t :
  ¬ P t → count P (replicate n t) = 0%nat.
Proof.
  intros Hn. induction n as [|n IH]; [done|]. simpl.
  rewrite count_cons, decide_False by done. done.
Qed.

Lemma sched_inv_init repos : sched_inv repos (sched_init repos).
Proof.
  split_and!.
  - simpl. by rewrite length_replicate.
  - unfold running. simpl.
    change (count (λ t, t = Running) (replicate (length repos) Waiting)
            + CONCURRENCY_LIMIT = CONCURRENCY_LIMIT)%nat.
    by rewrite count_replicate_ne.
  - simpl. intros i r [Hr _]%lookup_replicate. done.
Qed.

Lemma running_enter s i :
  tasks s !! i = Some Waiting →
  running (Sched (sem_value s - 1) (<[i := Running]> (tasks s)))
  = S (running s).
Proof.
  intros Hi. unfold running. simpl.
  pose proof (count_insert (λ t, t = Running) (tasks s) i Waiting Running Hi) as H.
  rewrite decide_False, decide_True in H by done. unfold count in H. lia.
Qed.

Lemma running_exit s i r :
  tasks s !! i = Some Running →
  S (running (Sched (sem_value s + 1) (<[i := Done r]> (tasks s))))
  = running s.
Proof.
  intros Hi. unfold running. simpl.
  pose proof (count_insert (λ t, t = Running) (tasks s) i Running (Done r) Hi) as H.
  rewrite decide_True, decide_False in H by done. unfold count in H. lia.
Qed.

Lemma waiting_enter s i :
  tasks s !! i = Some Waiting →
  S (waiting (Sched (sem_value s - 1) (<[i := Running]> (tasks s))))
  = waiting s.
Proof.
  intros Hi. unfold waiting. simpl.
  pose proof (count_insert (λ t, t = Waiting) (tasks s) i Waiting Running Hi) as H.
  rewrite decide_True, decide_False in H by done. unfold count in H. lia.
Qed.

Lemma waiting_exit s i r :
  tasks s !! i = Some Running →
  waiting (Sched (sem_value s + 1) (<[i := Done r]> (tasks s)))
  = waiting s.
Proof.
  intros Hi. unfold waiting. simpl.
  pose proof (count_insert (λ t, t = Waiting) (tasks s) i Running (Done r) Hi) as H.
  rewrite !decide_False in H by done. unfold count in H. lia.
Qed.

Lemma sched_inv_step repos s s' :
  sched_inv repos s → step repos s s' → sched_inv repos s'.
Proof.
  intros (Hlen & Hsem & Hdone) Hstep.
  destruct Hstep as [s i Hi Hpos|s i repo Hi Hrepo].
  - split_and!.
    + simpl. by rewrite length_insert.
    + rewrite (running_enter s i Hi). simpl. lia.
    + simpl. intros j r Hj. destruct (decide (i = j)) as [->|Hne].
      * rewrite list_lookup_insert_eq in Hj; [done|].
        by eapply lookup_lt_Some.
      * rewrite list_lookup_insert_ne in Hj by done. eauto.
  - split_and!.
    + simpl. by rewrite length_insert.
    + pose proof (running_exit s i (clone_repo repo).1 Hi). simpl. lia.
    + simpl. intros j r Hj. destruct (decide (i = j)) as [->|Hne].
      * rewrite list_lookup_insert_eq in Hj by (by eapply lookup_lt_Some).
        injection Hj as <-. eauto.
      * rewrite list_lookup_insert_ne in Hj by done. eauto.
Qed.

Lemma reachable_inv repos s : reachable repos s → sched_inv repos s.
Proof.
  unfold Acquisition.reachable. revert s. apply rtc_ind_r.
  - apply sched_inv_init.
  - intros y z _ Hstep Hy. by apply (sched_inv_step repos y z).
Qed.

Lemma step_work_left repos s s' :
  step repos s s' → (work_left s' < work_left s)%nat.
Proof.
  intros [s0 i Hi Hpos|s0 i repo Hi Hrepo]; unfold work_left.
  - pose proof (running_enter s0 i Hi). pose proof (waiting_enter s0 i Hi). lia.
  - pose proof (running_exit s0 i (clone_repo repo).1 Hi).
    pose proof (waiting_exit s0 i (clone_repo repo).1 Hi). lia.
Qed.

Lemma count_pos P `{∀ t, Decision (P t)} l :
  (0 < count P l)%nat → ∃ i t, l !! i = Some t ∧ P t.
Proof.
  induction l as [|t l IH]; [unfold count; simpl; lia|].
  rewrite count_cons. case_decide.
  - intros _. by exists 0%nat, t.
  - intros (i & t' & ? & ?)%IH. by exists (S i), t'.
Qed.

Lemma count_zero P `{∀ t, Decision (P t)} l :
  count P l = 0%nat → Forall (λ t, ¬ P t) l.
Proof.
  induction l as [|t l IH]; [done|].
  rewrite count_cons. case_decide; [lia|]. intros ?. constructor; auto.
Qed.

(** A state in which some task is not resolved can take a step. *)
Lemma progress repos s :
  sched_inv repos s → all_resolved s ∨ ∃ s', step repos s s'.
Proof.
  intros (Hlen & Hsem & Hdone).
  destruct (decide (0 < running s)%nat) as [Hrun|Hrun].
  - right. apply count_pos in Hrun as (i & t & Hi & ->).
    destruct (lookup_lt_is_Some_2 repos i) as [repo Hrepo].
    { rewrite <-Hlen. by eapply lookup_lt_Some. }
    eexists. by eapply step_exit.
  - destruct (decide (0 < waiting s)%nat) as [Hwait|Hwait].
    + right. apply count_pos in Hwait as (i & t & Hi & ->).
      eexists. eapply step_enter; [done|]. unfold CONCURRENCY_LIMIT in *. lia.
    + left. unfold all_resolved.
      assert (Hr : count (λ t, t = Running) (tasks s) = 0%nat)
        by (unfold running, count in *; lia).
      assert (Hw : count (λ t, t = Waiting) (tasks s) = 0%nat)
        by (unfold waiting, count in *; lia).
      apply count_zero in Hr, Hw. rewrite Forall_forall in Hr, Hw.
      apply Forall_forall. intros t Ht.
      destruct t; [by destruct (Hw _ Ht)|by destruct (Hr _ Ht)|done].
Qed.

Lemma resolved_results repos s :
  sched_inv repos s → all_resolved s → tasks s = Done <$> gather repos.
Proof.
  intros (Hlen & _ & Hdone) Hall. apply list_eq_same_length with (length repos);
    [unfold Acquisition.gather; by rewrite !length_fmap|done|].
  intros i t t' Hi Ht Ht'. unfold all_resolved in Hall.
  rewrite Forall_forall in Hall.
  assert (Hres : resolved t) by (apply Hall; by eapply list_elem_of_lookup_2).
  destruct t as [| |r]; try done.
  destruct (Hdone i r Ht) as (repo & Hrepo & ->).
  unfold Acquisition.gather in Ht'. rewrite !list_lookup_fmap, Hrepo in Ht'.
  by injection Ht' as <-.
Qed.

(** Every run comes to an end with all tasks resolved. *)
Lemma runs_to_end repos s :
  sched_inv repos s → ∃ s', rtc (step repos) s s' ∧ all_resolved s'.
Proof.
  remember (work_left s) as n eqn:Hn. revert s Hn.
  induction (lt_wf n) as [n _ IH]. intros s -> Hinv.
  destruct (progress repos s Hinv) as [Hall|[s1 Hstep]].
  - exists s. split; [apply rtc_refl | done].
  - destruct (IH (work_left s1) (step_work_left _ _ _ Hstep) s1 eq_refl)
      as (s' & Hrtc & Hall).
    { by eapply sched_inv_step. }
    exists s'. split; [by eapply rtc_l | done].
Qed.

(** C8. In every state that the cloning stage can reach, for a candidate
    list of any size: at most [CONCURRENCY_LIMIT] (5) clone tasks are
    executing; when that many are, the only step possible is that one of
    them finishes, so the others wait for a slot; as long as a task is
    unresolved some step is possible, every step brings the end nearer,
    and the stage can only end with every task resolved, with the results
    that [gather] returns in input order. *)
Theorem clone_concurrency_bounded (repos : list Repository) (s : sched) :
  reachable repos s →
  (running s ≤ CONCURRENCY_LIMIT)%nat ∧
  (running s = CONCURRENCY_LIMIT →
   ∀ s', step repos s s' → running s' = (CONCURRENCY_LIMIT - 1)%nat) ∧
  (all_resolved s ∨ ∃ s', step repos s s') ∧
  (∀ s', step repos s s' → (work_left s' < work_left s)%nat) ∧
  (∃ s', rtc (step repos) s s' ∧ all_resolved s') ∧
  (all_resolved s → tasks s = Done <$> gather repos).
Proof.
  intros Hreach. pose proof (reachable_inv repos s Hreach) as Hinv.
  split_and!.
  - destruct Hinv as (_ & Hsem & _). lia.
  - intros Hfull s' Hstep. destruct Hinv as (_ & Hsem & _).
    destruct Hstep as [s i Hi Hpos|s i repo Hi Hrepo]; [lia|].
    pose proof (running_exit s i (clone_repo repo).1 Hi). lia.
  - by apply progress.
  - intros s'. apply step_work_left.
  - by apply runs_to_end.
  - by apply resolved_results.
Qed.

End clone_facts.

(** Six repositories, when five clones are running: the state is reached
    by five tasks entering the semaphore; the sixth waits, and the only
    steps possible are that one of the five finishes. *)
Lemma clone_concurrency_bounded_witness :
  let clone := λ _ : Repository, Cloned in
  let repos := six_repos in
  let s := saturated in
  running s = CONCURRENCY_LIMIT ∧ waiting s = 1%nat ∧
  reachable "/tmp/x" clone repos s ∧
  (running s ≤ CONCURRENCY_LIMIT)%nat ∧
  (running s = CONCURRENCY_LIMIT →
   ∀ s', step "/tmp/x" clone repos s s' →
         running s' = (CONCURRENCY_LIMIT - 1)%nat) ∧
  (all_resolved s ∨ ∃ s', step "/tmp/x" clone repos s s') ∧
  (∀ s', step "/tmp/x" clone repos s s' → (work_left s' < work_left s)%nat) ∧
  (∃ s', rtc (step "/tmp/x" clone repos) s s' ∧ all_resolved s') ∧
  (all_resolved s → tasks s = Done <$> gather "/tmp/x" clone repos).
Proof.
  intros clone repos s.
  assert (Hreach : reachable "/tmp/x" clone repos s).
  { unfold reachable.
    eapply rtc_l; [apply (step_enter _ _ _ (sched_init repos) 0); [done|vm_compute; lia]|].
    eapply rtc_l; [apply (step_enter _ _ _ (Sched 4 (replicate 1 Running ++ replicate 5 Waiting)) 1); [done|vm_compute; lia]|].
    eapply rtc_l; [apply (step_enter _ _ _ (Sched 3 (replicate 2 Running ++ replicate 4 Waiting)) 2); [done|vm_compute; lia]|].
    eapply rtc_l; [apply (step_enter _ _ _ (Sched 2 (replicate 3 Running ++ replicate 3 Waiting)) 3); [done|vm_compute; lia]|].
    eapply rtc_l; [apply (step_enter _ _ _ (Sched 1 (replicate 4 Running ++ replicate 2 Waiting)) 4); [done|vm_compute; lia]|].
    apply rtc_refl. }
  split; [reflexivity|]. split; [reflexivity|]. split; [exact Hreach|].
  exact (clone_concurrency_bounded "/tmp/x" clone repos s Hreach).
Defined.

End AcquisitionProps.

Module PipelineProps.
Import Identity Acquisition Pipeline.

Section pipeline_facts.
Variable temp_dir : string.
Variable git_clone : Repository → clone_outcome.
Variable analyze_git_repo : string → list string → analysis.
Variable as_completed : list stats → list stats.

#[local] Abbreviation clone_repo := (clone_repo temp_dir git_clone).
#[local] Abbreviation gather := (gather temp_dir git_clone).
#[local] Abbreviation analyze_repo_commits :=
  (analyze_repo_commits analyze_git_repo).
#[local] Abbreviation submit_all := (submit_all analyze_git_repo).
#[local] Abbreviation contribution := (contribution analyze_git_repo).
#[local] Abbreviation process_all_repos :=
  (process_all_repos temp_dir git_clone analyze_git_repo as_completed).
#[local] Abbreviation clone_trace := (clone_trace temp_dir git_clone).
#[local] Abbreviation main :=
  (main temp_dir git_clone analyze_git_repo as_completed).

Lemma filter_logs (P : event → Prop) `{∀ e, Decision (P e)} (l : list event) :
  (∀ e, P e → ¬ is_log e) → Forall is_log l → filter P l = [].
Proof.
  intros HP Hl. induction Hl as [|e l He Hl IH]; [done|].
  rewrite filter_cons, IH. case_decide; [|done]. by destruct (HP e).
Qed.

Lemma clone_logs_are_logs (logged : list (level * string)) :
  Forall is_log ((λ l, Log l.1 l.2) <$> logged).
Proof. apply Forall_fmap, Forall_forall. by intros [??] _. Qed.

(** *** Cloning *)

Lemma clone_repo_success repo :
  (clone_repo repo).1.2 = true ↔ git_clone repo = Cloned.
Proof. unfold Acquisition.clone_repo. destruct (git_clone repo); naive_solver. Qed.

Lemma repo_paths_none repos :
  Forall (λ repo, git_clone repo ≠ Cloned) repos →
  repo_paths_of (gather repos) = [].
Proof.
  unfold repo_paths_of, Acquisition.gather. intros H.
  induction H as [|repo repos Hr H IH]; [done|].
  rewrite fmap_cons, filter_cons, decide_False; [done|].
  by rewrite clone_repo_success.
Qed.

(** *** Dispatch *)

Lemma analyze_repo_commits_logs path patterns :
  Forall is_log (analyze_repo_commits path patterns).2.
Proof.
  unfold Pipeline.analyze_repo_commits.
  destruct (analyze_git_repo _ _); simpl; repeat constructor.
Qed.

Lemma submit_all_cons path rest patterns :
  submit_all (path :: rest) patterns =
    ((analyze_repo_commits path patterns).1 :: (submit_all rest patterns).1,
     Submit path patterns :: (analyze_repo_commits path patterns).2
       ++ (submit_all rest patterns).2).
Proof.
  cbn [Pipeline.submit_all].
  by destruct (analyze_repo_commits path patterns), (submit_all rest patterns).
Qed.

Lemma submit_all_futures paths patterns :
  (submit_all paths patterns).1 =
    (λ path, (analyze_repo_commits path patterns).1) <$> paths.
Proof.
  induction paths as [|path rest IH]; [done|].
  by rewrite submit_all_cons, fmap_cons, <-IH.
Qed.

Lemma submit_all_submits paths patterns :
  length (filter is_submit (submit_all paths patterns).2) = length paths.
Proof.
  induction paths as [|path rest IH]; [done|].
  rewrite submit_all_cons. cbn [snd].
  rewrite filter_cons, decide_True by done. rewrite filter_app.
  rewrite (filter_logs is_submit (analyze_repo_commits path patterns).2).
  - simpl. by rewrite IH.
  - by intros [] ??.
  - apply analyze_repo_commits_logs.
Qed.

Lemma submit_all_no_pbar paths patterns :
  filter is_pbar (submit_all paths patterns).2 = [].
Proof.
  induction paths as [|path rest IH]; [done|].
  rewrite submit_all_cons. cbn [snd].
  rewrite filter_cons, decide_False by (by intros []). rewrite filter_app, IH.
  rewrite (filter_logs is_pbar (analyze_repo_commits path patterns).2).
  - done.
  - by intros [] ??.
  - apply analyze_repo_commits_logs.
Qed.

(** *** Collection *)

Lemma collect_cons repo_stats rest :
  collect (repo_stats :: rest) =
    ((if bool_decide (repo_stats ≠ []) then [repo_stats] else [])
       ++ (collect rest).1,
     PbarUpdate :: (collect rest).2).
Proof. cbn [collect]. by destruct (collect rest). Qed.

(** Every future is consumed; the empty contributions are dropped. *)
Lemma collect_spec (completed : list stats) :
  (collect completed).1 = filter (λ h, h ≠ []) completed ∧
  (collect completed).2 = replicate (length completed) PbarUpdate.
Proof.
  induction completed as [|h rest [IH1 IH2]]; [done|].
  rewrite collect_cons. cbn [fst snd]. rewrite IH1, IH2, filter_cons.
  split; [|done]. case_bool_decide; by case_decide.
Qed.

Lemma contribution_job path patterns :
  contribution patterns path =
    if bool_decide ((analyze_repo_commits path patterns).1 ≠ [])
    then Some (analyze_repo_commits path patterns).1 else None.
Proof.
  unfold Pipeline.contribution, Pipeline.analyze_repo_commits.
  destruct (analyze_git_repo path (pattern <$> patterns)); [done|].
  by rewrite bool_decide_false by (by intros ?).
Qed.

Lemma contributions_filter (paths : list string) patterns :
  filter (λ h, h ≠ [])
    ((λ path, (analyze_repo_commits path patterns).1) <$> paths)
  = omap (contribution patterns) paths.
Proof.
  induction paths as [|path rest IH]; [done|].
  rewrite fmap_cons, filter_cons, IH. cbn [omap list_omap].
  rewrite (contribution_job path).
  destruct (decide ((analyze_repo_commits path patterns).1 ≠ [])).
  - by rewrite bool_decide_true.
  - by rewrite bool_decide_false.
Qed.

Lemma filter_replicate_pbar n :
  filter is_pbar (replicate n PbarUpdate) = replicate n PbarUpdate ∧
  filter is_submit (replicate n PbarUpdate) = [].
Proof.
  induction n as [|n [IH1 IH2]]; [done|]. simpl.
  rewrite !filter_cons, IH1, IH2. split.
  - by rewrite decide_True.
  - by rewrite decide_False by (by intros ?).
Qed.

(** *** The whole function *)

Lemma process_all_repos_eq matcher repos :
  process_all_repos matcher repos =
    if bool_decide (repos = []) then
      (Ok [], [Log ERROR "No repositories found to analyze."])
    else
      let repo_paths := repo_paths_of (gather repos) in
      let t12 := [Log INFO "Cloning repositories..."] ++ clone_trace repos in
      if bool_decide (length repo_paths = 0%nat) then
        (Ok [], t12 ++ [Log ERROR "No repositories were successfully cloned"])
      else
        let jobs := submit_all repo_paths (patterns matcher) in
        let done := collect (as_completed jobs.1) in
        (aggregate done.1,
         t12 ++ [Log INFO ("Successfully cloned "
                           +:+ pretty (length repo_paths)
                           +:+ " repositories")]
         ++ jobs.2 ++ done.2 ++ [Log INFO "Aggregating statistics..."]).
Proof.
  unfold Pipeline.process_all_repos, Pipeline.clone_trace.
  repeat case_bool_decide; try done.
  destruct (submit_all _ _) as [futures t4].
  destruct (collect _) as [l t5]. cbn [fst snd].
  by rewrite <-!(assoc (++)).
Qed.

(** C5. If no clone attempt succeeds, [process_all_repos] logs an error
    that says that there is no repository to work on, as its last action,
    returns the empty result without having submitted any analyzer job,
    and [main] exports nothing. *)
Theorem no_clone_no_analysis (matcher : CommitIdentityMatcher)
    (repos : list Repository) :
  Forall (λ repo, git_clone repo ≠ Cloned) repos →
  (process_all_repos matcher repos).1 = Ok [] ∧
  filter is_submit (process_all_repos matcher repos).2 = [] ∧
  last (process_all_repos matcher repos).2 =
    Some (Log ERROR (if bool_decide (repos = [])
                     then "No repositories found to analyze."
                     else "No repositories were successfully cloned")) ∧
  filter is_submit (main matcher repos) = [] ∧
  filter is_export (main matcher repos) = [].
Proof.
  intros Hfail.
  assert (Hp : (process_all_repos matcher repos).1 = Ok [] ∧
               filter is_submit (process_all_repos matcher repos).2 = [] ∧
               filter is_export (process_all_repos matcher repos).2 = [] ∧
               last (process_all_repos matcher repos).2 =
                 Some (Log ERROR (if bool_decide (repos = [])
                       then "No repositories found to analyze."
                       else "No repositories were successfully cloned"))).
  { rewrite process_all_repos_eq. case_bool_decide; [done|]. cbn zeta.
    rewrite (repo_paths_none repos Hfail). cbn [length].
    rewrite bool_decide_true by done. cbn [fst snd].
    split_and!; [done| | |by rewrite last_snoc].
    - rewrite !filter_app, (filter_logs is_submit (clone_trace repos)); [done|..].
      + by intros [] ??.
      + apply clone_logs_are_logs.
    - rewrite !filter_app, (filter_logs is_export (clone_trace repos)); [done|..].
      + by intros [] ??.
      + apply clone_logs_are_logs. }
  destruct Hp as (Hres & Hsub & Hexp & Hlast). split_and!; [done..| |].
  - unfold Pipeline.main. destruct (process_all_repos matcher repos) as [o t].
    cbn [fst snd] in *. subst o. rewrite bool_decide_true by done.
    by rewrite !filter_app, Hsub.
  - unfold Pipeline.main. destruct (process_all_repos matcher repos) as [o t].
    cbn [fst snd] in *. subst o. rewrite bool_decide_true by done.
    by rewrite !filter_app, Hexp.
Qed.

(** When some repository has been cloned, [process_all_repos] submits
    one job per cloned repository and consumes every future, in whatever
    order they complete. *)
Lemma process_counts (matcher : CommitIdentityMatcher)
    (repos : list Repository) :
  (∀ futures, as_completed futures ≡ₚ futures) →
  repo_paths_of (gather repos) ≠ [] →
  length (filter is_submit (process_all_repos matcher repos).2)
    = length (repo_paths_of (gather repos)) ∧
  length (filter is_pbar (process_all_repos matcher repos).2)
    = length (repo_paths_of (gather repos)).
Proof.
  intros Hperm Hpaths. rewrite process_all_repos_eq.
  assert (Hrepos : repos ≠ []) by (by intros ->).
  rewrite bool_decide_false by done. cbn zeta.
  rewrite bool_decide_false by (by destruct (repo_paths_of _)).
  cbn [fst snd].
  set (paths := repo_paths_of (gather repos)) in *.
  set (jobs := submit_all paths (patterns matcher)).
  destruct (collect_spec (as_completed jobs.1)) as [Hc1 Hc2].
  split.
  - rewrite !filter_app, Hc2.
    rewrite (filter_logs is_submit (clone_trace repos));
      [|by intros [] ??|apply clone_logs_are_logs].
    destruct (filter_replicate_pbar (length (as_completed jobs.1))) as [_ ->].
    unfold jobs. rewrite !length_app, submit_all_submits. simpl. lia.
  - rewrite !filter_app, Hc2.
    rewrite (filter_logs is_pbar (clone_trace repos));
      [|by intros [] ??|apply clone_logs_are_logs].
    destruct (filter_replicate_pbar (length (as_completed jobs.1))) as [-> _].
    unfold jobs. rewrite submit_all_no_pbar, !length_app, length_replicate.
    rewrite (Hperm _), submit_all_futures, length_fmap. simpl. lia.
Qed.

End pipeline_facts.

(** One repository that cannot be cloned. *)
Lemma no_clone_no_analysis_witness :
  let run := process_all_repos "/tmp/w" no_access broken_analyzer reverse
               (matcher_of trailing_hyphen) one_repo in
  let all := main "/tmp/w" no_access broken_analyzer reverse
               (matcher_of trailing_hyphen) one_repo in
  run.1 = Ok [] ∧
  filter is_submit run.2 = [] ∧
  last run.2 =
    Some (Log ERROR (if bool_decide (one_repo = [])
                     then "No repositories found to analyze."
                     else "No repositories were successfully cloned")) ∧
  filter is_submit all = [] ∧
  filter is_export all = [].
Proof.
  apply (no_clone_no_analysis "/tmp/w" no_access broken_analyzer reverse
           (matcher_of trailing_hyphen) one_repo).
  repeat constructor. discriminate.
Defined.

End PipelineProps.

Module MergeOutputProps.
Import Merge MergeOutput MergeProps.

Lemma d_get_app {V} k (a b : pydict V) :
  d_get k (a ++ b) = match d_get k a with Some v => Some v | None => d_get k b end.
Proof.
  induction a as [|[k' v'] a IH]; [done|]. simpl. by case_decide.
Qed.

Lemma d_set_app {V} k v (a b : pydict V) :
  d_get k a = None → d_set k v (a ++ b) = a ++ d_set k v b.
Proof.
  induction a as [|[k' v'] a IH]; [done|]. simpl.
  case_decide; [done|]. intros Hn. by rewrite IH.
Qed.

Section fresh.
Context {V : Type} (combine : V → V → res V).

Lemma merge_exts_with_fresh month exts (acc : pydict (pydict V)) done :
  d_get month acc = None → valid_dict (done ++ exts) →
  merge_exts_with combine month exts (acc ++ [(month, done)])
    = Ok (acc ++ [(month, done ++ exts)]).
Proof.
  intros Hm. revert done. induction exts as [|[ext s] rest IH]; intros done Hv.
  { by rewrite app_nil_r. }
  cbn [merge_exts_with]. unfold merge_ext_with, d_index.
  rewrite d_get_app, Hm. cbn [d_get]. rewrite decide_True by done. res_simpl.
  assert (He : d_get ext done = None).
  { apply d_get_None. unfold valid_dict, d_keys in Hv.
    rewrite fmap_app, fmap_cons in Hv. apply NoDup_app in Hv as (_ & Hd & _).
    intros Hin. apply (Hd _ Hin). apply elem_of_cons. by left. }
  rewrite He. res_simpl. rewrite d_set_app by done. cbn [d_set].
  rewrite decide_True by done. rewrite (d_set_fresh ext s done He).
  rewrite IH; [by rewrite <-(assoc (++))|]. by rewrite <-(assoc (++)).
Qed.

Lemma merge_doc_with_fresh (doc acc : pydict (pydict V)) :
  valid_doc (acc ++ doc) →
  merge_doc_with combine doc acc = Ok (acc ++ doc).
Proof.
  revert acc. induction doc as [|[month exts] rest IH]; intros acc Hv.
  { by rewrite app_nil_r. }
  cbn [merge_doc_with]. unfold merge_month_with.
  assert (Hm : d_get month acc = None).
  { destruct Hv as [Hk _]. apply d_get_None. unfold valid_dict, d_keys in Hk.
    rewrite fmap_app, fmap_cons in Hk. apply NoDup_app in Hk as (_ & Hd & _).
    intros Hin. apply (Hd _ Hin). apply elem_of_cons. by left. }
  assert (Hve : valid_dict exts).
  { destruct Hv as [_ Hvs]. apply Forall_app in Hvs as [_ Hvs].
    by apply Forall_cons in Hvs as [? _]. }
  rewrite (proj2 (d_mem_false month acc) Hm), (d_set_fresh month [] acc Hm).
  rewrite (merge_exts_with_fresh month exts acc [] Hm Hve). res_simpl.
  cbn [app]. rewrite IH; [by rewrite <-(assoc (++))|].
  by rewrite <-(assoc (++)).
Qed.

End fresh.

(** Merging one file returns the document of the file as it is, in the
    same order, whatever its MetricSets hold; [main] writes it. *)
Theorem merge_single_file (doc : document) (σ : heap) :
  valid_doc doc →
  merge_result [doc] σ = Ok doc ∧ main [doc] σ = Wrote doc.
Proof.
  intros Hv.
  assert (H : merge_result [doc] σ = Ok doc).
  { rewrite merge_result_copy. unfold merge_copy. cbn [merge_docs_with].
    by rewrite (merge_doc_with_fresh _ doc []). }
  split; [done|]. unfold main. by rewrite H.
Qed.

Lemma lookup2_pairs {V} m e (doc : pydict (pydict V)) :
  is_Some (lookup2 m e doc) → (m, e) ∈ pairs doc.
Proof.
  unfold lookup2, pairs. intros [s Hs].
  destruct (d_get m doc) as [inner|] eqn:Hm; [|done]. simpl in Hs.
  apply list_elem_of_bind. exists (m, inner). split.
  - apply list_elem_of_fmap. exists e. split; [done|].
    apply d_get_is_Some. eauto.
  - by apply d_get_elem_of.
Qed.

Lemma occurrences_absent {V} m e (docs : list (pydict (pydict V))) :
  (m, e) ∉ docs ≫= pairs → occurrences m e docs = [].
Proof.
  induction docs as [|doc docs IH]; [done|].
  rewrite bind_cons, not_elem_of_app, occurrences_cons. intros [Hd Hr].
  destruct (lookup2 m e doc) eqn:Hl; [|by apply IH].
  destruct Hd. apply lookup2_pairs. eauto.
Qed.

Lemma occurrences_once {V} m e (docs : list (pydict (pydict V))) :
  NoDup (docs ≫= pairs) → (length (occurrences m e docs) ≤ 1)%nat.
Proof.
  induction docs as [|doc docs IH]; [simpl; lia|].
  rewrite bind_cons, occurrences_cons. intros (_ & Hd & Hr)%NoDup_app.
  destruct (lookup2 m e doc) eqn:Hl; [|by apply IH].
  rewrite occurrences_absent; [simpl; lia|].
  apply Hd, lookup2_pairs. eauto.
Qed.

(** When no (month, extension) pair occurs in two inputs, the merge is the
    union of the inputs: it returns, whatever the MetricSets hold, and
    every pair has the MetricSet of the one input that has it. *)
Theorem merge_disjoint_union (files : list document) (σ : heap) :
  Forall valid_doc files → NoDup (files ≫= pairs) →
  ∃ r, merge_result files σ = Ok r ∧ valid_doc r ∧
       (∀ m e s, lookup2 m e r = Some s ↔
                 ∃ doc, doc ∈ files ∧ lookup2 m e doc = Some s) ∧
       (∀ m, is_Some (d_get m r) ↔ Exists (λ d, is_Some (d_get m d)) files).
Proof.
  intros Hv Hnd. pose proof (merge_result_spec files σ Hv) as H.
  assert (Hone := λ m e, occurrences_once m e files Hnd).
  assert (Hfold : ∀ m e, fold_occ (add_fields_copy FIELDS) None
                           (occurrences m e files)
                         = Ok (head (occurrences m e files))).
  { intros m e. specialize (Hone m e).
    destruct (occurrences m e files) as [|s [|??]]; simpl in *; [done..|lia]. }
  destruct (merge_result files σ) as [r|x].
  - destruct H as (Hvr & Hl & Hm). exists r. split_and!; [done..| |].
    + intros m e s. specialize (Hl m e). rewrite Hfold in Hl.
      injection Hl as <-. specialize (Hone m e). split.
      * intros Hh. apply head_Some_elem_of in Hh.
        apply list_elem_of_omap in Hh as (doc & ? & ?). eauto.
      * intros (doc & Hin & Hs).
        assert (Hocc : s ∈ occurrences m e files).
        { apply list_elem_of_omap. eauto. }
        destruct (occurrences m e files) as [|s' [|??]]; simpl in *; [|..|lia].
        -- by apply elem_of_nil in Hocc.
        -- by apply list_elem_of_singleton in Hocc as ->.
    + intros m. rewrite <-not_eq_None_Some, Hm. split.
      * intros Hn. apply not_Forall_Exists in Hn; [|apply _].
        eapply Exists_impl; [exact Hn|]. intros d. simpl.
        by rewrite not_eq_None_Some.
      * intros He Hf. apply Exists_exists in He as (d & Hin & Hs).
        rewrite Forall_forall in Hf. specialize (Hf d Hin). simpl in Hf.
        rewrite Hf in Hs. by apply is_Some_None in Hs.
  - destruct H as (m & e & Hr). by rewrite Hfold in Hr.
Qed.

(** ** Lines 33-34 in place *)

Lemma filter_ext_in {A} (P1 P2 : A → Prop) `{∀ x, Decision (P1 x)}
    `{∀ x, Decision (P2 x)} (l : list A) :
  (∀ x, x ∈ l → P1 x ↔ P2 x) → filter P1 l = filter P2 l.
Proof.
  induction l as [|x l IH]; [done|]. intros Hl.
  rewrite !filter_cons, IH.
  - destruct (decide (P1 x)) as [H1|H1], (decide (P2 x)) as [H2|H2]; try done;
      exfalso; apply (Hl x) in H1 || apply (Hl x) in H2; try done;
      apply elem_of_cons; by left.
  - intros y Hy. apply Hl. apply elem_of_cons. by right.
Qed.

Lemma add_fields_copy_first fs a s f :
  NoDup fs →
  head (filter (λ f, a !! f = None ∨ s !! f = None) fs) = Some f →
  add_fields_copy fs a s = Raise (KeyError f).
Proof.
  intros Hnd. revert a. induction Hnd as [|f0 fs Hf Hnd IH]; intros a; [done|].
  rewrite filter_cons, add_fields_copy_cons.
  destruct (add_field_copy_cases f0 a s) as [(x & y & Hx & Hy & ->)|[Hn ->]].
  - rewrite decide_False by (intros [?|?]; congruence). res_simpl.
    intros Hh. apply IH. rewrite <-Hh. f_equal. apply filter_ext_in.
    intros k Hk. rewrite lookup_insert_ne; [done|]. by intros ->.
  - rewrite decide_True by done. by intros [= ->].
Qed.

(** The loop over the field names on an accumulator object [acc] and an
    input object [src]: when both carry the six fields, the accumulator
    object gets their sums in these fields and keeps its other keys, and
    no other object changes; otherwise the loop stops with the KeyError of
    the first field, in the order of the list, that one of the two lacks. *)
Theorem add_fields_in_place (acc src : loc) (σ : heap) (a s : metrics) :
  acc ≠ src → σ !! acc = Some a → σ !! src = Some s →
  add_fields FIELDS acc src σ =
    match first_missing a s with
    | Some f => Raise (KeyError f)
    | None => Ok (<[acc := merged_entry a [s]]> σ)
    end.
Proof.
  intros Hne Ha Hs. rewrite (add_fields_sim FIELDS acc src σ a s Hne Ha Hs).
  destruct (first_missing a s) as [f|] eqn:Hf.
  - unfold first_missing in Hf.
    by rewrite (add_fields_copy_first FIELDS a s f NoDup_FIELDS Hf).
  - assert (Hc : complete a ∧ complete s).
    { unfold first_missing in Hf. apply head_None in Hf. unfold complete.
      split; apply Forall_forall; intros f Hin;
        apply not_eq_None_Some; intros Hn;
        apply (filter_nil_not_elem_of _ _ f Hf); auto. }
    destruct Hc as [Hca Hcs].
    assert (Hm := fold_occ_merged_entry a [s] Hca
                    (proj2 (Forall_singleton complete s) Hcs)).
    cbn [fold_occ step_occ] in Hm.
    destruct (add_fields_copy FIELDS a s) as [a'|x]; res_simpl; [|done].
    res_simpl in Hm. by injection Hm as ->.
Qed.

(** ** The order of the keys *)

Lemma filter_ne_idemp k (l : list string) :
  filter (λ k', k' ≠ k) (filter (λ k', k' ≠ k) l) = filter (λ k', k' ≠ k) l.
Proof. rewrite list_filter_filter. apply list_filter_iff. tauto. Qed.

Lemma filter_ne_comm k x (l : list string) :
  filter (λ k', k' ≠ k) (filter (λ k', k' ≠ x) l)
  = filter (λ k', k' ≠ x) (filter (λ k', k' ≠ k) l).
Proof. rewrite !list_filter_filter. apply list_filter_iff. tauto. Qed.

Lemma first_seen_drop k l1 l2 :
  filter (λ k', k' ≠ k) (first_seen (l1 ++ k :: l2))
  = filter (λ k', k' ≠ k) (first_seen (l1 ++ l2)).
Proof.
  induction l1 as [|x l1 IH]; simpl.
  - rewrite filter_cons, decide_False by (by intros ?). apply filter_ne_idemp.
  - rewrite !filter_cons. rewrite (filter_ne_comm k x), IH, <-(filter_ne_comm k x).
    done.
Qed.

Lemma first_seen_seen k l1 l2 :
  k ∈ l1 → first_seen (l1 ++ k :: l2) = first_seen (l1 ++ l2).
Proof.
  induction l1 as [|x l1 IH]; [by intros ?%elem_of_nil|].
  intros [->|Hin]%elem_of_cons; simpl; f_equal.
  - apply first_seen_drop.
  - by rewrite IH.
Qed.

Lemma filter_all {A} (P : A → Prop) `{∀ x, Decision (P x)} (l : list A) :
  Forall P l → filter P l = l.
Proof.
  induction 1 as [|x l Hx Hl IH]; [done|].
  by rewrite filter_cons, decide_True, IH.
Qed.

Lemma first_seen_NoDup l : NoDup l → first_seen l = l.
Proof.
  induction 1 as [|k l Hk Hnd IH]; [done|]. simpl. rewrite IH. f_equal.
  apply filter_all, Forall_forall. by intros k' Hin ->.
Qed.

Lemma add_key_NoDup keys k : NoDup keys → NoDup (add_key keys k).
Proof.
  unfold add_key. case_decide; [done|]. intros Hnd.
  apply NoDup_app. split_and!; [done| |apply NoDup_singleton].
  by intros x Hx ->%list_elem_of_singleton.
Qed.

Lemma foldl_add_key seen keys :
  NoDup seen → foldl add_key seen keys = first_seen (seen ++ keys).
Proof.
  revert seen. induction keys as [|k rest IH]; intros seen Hnd.
  { simpl. by rewrite app_nil_r, first_seen_NoDup. }
  cbn [foldl]. rewrite IH by (by apply add_key_NoDup).
  unfold add_key. case_decide.
  - by rewrite first_seen_seen.
  - by rewrite <-(assoc (++)).
Qed.

Lemma foldl_add_key_NoDup seen keys :
  NoDup seen → NoDup (foldl add_key seen keys).
Proof.
  revert seen. induction keys as [|k rest IH]; intros seen Hnd; [done|].
  apply IH. by apply add_key_NoDup.
Qed.

Lemma d_keys_add {V} k (v : V) d : d_keys (d_set k v d) = add_key (d_keys d) k.
Proof.
  rewrite d_keys_set. unfold add_key.
  destruct (d_mem k d) eqn:Hm.
  - apply d_mem_true, d_get_is_Some in Hm. by rewrite decide_True.
  - apply d_mem_false, d_get_None in Hm. by rewrite decide_False.
Qed.

Lemma keys_at_set {V} month (inner : pydict V) h m :
  keys_at m (d_set month inner h) =
    if decide (m = month) then d_keys inner else keys_at m h.
Proof.
  unfold keys_at. rewrite d_get_set.
  destruct (decide (month = m)) as [->|Hne].
  - by rewrite decide_True.
  - by rewrite decide_False by done.
Qed.

Section order.
Context {V : Type} (combine : V → V → res V).
Implicit Types (doc acc : pydict (pydict V)) (exts : pydict V).

Lemma merge_ext_with_keys month ext s acc acc' :
  merge_ext_with combine month ext s acc = Ok acc' →
  d_keys acc' = d_keys acc ∧
  ∀ m, keys_at m acc' =
       if decide (m = month) then add_key (keys_at m acc) ext
       else keys_at m acc.
Proof.
  unfold merge_ext_with, d_index.
  destruct (d_get month acc) as [inner|] eqn:Hin; res_simpl; [|done].
  assert (Hk : ∀ v, d_keys (d_set month (d_set ext v inner) acc) = d_keys acc
    ∧ ∀ m, keys_at m (d_set month (d_set ext v inner) acc) =
       if decide (m = month) then add_key (keys_at m acc) ext
       else keys_at m acc).
  { intros v. split.
    - rewrite d_keys_add. unfold add_key. rewrite decide_True; [done|].
      apply d_get_is_Some. eauto.
    - intros m. rewrite keys_at_set. case_decide; [|done]. subst m.
      rewrite d_keys_add. unfold keys_at. by rewrite Hin. }
  destruct (d_get ext inner) as [a|].
  - destruct (combine a s) as [a'|]; res_simpl; [|done]. intros [= <-]. apply Hk.
  - intros [= <-]. apply Hk.
Qed.

Lemma merge_exts_with_keys month exts acc acc' :
  merge_exts_with combine month exts acc = Ok acc' →
  d_keys acc' = d_keys acc ∧
  ∀ m, keys_at m acc' =
       if decide (m = month) then foldl add_key (keys_at m acc) (d_keys exts)
       else keys_at m acc.
Proof.
  revert acc. induction exts as [|[ext s] rest IH]; intros acc.
  { intros [= <-]. split; [done|]. intros m. by case_decide. }
  cbn [merge_exts_with].
  destruct (merge_ext_with combine month ext s acc) as [acc1|] eqn:H1;
    res_simpl; [|done].
  apply merge_ext_with_keys in H1 as [Hk1 Ha1].
  intros [Hk Ha]%IH. split; [congruence|]. intros m.
  rewrite Ha, Ha1. case_decide; [|done].
  unfold d_keys at 2. by rewrite fmap_cons.
Qed.

Lemma merge_month_with_keys month exts acc acc' :
  merge_month_with combine month exts acc = Ok acc' →
  d_keys acc' = add_key (d_keys acc) month ∧
  ∀ m, keys_at m acc' =
       if decide (m = month) then foldl add_key (keys_at m acc) (d_keys exts)
       else keys_at m acc.
Proof.
  unfold merge_month_with. destruct (d_mem month acc) eqn:Hm.
  - intros [Hk Ha]%merge_exts_with_keys. split; [|done].
    rewrite Hk. unfold add_key. rewrite decide_True; [done|].
    by apply d_get_is_Some, d_mem_true.
  - intros [Hk Ha]%merge_exts_with_keys. split.
    + by rewrite Hk, d_keys_add.
    + intros m. rewrite Ha, keys_at_set. case_decide; [|done]. subst m.
      apply d_mem_false in Hm. unfold keys_at. by rewrite Hm.
Qed.

Lemma keys_at_cons m month exts doc :
  keys_at m ((month, exts) :: doc) =
    if decide (m = month) then d_keys exts else keys_at m doc.
Proof. unfold keys_at. simpl. by case_decide. Qed.

Lemma merge_doc_with_keys doc acc acc' :
  valid_dict doc →
  merge_doc_with combine doc acc = Ok acc' →
  d_keys acc' = foldl add_key (d_keys acc) (d_keys doc) ∧
  ∀ m, keys_at m acc' = foldl add_key (keys_at m acc) (keys_at m doc).
Proof.
  revert acc. induction doc as [|[month exts] rest IH]; intros acc Hv.
  { by intros [= <-]. }
  apply valid_dict_cons in Hv as [Hn Hv]. cbn [merge_doc_with].
  destruct (merge_month_with combine month exts acc) as [acc1|] eqn:H1;
    res_simpl; [|done].
  apply merge_month_with_keys in H1 as [Hk1 Ha1].
  intros [Hk Ha]%IH; [|done]. split.
  - by rewrite Hk, Hk1.
  - intros m. rewrite Ha, Ha1, keys_at_cons. case_decide; [|done]. subst m.
    assert (Hr : keys_at month rest = []).
    { unfold keys_at. by rewrite Hn. }
    by rewrite Hr.
Qed.

Lemma merge_docs_with_keys docs acc acc' :
  Forall valid_doc docs →
  merge_docs_with combine docs acc = Ok acc' →
  d_keys acc' = foldl add_key (d_keys acc) (docs ≫= d_keys) ∧
  ∀ m, keys_at m acc' = foldl add_key (keys_at m acc) (docs ≫= keys_at m).
Proof.
  intros Hv. revert acc. induction Hv as [|doc docs [Hd _] Hv IH]; intros acc.
  { by intros [= <-]. }
  cbn [merge_docs_with].
  destruct (merge_doc_with combine doc acc) as [acc1|] eqn:H1;
    res_simpl; [|done].
  apply merge_doc_with_keys in H1 as [Hk1 Ha1]; [|done].
  intros [Hk Ha]%IH. split.
  - by rewrite Hk, Hk1, bind_cons, foldl_app.
  - intros m. by rewrite Ha, Ha1, bind_cons, foldl_app.
Qed.

End order.

(** The merged history lists its months in the order in which the inputs
    first mention them, and under each month the extensions in the order
    in which the inputs first mention them under that month: this is the
    order in which [json.dump] writes them. *)
Theorem merge_key_order (files : list document) (σ : heap) (r : document) :
  Forall valid_doc files → merge_result files σ = Ok r →
  d_keys r = first_seen (files ≫= d_keys) ∧
  ∀ month, keys_at month r = first_seen (files ≫= keys_at month).
Proof.
  intros Hv. rewrite merge_result_copy. unfold merge_copy.
  intros [Hk Ha]%merge_docs_with_keys; [|done]. split.
  - rewrite Hk. apply (foldl_add_key []), NoDup_nil_2.
  - intros m. rewrite Ha. apply (foldl_add_key []), NoDup_nil_2.
Qed.


(** ** Nothing is lost *)

Lemma tally_exts_set f ext (v : metrics) (inner : pydict metrics) :
  tally_exts f (d_set ext v inner) =
    tally_exts f inner + v !!! f
    - match d_get ext inner with Some a => a !!! f | None => 0 end.
Proof.
  induction inner as [|[k a] inner IH]; simpl; [lia|].
  case_decide; simpl; [lia|]. rewrite IH. lia.
Qed.

Lemma tally_set f month (inner' : pydict metrics) (acc : document) :
  tally f (d_set month inner' acc) =
    tally f acc + tally_exts f inner'
    - match d_get month acc with Some inner => tally_exts f inner | None => 0 end.
Proof.
  induction acc as [|[k a] acc IH]; simpl; [lia|].
  case_decide; simpl; [lia|]. rewrite IH. lia.
Qed.

Lemma add_fields_copy_total a s a' f :
  add_fields_copy FIELDS a s = Ok a' → f ∈ FIELDS →
  a' !!! f = a !!! f + s !!! f.
Proof.
  intros Hok Hf.
  destruct (decide (Forall (λ f, is_Some (a !! f)) FIELDS)) as [Ha|Ha];
    [destruct (decide (Forall (λ f, is_Some (s !! f)) FIELDS)) as [Hs|Hs]|].
  - destruct (add_fields_copy_Ok FIELDS a s NoDup_FIELDS Ha Hs) as (a2 & H2 & _ & Hl).
    rewrite H2 in Hok. injection Hok as <-.
    specialize (Hl f). rewrite decide_True in Hl by done.
    by apply lookup_total_correct.
  - destruct (add_fields_copy_Raise FIELDS a s) as (k & _ & Hr); [|congruence].
    apply not_Forall_Exists in Hs; [|apply _].
    eapply Exists_impl; [exact Hs|]. intros k Hk. right.
    by apply eq_None_not_Some.
  - destruct (add_fields_copy_Raise FIELDS a s) as (k & _ & Hr); [|congruence].
    apply not_Forall_Exists in Ha; [|apply _].
    eapply Exists_impl; [exact Ha|]. intros k Hk. left.
    by apply eq_None_not_Some.
Qed.

Section tally.
Variable f : string.
Hypothesis Hf : f ∈ FIELDS.

#[local] Abbreviation add := (add_fields_copy FIELDS).

Lemma merge_ext_with_tally month ext s acc acc' :
  merge_ext_with add month ext s acc = Ok acc' →
  tally f acc' = tally f acc + s !!! f.
Proof.
  unfold merge_ext_with, d_index.
  destruct (d_get month acc) as [inner|] eqn:Hin; res_simpl; [|done].
  destruct (d_get ext inner) as [a|] eqn:He.
  - destruct (add a s) as [a'|] eqn:Ha; res_simpl; [|done]. intros [= <-].
    rewrite tally_set, Hin, tally_exts_set, He.
    rewrite (add_fields_copy_total a s a' f Ha Hf). lia.
  - intros [= <-]. rewrite tally_set, Hin, tally_exts_set, He. lia.
Qed.

Lemma merge_exts_with_tally month exts acc acc' :
  merge_exts_with add month exts acc = Ok acc' →
  tally f acc' = tally f acc + tally_exts f exts.
Proof.
  revert acc. induction exts as [|[ext s] rest IH]; intros acc.
  { intros [= <-]. simpl. lia. }
  cbn [merge_exts_with].
  destruct (merge_ext_with add month ext s acc) as [acc1|] eqn:H1;
    res_simpl; [|done].
  apply merge_ext_with_tally in H1. intros ->%IH. rewrite H1. simpl. lia.
Qed.

Lemma merge_month_with_tally month exts acc acc' :
  merge_month_with add month exts acc = Ok acc' →
  tally f acc' = tally f acc + tally_exts f exts.
Proof.
  unfold merge_month_with. destruct (d_mem month acc) eqn:Hm.
  - apply merge_exts_with_tally.
  - intros ->%merge_exts_with_tally. rewrite tally_set.
    apply d_mem_false in Hm. rewrite Hm. simpl. lia.
Qed.

Lemma merge_doc_with_tally doc acc acc' :
  merge_doc_with add doc acc = Ok acc' →
  tally f acc' = tally f acc + tally f doc.
Proof.
  revert acc. induction doc as [|[month exts] rest IH]; intros acc.
  { intros [= <-]. simpl. lia. }
  cbn [merge_doc_with].
  destruct (merge_month_with add month exts acc) as [acc1|] eqn:H1;
    res_simpl; [|done].
  apply merge_month_with_tally in H1. intros ->%IH. rewrite H1. simpl. lia.
Qed.

Lemma merge_docs_with_tally docs acc acc' :
  merge_docs_with add docs acc = Ok acc' →
  tally f acc' = tally f acc + tally_all f docs.
Proof.
  revert acc. induction docs as [|doc rest IH]; intros acc.
  { intros [= <-]. simpl. lia. }
  cbn [merge_docs_with].
  destruct (merge_doc_with add doc acc) as [acc1|] eqn:H1;
    res_simpl; [|done].
  apply merge_doc_with_tally in H1. intros ->%IH. rewrite H1. simpl. lia.
Qed.

End tally.

(** Whenever the merge returns, each of the six fields adds up, over all
    the entries of the result, to what it adds up to over all the
    MetricSets of all the inputs: no count is lost and none is invented. *)
Theorem merge_conserves_totals (files : list document) (σ : heap)
    (r : document) (f : string) :
  merge_result files σ = Ok r → f ∈ FIELDS →
  tally f r = tally_all f files.
Proof.
  rewrite merge_result_copy. unfold merge_copy. intros Hr Hf.
  by rewrite (merge_docs_with_tally f Hf files [] r Hr).
Qed.

(** The theorems at concrete inputs. *)
Lemma merge_single_file_witness :
  merge_result [jan_no_repos] [] = Ok jan_no_repos ∧
  main [jan_no_repos] [] = Wrote jan_no_repos.
Proof. apply (merge_single_file jan_no_repos []). (apply (bool_decide_unpack _); vm_compute; reflexivity). Defined.

Lemma merge_disjoint_union_witness :
  ∃ r, merge_result [jan_no_repos; feb_b] [] = Ok r ∧ valid_doc r ∧
       (∀ m e s, lookup2 m e r = Some s ↔
                 ∃ doc, doc ∈ [jan_no_repos; feb_b] ∧ lookup2 m e doc = Some s) ∧
       (∀ m, is_Some (d_get m r)
             ↔ Exists (λ d, is_Some (d_get m d)) [jan_no_repos; feb_b]).
Proof.
  apply (merge_disjoint_union [jan_no_repos; feb_b] []); (apply (bool_decide_unpack _); vm_compute; reflexivity).
Defined.

Lemma add_fields_in_place_witness :
  add_fields FIELDS 0%nat 1%nat [counters 10 1 10 0 1 1; counters 5 1 5 0 1 1] =
    match first_missing (counters 10 1 10 0 1 1) (counters 5 1 5 0 1 1) with
    | Some f => Raise (KeyError f)
    | None => Ok (<[0%nat := merged_entry (counters 10 1 10 0 1 1)
                               [counters 5 1 5 0 1 1]]>
                    [counters 10 1 10 0 1 1; counters 5 1 5 0 1 1])
    end.
Proof.
  apply (add_fields_in_place 0%nat 1%nat
           [counters 10 1 10 0 1 1; counters 5 1 5 0 1 1]); [lia|reflexivity..].
Defined.

Lemma merge_key_order_witness :
  let r := [("2024-01", [("py", counters 10 1 10 0 1 1)]);
            ("2024-02", [("py", counters 5 1 5 0 1 1)])] in
  d_keys r = first_seen ([jan_a; feb_b] ≫= d_keys) ∧
  ∀ month, keys_at month r = first_seen ([jan_a; feb_b] ≫= keys_at month).
Proof.
  apply (merge_key_order [jan_a; feb_b] []).
  - (apply (bool_decide_unpack _); vm_compute; reflexivity).
  - vm_compute. reflexivity.
Defined.

Lemma merge_conserves_totals_witness :
  tally "lines" [("2024-01", [("py", counters 15 2 15 0 2 2)])]
  = tally_all "lines" [jan_a; jan_b].
Proof.
  apply (merge_conserves_totals [jan_a; jan_b] []).
  - vm_compute. reflexivity.
  - (apply (bool_decide_unpack _); vm_compute; reflexivity).
Defined.

End MergeOutputProps.

Module AttributionProps.
Import Identity Attribution IdentityProps.

Lemma append_assoc s t u : (s +:+ t) +:+ u = s +:+ (t +:+ u).
Proof. induction s as [|c s IH]; [done|]. by rewrite !append_cons, IH. Qed.

Lemma last_or_app prev s t : last_or prev (s +:+ t) = last_or (last_or prev s) t.
Proof. revert prev. induction s as [|c s IH]; intros prev; [done|]. apply IH. Qed.

(** ** Searching *)

Lemma search_from_app r prev pre t :
  match_here r (last_or prev pre) t = true →
  search_from r prev (pre +:+ t) = true.
Proof.
  revert prev. induction pre as [|c pre IH]; intros prev H.
  { by apply search_from_here. }
  rewrite append_cons. cbn [search_from]. rewrite (IH (Some c)) by done.
  by rewrite orb_true_r.
Qed.

Lemma search_from_inv r prev t :
  search_from r prev t = true →
  ∃ pre rest, t = pre +:+ rest ∧ match_here r (last_or prev pre) rest = true.
Proof.
  revert prev. induction t as [|c t IH]; intros prev; cbn [search_from].
  - rewrite orb_false_r. intros H. by exists "", "".
  - intros [H|H]%orb_true_iff.
    + by exists "", (String c t).
    + destruct (IH _ H) as (pre & rest & -> & Hm).
      by exists (String c pre), rest.
Qed.

Lemma match_lits_ci s mid r prev t :
  ci_eq s mid = true →
  match_here (((One ∘ Lit) <$> chars s) ++ r) prev (mid +:+ t) =
    match_here r (last_or prev mid) t.
Proof.
  revert mid prev. induction s as [|c s IH]; intros [|x mid] prev; try done.
  cbn [ci_eq]. intros [Hc Hs]%andb_true_iff.
  change (chars (String c s)) with (c :: chars s). rewrite fmap_cons.
  cbn [app]. rewrite append_cons. cbn [match_here item_match compose].
  rewrite Hc. cbn [andb last_or]. by apply IH.
Qed.

Lemma match_lits_inv s r prev t :
  match_here (((One ∘ Lit) <$> chars s) ++ r) prev t = true →
  ∃ mid rest, t = mid +:+ rest ∧ ci_eq s mid = true ∧
              match_here r (last_or prev mid) rest = true.
Proof.
  revert prev t. induction s as [|c s IH]; intros prev t.
  { intros H. by exists "", t. }
  change (chars (String c s)) with (c :: chars s). rewrite fmap_cons.
  cbn [app match_here]. destruct t as [|x t]; [done|].
  cbn [item_match compose]. intros [Hc H]%andb_true_iff.
  destruct (IH _ _ H) as (mid & rest & -> & Hs & Hm).
  exists (String x mid), rest. split_and!; [done| |done].
  cbn [ci_eq]. by rewrite Hc, Hs.
Qed.

(** ** The email patterns *)

Lemma search_escape re_beyond s pre post :
  search re_beyond (Compiled (re_escape s)) (pre +:+ s +:+ post) = true.
Proof.
  unfold search. cbn [pattern]. rewrite parse_escape.
  apply search_from_app.
  rewrite <-(app_nil_r ((One ∘ Lit) <$> chars s)). by rewrite match_lits.
Qed.

Lemma search_local_part re_beyond s pre post :
  search re_beyond (Compiled (re_escape s +:+ "@.*"))
    (pre +:+ s +:+ "@" +:+ post) = true.
Proof.
  unfold search. cbn [pattern]. rewrite parse_local_part.
  apply search_from_app. rewrite match_lits.
  change ("@" +:+ post) with (String "@" post). cbn [match_here item_match].
  rewrite ieq_refl. cbn [andb]. by destruct post.
Qed.

Lemma email_patterns_built u e :
  email u = Some e → e ≠ "" →
  Compiled (re_escape e) ∈ built_patterns u ∧
  Compiled (re_escape (before_at e) +:+ "@.*") ∈ built_patterns u.
Proof.
  intros He Hne. unfold built_patterns. rewrite He. cbn [default].
  rewrite (bool_decide_true (e ≠ "")) by done.
  rewrite !elem_of_app, !elem_of_cons. tauto.
Qed.

(** When the constructor has returned a matcher for a profile with an
    email, a commit whose email is the email of the profile, or has the
    local part of that email before its [@], is the user's, whoever the
    author is. *)
Theorem email_attribution (re_accepts : string → bool)
    (re_beyond : string → string → bool)
    (u : github_user) (self : CommitIdentityMatcher)
    (e commit_author domain : string) :
  new_matcher re_accepts u = Some self →
  email u = Some e → e ≠ "" →
  is_users_commit re_beyond self commit_author e = true ∧
  is_users_commit re_beyond self commit_author
    (before_at e +:+ "@" +:+ domain) = true.
Proof.
  intros ->%new_matcher_inv He Hne.
  destruct (email_patterns_built u e He Hne) as [H1 H2].
  unfold is_users_commit. split; apply existsb_exists.
  - exists (Compiled (re_escape e)). split; [by apply list_elem_of_In|].
    rewrite <-(append_assoc commit_author " <"). apply search_escape.
  - exists (Compiled (re_escape (before_at e) +:+ "@.*")).
    split; [by apply list_elem_of_In|].
    rewrite <-(append_assoc commit_author " <").
    rewrite (append_assoc (before_at e)), (append_assoc "@").
    apply search_local_part.
Qed.

(** ** The no-reply pattern *)

Lemma noreply_built u :
  Compiled (login u +:+ NOREPLY) ∈ built_patterns u.
Proof.
  unfold built_patterns, NOREPLY. rewrite !elem_of_app, !elem_of_cons. tauto.
Qed.

Lemma parse_noreply_atoms s :
  account_name s →
  parse (s +:+ NOREPLY) =
    Some (((One ∘ Lit) <$> chars s) ++ default [] (parse NOREPLY)).
Proof.
  intros H. unfold parse at 1. rewrite (lex_account_name _ _ H).
  change (lex NOREPLY) with (Some (default [] (lex NOREPLY))).
  cbn [fmap option_fmap option_map mbind option_bind].
  rewrite group_lits by done. done.
Qed.

Lemma match_noreply prev post :
  match_here (default [] (parse NOREPLY)) prev (NOREPLY +:+ post) = true.
Proof. by vm_compute. Qed.

(** For a login made of the characters of an account name, the
    constructor returns a matcher, and a commit whose email contains the
    no-reply address of the login is the user's, whoever the author is. *)
Theorem noreply_attribution (re_accepts : string → bool)
    (re_beyond : string → string → bool)
    (u : github_user) (commit_author prefix : string) :
  account_name (login u) →
  ∃ self, new_matcher re_accepts u = Some self ∧
          is_users_commit re_beyond self commit_author
            (prefix +:+ login u +:+ NOREPLY) = true.
Proof.
  intros Hl. exists (matcher_of u).
  split; [by apply new_matcher_account_name|].
  unfold is_users_commit. apply existsb_exists.
  exists (Compiled (login u +:+ NOREPLY)).
  split; [apply list_elem_of_In, noreply_built|].
  unfold search. cbn [pattern]. rewrite (parse_noreply_atoms _ Hl).
  replace (commit_author +:+ " <" +:+ (prefix +:+ login u +:+ NOREPLY) +:+ ">")
    with ((commit_author +:+ " <" +:+ prefix) +:+ login u +:+ NOREPLY +:+ ">")
    by (by rewrite !append_assoc).
  apply search_from_app. rewrite match_lits. apply match_noreply.
Qed.

(** ** The whole-word patterns *)

Lemma whole_word_found re_beyond s t :
  whole_word_in s t → search re_beyond (word_pattern s) t = true.
Proof.
  unfold search, whole_word_in. rewrite parse_word_pattern.
  intros (pre & mid & post & -> & Hs & Hb1 & Hb2).
  apply search_from_app. cbn [match_here]. rewrite Hb1. cbn [andb].
  rewrite (match_lits_ci _ _ _ _ _ Hs). cbn [match_here].
  by rewrite Hb2.
Qed.

(** On ASCII text, the whole-word pattern of a text, which line 64
    builds for the login and lines 69 and 74 for the name and its parts,
    matches a string exactly when the string has the text in it, up to
    the case of letters, with a word boundary before and after. *)
Theorem whole_word_search (re_beyond : string → string → bool)
    (s t : string) :
  ascii_text s → ascii_text t →
  search re_beyond (word_pattern s) t = true ↔ whole_word_in s t.
Proof.
  intros _ _. split; [|apply whole_word_found].
  unfold search, whole_word_in. rewrite parse_word_pattern.
  intros (pre & rest & -> & Hm)%search_from_inv.
  cbn [match_here] in Hm. apply andb_true_iff in Hm as [Hb Hm].
  apply match_lits_inv in Hm as (mid & post & -> & Hs & Hm).
  cbn [match_here] in Hm. rewrite andb_true_r in Hm.
  by exists pre, mid, post.
Qed.

Lemma name_patterns_built u n part :
  name u = Some n → n ≠ "" →
  part = n ∨ (part ∈ str_split n ∧ (2 < String.length part)%nat) →
  word_pattern part ∈ built_patterns u.
Proof.
  intros Hn Hne Hp. unfold built_patterns. rewrite Hn. cbn [default].
  rewrite (bool_decide_true (n ≠ "")) by done.
  rewrite !elem_of_app. right. right. apply elem_of_cons.
  destruct Hp as [->|[Hin Hlen]]; [by left|right].
  apply list_elem_of_fmap_2. by apply list_elem_of_filter.
Qed.

(** On ASCII text, when the constructor has returned a matcher for a
    profile with a display name, a commit is the user's when the string
    that is searched has, as a whole word and up to the case of letters,
    the display name or one of the parts of the name that are longer
    than two characters. *)
Theorem name_attribution (re_accepts : string → bool)
    (re_beyond : string → string → bool)
    (u : github_user) (self : CommitIdentityMatcher)
    (n part commit_author commit_email : string) :
  new_matcher re_accepts u = Some self →
  name u = Some n → n ≠ "" → ascii_text n →
  ascii_text commit_author → ascii_text commit_email →
  part = n ∨ (part ∈ str_split n ∧ (2 < String.length part)%nat) →
  whole_word_in part (text_to_check commit_author commit_email) →
  is_users_commit re_beyond self commit_author commit_email = true.
Proof.
  intros ->%new_matcher_inv Hn Hne _ _ _ Hp Hw.
  unfold is_users_commit. apply existsb_exists.
  exists (word_pattern part).
  split; [by apply list_elem_of_In, (name_patterns_built u n)|].
  by apply whole_word_found.
Qed.

(** ** The case of letters *)

Lemma is_word_lower x : is_word (lower x) = is_word x.
Proof. destruct x as [[] [] [] [] [] [] [] []]; reflexivity. Qed.

Lemma newline_lower x :
  bool_decide (lower x = ascii_of_N 10) = bool_decide (x = ascii_of_N 10).
Proof. destruct x as [[] [] [] [] [] [] [] []]; reflexivity. Qed.

Lemma ieq_lower x y : ieq x y = true → lower x = lower y.
Proof. unfold ieq. apply bool_decide_eq_true. Qed.

Lemma ieq_word x y : ieq x y = true → is_word x = is_word y.
Proof.
  intros H%ieq_lower. by rewrite <-(is_word_lower x), H, is_word_lower.
Qed.

Lemma ieq_item i x y : ieq x y = true → item_match i x = item_match i y.
Proof.
  intros H%ieq_lower. destruct i as [c|]; cbn [item_match].
  - unfold ieq. by rewrite H.
  - by rewrite <-(newline_lower x), H, newline_lower.
Qed.

Lemma ci_eq_refl s : ci_eq s s = true.
Proof. induction s as [|c s IH]; [done|]. simpl. by rewrite ieq_refl, IH. Qed.

Lemma ci_eq_app s s' t t' :
  ci_eq s s' = true → ci_eq t t' = true → ci_eq (s +:+ t) (s' +:+ t') = true.
Proof.
  revert s'. induction s as [|c s IH]; intros [|c' s']; try done.
  cbn [ci_eq]. intros [Hc Hs]%andb_true_iff Ht. rewrite !append_cons.
  cbn [ci_eq]. by rewrite Hc, IH.
Qed.

Lemma ci_eq_head t t' :
  ci_eq t t' = true → word_at (head_char t) = word_at (head_char t').
Proof.
  destruct t as [|x t], t' as [|y t']; try done. cbn [ci_eq].
  intros [Hc _]%andb_true_iff. simpl. by apply ieq_word.
Qed.

Lemma match_many_unfold i r prev t :
  match_here (Many i :: r) prev t =
    match_here r prev t
    || match t with
       | String x t' => item_match i x && match_here (Many i :: r) (Some x) t'
       | EmptyString => false
       end.
Proof. by destruct t. Qed.

Lemma match_here_ci r prev prev' t t' :
  word_at prev = word_at prev' → ci_eq t t' = true →
  match_here r prev t = match_here r prev' t'.
Proof.
  revert prev prev' t t'. induction r as [|[i|i|] r IH]; intros prev prev' t t'.
  - done.
  - intros _ Ht. cbn [match_here].
    destruct t as [|x t], t' as [|y t']; try done. cbn [ci_eq] in Ht.
    apply andb_true_iff in Ht as [Hc Ht].
    rewrite (ieq_item i x y Hc). f_equal. apply IH; [|done].
    simpl. by apply ieq_word.
  - revert prev prev' t'. induction t as [|x t IHt]; intros prev prev' t' Hp Ht.
    + destruct t'; [|done]. rewrite !match_many_unfold, !orb_false_r.
      by apply IH.
    + destruct t' as [|y t']; [done|]. cbn [ci_eq] in Ht.
      apply andb_true_iff in Ht as [Hc Ht].
      rewrite (match_many_unfold i r prev), (match_many_unfold i r prev').
      rewrite (IH prev prev' (String x t) (String y t')), (ieq_item i x y Hc),
        (IHt (Some x) (Some y) t'); try done.
      * simpl. by apply ieq_word.
      * cbn [ci_eq]. by rewrite Hc, Ht.
  - intros Hp Ht. cbn [match_here]. unfold boundary.
    by rewrite Hp, (ci_eq_head t t' Ht), (IH prev prev' t t').
Qed.

Lemma search_from_ci r prev prev' t t' :
  word_at prev = word_at prev' → ci_eq t t' = true →
  search_from r prev t = search_from r prev' t'.
Proof.
  revert prev prev' t'. induction t as [|x t IH]; intros prev prev' t' Hp Ht.
  - destruct t'; [|done]. cbn [search_from].
    by rewrite (match_here_ci r prev prev' "" "").
  - destruct t' as [|y t']; [done|]. cbn [search_from].
    rewrite (match_here_ci r prev prev' _ _ Hp Ht). cbn [ci_eq] in Ht.
    apply andb_true_iff in Ht as [Hc Ht].
    rewrite (IH (Some x) (Some y) t'); [done| |done].
    simpl. by apply ieq_word.
Qed.

(** The sources that [_build_patterns] makes. *)
Lemma build_patterns_shape u :
  Forall (λ p, (∃ s, p = Compiled (re_escape s)) ∨
               (∃ s, p = Compiled (re_escape s +:+ "@.*")) ∨
               p = Compiled (login u +:+ NOREPLY) ∨
               ∃ s, p = word_pattern s) (built_patterns u).
Proof.
  unfold built_patterns, NOREPLY.
  repeat case_bool_decide;
    rewrite ?Forall_app, ?Forall_cons, ?Forall_fmap;
    split_and?; eauto 10; try (by apply Forall_nil_2);
    apply Forall_forall; intros s _; simpl; eauto 10.
Qed.

(** For an account name every pattern is in the modelled fragment. *)
Lemma build_patterns_parse u p :
  account_name (login u) → p ∈ built_patterns u →
  is_Some (parse (pattern p)).
Proof.
  intros Hl Hin. pose proof (build_patterns_shape u) as Hs.
  rewrite Forall_forall in Hs.
  destruct (Hs p Hin) as [[s ->]|[[s ->]|[->|[s ->]]]]; cbn [pattern].
  - rewrite parse_escape. eauto.
  - rewrite parse_local_part. eauto.
  - by apply parse_noreply.
  - rewrite parse_word_pattern. eauto.
Qed.

(** For a login made of the characters of an account name, the
    constructor returns a matcher, the same whatever [re] does outside
    the modelled fragment, and the answer of [is_users_commit] does not
    depend on the case of the letters of the author and of the email,
    and not on what [re] does outside the modelled fragment. *)
Theorem attribution_ignores_case (re_accepts re_accepts' : string → bool)
    (re_beyond re_beyond' : string → string → bool)
    (u : github_user) (author author' commit_email commit_email' : string) :
  account_name (login u) →
  ci_eq author author' = true → ci_eq commit_email commit_email' = true →
  ∃ self, new_matcher re_accepts u = Some self ∧
          new_matcher re_accepts' u = Some self ∧
          is_users_commit re_beyond self author commit_email =
          is_users_commit re_beyond' self author' commit_email'.
Proof.
  intros Hl Ha He. exists (matcher_of u).
  split_and!; [by apply new_matcher_account_name..|].
  unfold is_users_commit. cbn [patterns matcher_of].
  assert (Ht : ci_eq (author +:+ " <" +:+ commit_email +:+ ">")
                 (author' +:+ " <" +:+ commit_email' +:+ ">") = true).
  { repeat apply ci_eq_app; try done; apply ci_eq_refl. }
  pose proof (build_patterns_parse u) as Hp.
  induction (built_patterns u) as [|p ps IH]; [done|]. cbn [existsb].
  rewrite IH.
  - f_equal. unfold search.
    destruct (Hp p) as [r ->]; [done|apply elem_of_cons; by left|].
    by apply search_from_ci.
  - intros q Hq Hin. apply Hp; [done|]. apply elem_of_cons. by right.
Qed.

(** The theorems at concrete inputs. *)
Lemma email_attribution_witness :
  is_users_commit (λ _ _, false) (matcher_of ada) "Countess" "ada@example.com"
    = true ∧
  is_users_commit (λ _ _, false) (matcher_of ada) "Countess"
    (before_at "ada@example.com" +:+ "@" +:+ "analytical.engine") = true.
Proof.
  apply (email_attribution (λ _, false) (λ _ _, false) ada (matcher_of ada)
           "ada@example.com"); [reflexivity..|].
  discriminate.
Defined.

Lemma noreply_attribution_witness :
  ∃ self, new_matcher (λ _, false) ada = Some self ∧
          is_users_commit (λ _ _, false) self "Countess"
            ("1815+" +:+ login ada +:+ NOREPLY) = true.
Proof.
  apply (noreply_attribution (λ _, false) (λ _ _, false) ada "Countess" "1815+").
  vm_compute. reflexivity.
Defined.

Lemma whole_word_search_witness :
  search (λ _ _, false) (word_pattern "ada-l") "Ada-L <a@b.c>" = true
  ↔ whole_word_in "ada-l" "Ada-L <a@b.c>".
Proof.
  apply (whole_word_search (λ _ _, false) "ada-l" "Ada-L <a@b.c>");
    vm_compute; reflexivity.
Defined.

Lemma name_attribution_witness :
  is_users_commit (λ _ _, false) (matcher_of ada) "a. LOVELACE" "a@b.c" = true.
Proof.
  apply (name_attribution (λ _, false) (λ _ _, false) ada (matcher_of ada)
           "Ada Lovelace" "Lovelace").
  - reflexivity.
  - reflexivity.
  - discriminate.
  - vm_compute. reflexivity.
  - vm_compute. reflexivity.
  - vm_compute. reflexivity.
  - right. split; [(apply (bool_decide_unpack _); vm_compute; reflexivity) | vm_compute; lia].
  - exists "a. ", "LOVELACE", " <a@b.c>". split_and!; reflexivity.
Defined.

Lemma attribution_ignores_case_witness :
  ∃ self, new_matcher (λ _, false) ada = Some self ∧
          new_matcher (λ _, true) ada = Some self ∧
          is_users_commit (λ _ _, false) self "Ada-L" "x@y.z" =
          is_users_commit (λ _ _, true) self "ADA-l" "X@Y.Z".
Proof.
  apply (attribution_ignores_case (λ _, false) (λ _, true)
           (λ _ _, false) (λ _ _, true) ada);
    vm_compute; reflexivity.
Defined.

End AttributionProps.

Module TotalsProps.
Import Merge Pipeline Totals MergeProps.

Lemma d_keys_ZERO : d_keys ZERO = FIELDS.
Proof. reflexivity. Qed.

(** ** One addition *)

Lemma d_set_keys_present {V} k (v : V) d :
  is_Some (d_get k d) → d_keys (d_set k v d) = d_keys d.
Proof. intros H. rewrite d_keys_set. by apply d_mem_true in H as ->. Qed.

(** Two dicts with the same keys in the same order and the same values. *)
Lemma pydict_eq {V} (a b : pydict V) :
  d_keys a = d_keys b → valid_dict a → (∀ k, d_get k a = d_get k b) → a = b.
Proof.
  revert b. induction a as [|[k v] a IH]; intros [|[k' v'] b]; try done.
  unfold d_keys. rewrite !fmap_cons. cbn [fst]. intros [= <- Hk].
  intros [Hn Hv]%valid_dict_cons Hg.
  pose proof (Hg k) as Hgk. simpl in Hgk. rewrite !decide_True in Hgk by done.
  injection Hgk as <-. f_equal. apply IH; [done..|].
  intros k0. specialize (Hg k0). simpl in Hg.
  destruct (decide (k0 = k)) as [->|Hne]; [|done].
  rewrite Hn. symmetry. apply d_get_None. unfold d_keys. rewrite <-Hk.
  by apply d_get_None.
Qed.

Lemma d_keys_entry_plus (acc : pydict Z) l : d_keys (entry_plus acc l) = d_keys acc.
Proof.
  unfold entry_plus, d_keys. rewrite <-list_fmap_compose.
  by apply list_fmap_ext.
Qed.

Lemma d_get_entry_plus k acc l :
  d_get k (entry_plus acc l) = (λ x, x + sum_of k l) <$> d_get k acc.
Proof.
  unfold entry_plus. induction acc as [|[k' x] acc IH]; [done|].
  rewrite fmap_cons. cbn [d_get fst snd]. case_decide; [by subst|done].
Qed.

Lemma valid_six (acc : pydict Z) : d_keys acc = d_keys ZERO → valid_dict acc.
Proof. unfold valid_dict. intros ->. apply (bool_decide_unpack _). done. Qed.

Lemma reading_cons k k' v rest :
  reading k ((k', v) :: rest) = if decide (k = k') then v else reading k rest.
Proof. unfold reading. simpl. by case_decide. Qed.

Lemma entry_plus_nil acc : entry_plus acc [[]] = acc.
Proof.
  unfold entry_plus. rewrite <-(list_fmap_id acc) at 2.
  apply list_fmap_ext. intros _ [k x] _. simpl. f_equal.
  unfold reading. simpl. lia.
Qed.

Lemma entry_plus_metric k v old acc rest :
  d_keys acc = d_keys ZERO → d_get k acc = Some old → d_get k rest = None →
  entry_plus (d_set k (old + v) acc) [rest] = entry_plus acc [(k, v) :: rest].
Proof.
  intros Hk Hold Hrest. apply pydict_eq.
  - rewrite !d_keys_entry_plus. by apply d_set_keys_present.
  - apply valid_six. rewrite d_keys_entry_plus, d_set_keys_present by eauto.
    done.
  - intros k'. rewrite !d_get_entry_plus, d_get_set. simpl.
    rewrite reading_cons. case_decide as Hkk.
    + subst k'. rewrite Hold, decide_True by done. simpl. f_equal.
      unfold reading. rewrite Hrest. simpl. lia.
    + rewrite decide_False by done. done.
Qed.

(** ** Line 281 *)

Lemma lookup2_default month ext (total : stats) :
  d_get ext (default [] (d_get month total)) = lookup2 month ext total.
Proof. unfold lookup2. by destruct (d_get month total). Qed.

Lemma lookup2_put {V} month ext (v : V) (h : pydict (pydict V)) m e :
  lookup2 m e (d_set month (d_set ext v (default [] (d_get month h))) h) =
    if decide (m = month ∧ e = ext) then Some v else lookup2 m e h.
Proof.
  unfold lookup2. rewrite d_get_set.
  destruct (decide (month = m)) as [<-|Hne]; simpl.
  - rewrite d_get_set. destruct (decide (ext = e)) as [<-|?].
    + by rewrite decide_True.
    + rewrite decide_False by naive_solver. by destruct (d_get month h).
  - rewrite decide_False; [done | naive_solver].
Qed.

Lemma valid_doc_put {V} month ext (v : V) (h : pydict (pydict V)) :
  valid_doc h →
  valid_doc (d_set month (d_set ext v (default [] (d_get month h))) h).
Proof.
  intros [Hk Hv]. split; [by apply valid_dict_set|].
  apply Forall_values_set; [done|]. apply valid_dict_set.
  destruct (d_get month h) as [inner|] eqn:Hin; simpl.
  - by apply (Forall_values_get valid_dict month inner h).
  - apply NoDup_nil_2.
Qed.

Lemma add_metric_spec month ext metric value (total : stats) :
  match d_get metric (default ZERO (lookup2 month ext total)) with
  | None => add_metric month ext metric value total = Raise (KeyError metric)
  | Some old =>
      ∃ total',
        add_metric month ext metric value total = Ok total' ∧
        (∀ m e, lookup2 m e total' =
                if decide (m = month ∧ e = ext)
                then Some (d_set metric (old + value)
                             (default ZERO (lookup2 month ext total)))
                else lookup2 m e total) ∧
        (∀ m, d_get m total' = None ↔ m ≠ month ∧ d_get m total = None) ∧
        (valid_doc total → valid_doc total')
  end.
Proof.
  unfold add_metric. rewrite lookup2_default. unfold d_index.
  destruct (d_get metric _) as [old|]; [|done]. res_simpl.
  eexists. split_and!; [done| | |].
  - intros m e. apply lookup2_put.
  - intros m. rewrite d_get_set. case_decide; naive_solver.
  - apply valid_doc_put.
Qed.

(** ** Lines 280-281: one report *)

Lemma add_metrics_spec month ext metrics (total : stats) :
  valid_dict metrics →
  d_keys (default ZERO (lookup2 month ext total)) = d_keys ZERO →
  match add_metrics month ext metrics total with
  | Ok total' =>
      known metrics ∧
      (∀ m e, lookup2 m e total' =
              if decide ((m = month ∧ e = ext) ∧ metrics ≠ [])
              then Some (entry_plus (default ZERO (lookup2 month ext total))
                           [metrics])
              else lookup2 m e total) ∧
      (∀ m, d_get m total' = None
            ↔ (m ≠ month ∨ metrics = []) ∧ d_get m total = None) ∧
      (valid_doc total → valid_doc total')
  | Raise x =>
      ∃ metric, x = KeyError metric ∧ metric ∈ d_keys metrics ∧
                metric ∉ d_keys ZERO
  end.
Proof.
  revert total. induction metrics as [|[k v] rest IH]; intros total Hv Hkeys.
  { simpl. split_and!; [by constructor| | |done].
    - intros m e. rewrite decide_False; [done | naive_solver].
    - intros m. naive_solver. }
  apply valid_dict_cons in Hv as [Hk Hv]. cbn [add_metrics].
  pose proof (add_metric_spec month ext k v total) as H1.
  set (acc := default ZERO (lookup2 month ext total)) in *.
  destruct (d_get k acc) as [old|] eqn:Hold.
  - destruct H1 as (total1 & -> & Hl1 & Hm1 & Hv1). res_simpl.
    assert (Hacc1 : default ZERO (lookup2 month ext total1)
                    = d_set k (old + v) acc).
    { by rewrite Hl1, decide_True. }
    specialize (IH total1 Hv). rewrite Hacc1 in IH.
    destruct (add_metrics month ext rest total1) as [total'|x].
    + destruct IH as (Hkn & Hl & Hm & Hval).
      { rewrite d_set_keys_present by eauto. done. }
      split_and!.
      * constructor; [|done]. rewrite <-Hkeys. apply d_get_is_Some. eauto.
      * intros m e. rewrite Hl, Hl1.
        destruct (decide (m = month ∧ e = ext)) as [Hme|Hme].
        -- rewrite (decide_True (P := _ ∧ (k, v) :: rest ≠ [])) by done.
           destruct (decide (rest = [])) as [->|Hr].
           ++ rewrite decide_False by naive_solver. f_equal.
              rewrite <-(entry_plus_metric k v old acc []) by done.
              by rewrite entry_plus_nil.
           ++ rewrite decide_True by done. f_equal.
              by apply entry_plus_metric.
        -- rewrite !decide_False by naive_solver. done.
      * intros m. rewrite Hm, Hm1. naive_solver.
      * auto.
    + destruct IH as (metric & -> & Hin & Hout).
      { rewrite d_set_keys_present by eauto. done. }
      exists metric. split_and!; [done| |done].
      unfold d_keys. rewrite fmap_cons. apply elem_of_cons. by right.
  - rewrite H1. res_simpl. exists k. split_and!; [done| |].
    + unfold d_keys. rewrite fmap_cons. apply elem_of_cons. by left.
    + rewrite <-Hkeys. by apply d_get_None.
Qed.

(** ** What reports make of an entry *)

Lemma sum_of_app k l1 l2 : sum_of k (l1 ++ l2) = sum_of k l1 + sum_of k l2.
Proof. unfold sum_of. induction l1; simpl; lia. Qed.

Lemma sum_of_empty k l : Forall (λ metrics, metrics = []) l → sum_of k l = 0.
Proof. induction 1 as [|? l -> _ IH]; [done|]. simpl. by rewrite IH. Qed.

Lemma entry_plus_app acc l1 l2 :
  entry_plus (entry_plus acc l1) l2 = entry_plus acc (l1 ++ l2).
Proof.
  unfold entry_plus. rewrite <-list_fmap_compose. apply list_fmap_ext.
  intros _ [k x] _. simpl. f_equal. rewrite sum_of_app. lia.
Qed.

Lemma entry_plus_empty acc l :
  Forall (λ metrics, metrics = []) l → entry_plus acc l = acc.
Proof.
  intros H. unfold entry_plus. rewrite <-(list_fmap_id acc) at 2.
  apply list_fmap_ext. intros _ [k x] _. simpl. f_equal.
  rewrite sum_of_empty by done. lia.
Qed.

Lemma agg_entry_nil o : agg_entry o [] = o.
Proof. unfold agg_entry, silent. by rewrite decide_True. Qed.

Lemma agg_entry_one o metrics :
  agg_entry o [metrics] =
    if decide (metrics = []) then o
    else Some (entry_plus (default ZERO o) [metrics]).
Proof.
  unfold agg_entry, silent. destruct (decide (metrics = [])) as [->|Hne].
  - rewrite decide_True; [done | by repeat constructor].
  - rewrite decide_False; [done|]. by intros [? _]%Forall_cons.
Qed.

Lemma agg_entry_app o l1 l2 :
  agg_entry (agg_entry o l1) l2 = agg_entry o (l1 ++ l2).
Proof.
  unfold agg_entry, silent.
  destruct (decide (Forall (λ metrics, metrics = []) l1)) as [H1|H1];
    destruct (decide (Forall (λ metrics, metrics = []) l2)) as [H2|H2].
  - rewrite decide_True by (by apply Forall_app). done.
  - rewrite decide_False by (by intros [_ ?]%Forall_app). f_equal.
    by rewrite <-entry_plus_app, (entry_plus_empty _ l1).
  - rewrite decide_False by (by intros [? _]%Forall_app). f_equal.
    by rewrite <-entry_plus_app, (entry_plus_empty _ l2).
  - rewrite decide_False by (by intros [? _]%Forall_app). f_equal.
    simpl. apply entry_plus_app.
Qed.

Lemma agg_entry_keys o l entry :
  (∀ old, o = Some old → d_keys old = d_keys ZERO) →
  agg_entry o l = Some entry → d_keys entry = d_keys ZERO.
Proof.
  intros Ho. unfold agg_entry. case_decide; [by apply Ho|].
  intros [= <-]. rewrite d_keys_entry_plus. destruct o; [by apply Ho | done].
Qed.

Lemma default_six (total : stats) month ext :
  six_keyed total → d_keys (default ZERO (lookup2 month ext total)) = d_keys ZERO.
Proof.
  intros H. destruct (lookup2 month ext total) eqn:Hl; [|done].
  by apply (H month ext).
Qed.

(** ** The loops of lines 277-281 *)

Lemma kept_trans total total1 total' :
  (six_keyed total → kept total total1) → (six_keyed total1 → kept total1 total') →
  six_keyed total → kept total total'.
Proof.
  intros H1 H2 Hs. destruct (H1 Hs) as (?&?&Hs1).
  destruct (H2 Hs1) as (?&?&?). split_and!; auto.
Qed.

Lemma add_metrics_agg month ext metrics (total : stats) :
  valid_dict metrics → six_keyed total →
  match add_metrics month ext metrics total with
  | Ok total' =>
      known metrics ∧
      (∀ m e, lookup2 m e total' =
              if decide (m = month ∧ e = ext)
              then agg_entry (lookup2 m e total) [metrics]
              else lookup2 m e total) ∧
      kept total total'
  | Raise x =>
      ∃ metric, x = KeyError metric ∧ metric ∈ d_keys metrics ∧
                metric ∉ d_keys ZERO
  end.
Proof.
  intros Hv Hsix.
  pose proof (add_metrics_spec month ext metrics total Hv
                (default_six total month ext Hsix)) as H.
  destruct (add_metrics month ext metrics total) as [total'|x]; [|done].
  destruct H as (Hkn & Hl & Hm & Hval).
  assert (Hl' : ∀ m e, lookup2 m e total' =
              if decide (m = month ∧ e = ext)
              then agg_entry (lookup2 m e total) [metrics]
              else lookup2 m e total).
  { intros m e. rewrite Hl, agg_entry_one.
    destruct (decide (m = month ∧ e = ext)) as [[-> ->]|Hme].
    - destruct (decide (metrics = [])).
      + rewrite decide_False; [done | naive_solver].
      + by rewrite decide_True.
    - rewrite decide_False; [done | naive_solver]. }
  split_and!; [done..|]. split; [done|]. split.
  - intros Hne m Hsome.
    destruct (decide (m = month ∧ metrics ≠ [])) as [[-> Hn]|Hno].
    + exists ext. by rewrite Hl, decide_True.
    + destruct (Hne m) as [e He].
      { apply not_eq_None_Some. intros Hnone.
        apply not_eq_None_Some in Hsome. apply Hsome, Hm.
        split; [|done]. destruct (decide (m = month)); [|by left].
        right. destruct (decide (metrics = [])); [done|]. naive_solver. }
      exists e. rewrite Hl. case_decide; [done|]. done.
  - intros m e entry. rewrite Hl'. case_decide; [|apply Hsix].
    apply agg_entry_keys. intros old. apply Hsix.
Qed.

Lemma add_exts_agg month exts (total : stats) :
  valid_dict exts → Forall (λ q, valid_dict q.2) exts → six_keyed total →
  match add_exts month exts total with
  | Ok total' =>
      Forall (λ q, known q.2) exts ∧
      (∀ m e, lookup2 m e total' =
              if decide (m = month)
              then agg_entry (lookup2 m e total) (option_list (d_get e exts))
              else lookup2 m e total) ∧
      kept total total'
  | Raise x =>
      ∃ metric, x = KeyError metric ∧
                metric ∈ (exts ≫= λ q, d_keys q.2) ∧ metric ∉ d_keys ZERO
  end.
Proof.
  revert total.
  induction exts as [|[ext metrics] rest IH]; intros total Hv Hvs Hsix.
  { simpl. split_and!; [done| |done..].
    intros m e. case_decide; [|done]. by rewrite agg_entry_nil. }
  apply valid_dict_cons in Hv as [Hn Hv].
  apply Forall_cons in Hvs as [Hvm Hvs]. cbn [add_exts].
  pose proof (add_metrics_agg month ext metrics total Hvm Hsix) as H1.
  destruct (add_metrics month ext metrics total) as [total1|x]; res_simpl.
  - destruct H1 as (Hkn & Hl1 & Hk1).
    specialize (IH total1 Hv Hvs (proj2 (proj2 Hk1))).
    destruct (add_exts month rest total1) as [total'|x].
    + destruct IH as (Hkns & Hl & Hk). split_and!.
      * by constructor.
      * intros m e. rewrite Hl, Hl1. cbn [d_get].
        destruct (decide (m = month)) as [->|Hm].
        -- destruct (decide (e = ext)) as [->|He].
           ++ rewrite decide_True by done. rewrite Hn. simpl.
              by rewrite agg_entry_nil.
           ++ rewrite decide_False by naive_solver. done.
        -- rewrite decide_False by naive_solver. done.
      * apply (kept_trans total total1 total'); auto.
    + destruct IH as (metric & -> & Hin & Hout). exists metric.
      split_and!; [done| |done]. rewrite bind_cons. apply elem_of_app. by right.
  - destruct H1 as (metric & -> & Hin & Hout). exists metric.
    split_and!; [done| |done]. rewrite bind_cons. apply elem_of_app. by left.
Qed.

Lemma metric_names_cons (h : stats) l :
  metric_names (h :: l) = (h ≫= λ p, p.2 ≫= λ q, d_keys q.2) ++ metric_names l.
Proof. done. Qed.

Lemma add_repo_agg (repo_stats total : stats) :
  valid_stats repo_stats → six_keyed total →
  match add_repo repo_stats total with
  | Ok total' =>
      all_known repo_stats ∧
      (∀ m e, lookup2 m e total' =
              agg_entry (lookup2 m e total)
                (option_list (lookup2 m e repo_stats))) ∧
      kept total total'
  | Raise x =>
      ∃ metric, x = KeyError metric ∧ metric ∈ metric_names [repo_stats] ∧
                metric ∉ d_keys ZERO
  end.
Proof.
  rewrite metric_names_cons. change (metric_names []) with (@nil string).
  rewrite app_nil_r. intros [Hv Hvs]. revert total Hv Hvs.
  induction repo_stats as [|[month exts] rest IH]; intros total Hv Hvs Hsix.
  { simpl. split_and!; [by constructor| |done..].
    intros m e. by rewrite agg_entry_nil. }
  apply valid_doc_cons in Hv as (Hn & Hve & Hv).
  apply Forall_cons in Hvs as [Hvm Hvs]. cbn [add_repo].
  pose proof (add_exts_agg month exts total Hve Hvm Hsix) as H1.
  destruct (add_exts month exts total) as [total1|x]; res_simpl.
  - destruct H1 as (Hkn & Hl1 & Hk1).
    specialize (IH total1 Hv Hvs (proj2 (proj2 Hk1))).
    destruct (add_repo rest total1) as [total'|x].
    + destruct IH as (Hkns & Hl & Hk). split_and!.
      * by constructor.
      * intros m e. rewrite Hl, Hl1, lookup2_cons.
        destruct (decide (m = month)) as [->|Hm].
        -- rewrite (lookup2_None month e rest Hn).
           by rewrite agg_entry_nil.
        -- done.
      * apply (kept_trans total total1 total'); auto.
    + destruct IH as (metric & -> & Hin & Hout). exists metric.
      split_and!; [done| |done]. rewrite bind_cons. apply elem_of_app. by right.
  - destruct H1 as (metric & -> & Hin & Hout). exists metric.
    split_and!; [done| |done]. rewrite bind_cons. apply elem_of_app. by left.
Qed.

Lemma add_repos_agg (l : list stats) (total : stats) :
  Forall valid_stats l → six_keyed total →
  match add_repos l total with
  | Ok total' =>
      Forall all_known l ∧
      (∀ m e, lookup2 m e total' =
              agg_entry (lookup2 m e total) (occurrences m e l)) ∧
      kept total total'
  | Raise x =>
      ∃ metric, x = KeyError metric ∧ metric ∈ metric_names l ∧
                metric ∉ d_keys ZERO
  end.
Proof.
  intros Hv. revert total.
  induction Hv as [|repo_stats l Hr Hv IH]; intros total Hsix.
  { simpl. split_and!; [by constructor| |done..].
    intros m e. by rewrite agg_entry_nil. }
  cbn [add_repos].
  pose proof (add_repo_agg repo_stats total Hr Hsix) as H1.
  destruct (add_repo repo_stats total) as [total1|x]; res_simpl.
  - destruct H1 as (Hkn & Hl1 & Hk1).
    specialize (IH total1 (proj2 (proj2 Hk1))).
    destruct (add_repos l total1) as [total'|x].
    + destruct IH as (Hkns & Hl & Hk). split_and!.
      * by constructor.
      * intros m e. rewrite Hl, Hl1, agg_entry_app, occurrences_cons.
        by destruct (lookup2 m e repo_stats).
      * apply (kept_trans total total1 total'); auto.
    + destruct IH as (metric & -> & Hin & Hout). exists metric.
      split_and!; [done| |done].
      rewrite metric_names_cons. apply elem_of_app. by right.
  - destruct H1 as (metric & -> & Hin & Hout). exists metric.
    split_and!; [done| |done]. rewrite metric_names_cons in Hin.
    change (metric_names []) with (@nil string) in Hin.
    rewrite app_nil_r in Hin.
    rewrite metric_names_cons. apply elem_of_app. by left.
Qed.

(** ** Lines 284-287: the months in order *)

Lemma string_compare_refl s : String.compare s s = Eq.
Proof.
  induction s as [|a s IH]; [done|]. simpl.
  unfold Ascii.compare. by rewrite N.compare_refl.
Qed.

Lemma string_compare_trans c s1 s2 s3 :
  String.compare s1 s2 = c → String.compare s2 s3 = c →
  String.compare s1 s3 = c.
Proof.
  revert s2 s3. induction s1 as [|a s1 IH]; intros [|b s2] [|d s3]; simpl;
    try congruence.
  unfold Ascii.compare.
  destruct (N.compare_spec (N_of_ascii a) (N_of_ascii b)) as [Hab|Hab|Hab];
    destruct (N.compare_spec (N_of_ascii b) (N_of_ascii d)) as [Hbd|Hbd|Hbd];
    intros H1 H2; try congruence.
  - rewrite Hab, Hbd, N.compare_refl. by apply (IH s2).
  - subst c. by rewrite Hab, (proj2 (N.compare_lt_iff _ _) Hbd).
  - subst c. by rewrite Hab, (proj2 (N.compare_gt_iff _ _) Hbd).
  - subst c. by rewrite <-Hbd, (proj2 (N.compare_lt_iff _ _) Hab).
  - subst c. rewrite (proj2 (N.compare_lt_iff (N_of_ascii a) (N_of_ascii d)));
      [done | lia].
  - subst c. by rewrite <-Hbd, (proj2 (N.compare_gt_iff _ _) Hab).
  - subst c. rewrite (proj2 (N.compare_gt_iff (N_of_ascii a) (N_of_ascii d)));
      [done | lia].
Qed.

Lemma string_leb_trans s1 s2 s3 :
  String.leb s1 s2 = true → String.leb s2 s3 = true → String.leb s1 s3 = true.
Proof.
  unfold String.leb.
  destruct (String.compare s1 s2) eqn:H12; [| |done];
    destruct (String.compare s2 s3) eqn:H23; try done; intros _ _.
  - by rewrite (string_compare_trans Eq s1 s2 s3).
  - apply String.compare_eq_iff in H12 as ->. by rewrite H23.
  - apply String.compare_eq_iff in H23 as <-. by rewrite H12.
  - by rewrite (string_compare_trans Lt s1 s2 s3).
Qed.

Lemma month_le_total : Total month_le.
Proof. intros p q. apply String.leb_total. Qed.

#[local] Existing Instance month_le_total.

Lemma leb_trans : Transitive (λ a b, String.leb a b = true).
Proof. intros a b c. apply string_leb_trans. Qed.

#[local] Existing Instance leb_trans.

Lemma leb_antisym : AntiSymm (=) (λ a b, String.leb a b = true).
Proof. intros a b. apply String.leb_antisym. Qed.

#[local] Existing Instance leb_antisym.

Lemma d_get_Permutation {V} k (d d' : pydict V) :
  valid_dict d → d ≡ₚ d' → d_get k d = d_get k d'.
Proof.
  intros Hv Hp.
  assert (Hv' : valid_dict d').
  { unfold valid_dict, d_keys in *. by rewrite <-Hp. }
  destruct (d_get k d) as [v|] eqn:Hg.
  - symmetry. apply elem_of_d_get; [done|]. rewrite <-Hp.
    by apply d_get_elem_of.
  - symmetry. apply d_get_None. apply d_get_None in Hg.
    unfold d_keys in *. by rewrite <-Hp.
Qed.

Lemma valid_doc_Permutation {V} (h h' : pydict (pydict V)) :
  h ≡ₚ h' → valid_doc h → valid_doc h'.
Proof.
  intros Hp [Hk Hv]. split.
  - unfold valid_dict, d_keys in *. by rewrite <-Hp.
  - by rewrite <-Hp.
Qed.

Lemma lookup2_Permutation {V} m e (h h' : pydict (pydict V)) :
  valid_doc h → h ≡ₚ h' → lookup2 m e h = lookup2 m e h'.
Proof.
  intros [Hk _] Hp. unfold lookup2. by rewrite (d_get_Permutation m h h').
Qed.

Lemma ascending_sorted (h : stats) :
  ascending (d_keys (merge_sort month_le h)).
Proof.
  unfold ascending, d_keys.
  apply (Sorted_fmap fst month_le (λ a b, String.leb a b = true)).
  - done.
  - apply (Sorted_merge_sort month_le).
Qed.

(** Two sorted dicts with the same months have them in the same order. *)
Lemma ascending_unique {V W} (a : pydict V) (b : pydict W) :
  valid_dict a → valid_dict b → ascending (d_keys a) → ascending (d_keys b) →
  (∀ m, is_Some (d_get m a) ↔ is_Some (d_get m b)) → d_keys a = d_keys b.
Proof.
  intros Ha Hb Hsa Hsb Hm. unfold ascending in *.
  apply (Sorted_unique (λ a b, String.leb a b = true)); [done..|].
  apply NoDup_Permutation; [done..|]. intros m.
  by rewrite <-!d_get_is_Some.
Qed.

Lemma summed_entry l : entry_plus ZERO l = summed l.
Proof. reflexivity. Qed.

(** ** The aggregation *)

Lemma aggregate_spec (l : list stats) :
  Forall valid_stats l →
  match aggregate l with
  | Ok r =>
      Forall all_known l ∧ valid_doc r ∧ ascending (d_keys r) ∧
      (∀ m e, lookup2 m e r =
              if decide (silent (occurrences m e l)) then None
              else Some (summed (occurrences m e l))) ∧
      no_empty_month r
  | Raise x =>
      ∃ metric, x = KeyError metric ∧ metric ∈ metric_names l ∧
                metric ∉ d_keys ZERO
  end.
Proof.
  intros Hv. unfold aggregate.
  pose proof (add_repos_agg l [] Hv) as H.
  destruct (add_repos l []) as [total|x]; res_simpl; [|by apply H].
  destruct H as (Hkn & Hl & Hval & Hne & Hsix); [done|].
  assert (Hvt : valid_doc total).
  { apply Hval. split; [apply NoDup_nil_2 | apply Forall_nil_2]. }
  assert (Hp : total ≡ₚ merge_sort month_le total).
  { symmetry. apply merge_sort_Permutation. }
  split_and!; [done| | | |].
  - by apply (valid_doc_Permutation total).
  - apply ascending_sorted.
  - intros m e. rewrite <-(lookup2_Permutation m e total) by done.
    rewrite Hl. unfold agg_entry. by case_decide.
  - intros m. rewrite <-(d_get_Permutation m total); [|apply Hvt|done].
    intros Hs. assert (Hn0 : no_empty_month []) by (by intros ? ?%is_Some_None).
    destruct (Hne Hn0 m Hs) as [e He].
    exists e. by rewrite <-(lookup2_Permutation m e total).
Qed.

Lemma all_known_names (l : list stats) metric :
  Forall all_known l → metric ∈ metric_names l → metric ∈ d_keys ZERO.
Proof.
  intros Hk. unfold metric_names.
  intros (h & (p & (q & Hm & Hq)%list_elem_of_bind & Hp)%list_elem_of_bind
            & Hh)%list_elem_of_bind.
  rewrite Forall_forall in Hk. specialize (Hk h Hh). unfold all_known in Hk.
  rewrite Forall_forall in Hk. specialize (Hk p Hp).
  rewrite Forall_forall in Hk. specialize (Hk q Hq). unfold known in Hk.
  rewrite Forall_forall in Hk. by apply Hk.
Qed.

Lemma sum_of_Permutation k l l' : l ≡ₚ l' → sum_of k l = sum_of k l'.
Proof.
  unfold sum_of. induction 1; simpl; lia.
Qed.

Lemma summed_Permutation l l' : l ≡ₚ l' → summed l = summed l'.
Proof.
  intros Hp. unfold summed. apply list_fmap_ext. intros _ k _.
  by rewrite (sum_of_Permutation k l l').
Qed.

(** The aggregation of lines 271-287 on reports with known metric names:
    it returns; the months of the result are distinct and ascending; a
    (month, extension) pair has an entry when some repository reports a
    metric for it, and the entry has the six keys of the default entry, in
    its order, each with the sum of what the repositories report (a metric
    that a repository does not report counts as nothing); no month is
    without an extension. *)
Lemma aggregate_sums (l : list stats) :
  Forall valid_stats l → Forall all_known l →
  ∃ r, aggregate l = Ok r ∧
       valid_doc r ∧ ascending (d_keys r) ∧
       (∀ m e, lookup2 m e r =
               if decide (silent (occurrences m e l)) then None
               else Some (summed (occurrences m e l))) ∧
       no_empty_month r.
Proof.
  intros Hv Hk. pose proof (aggregate_spec l Hv) as H.
  destruct (aggregate l) as [r|x].
  - exists r. naive_solver.
  - destruct H as (metric & _ & Hin & Hout).
    destruct Hout. by apply (all_known_names l).
Qed.

(** A metric name outside the six of the default entry stops the
    aggregation: line 281 raises the KeyError of such a name; nothing is
    defaulted or skipped. *)
Lemma aggregate_unknown_metric (l : list stats) :
  Forall valid_stats l → ¬ Forall all_known l →
  ∃ metric, aggregate l = Raise (KeyError metric) ∧
            metric ∈ metric_names l ∧ metric ∉ d_keys ZERO.
Proof.
  intros Hv Hk. pose proof (aggregate_spec l Hv) as H.
  destruct (aggregate l) as [r|x].
  - by destruct H as [? _].
  - destruct H as (metric & -> & ? & ?). eauto.
Qed.

Lemma lookup2_month {V} m e (h : pydict (pydict V)) :
  is_Some (lookup2 m e h) → is_Some (d_get m h).
Proof. unfold lookup2. destruct (d_get m h); [eauto | by intros ?%is_Some_None]. Qed.

Lemma same_months (r r' : stats) :
  no_empty_month r → no_empty_month r' →
  (∀ m e, lookup2 m e r = lookup2 m e r') →
  ∀ m, is_Some (d_get m r) ↔ is_Some (d_get m r').
Proof.
  intros Hn Hn' Hl m. split; intros Hs.
  - destruct (Hn m Hs) as [e He]. rewrite Hl in He. by eapply lookup2_month.
  - destruct (Hn' m Hs) as [e He]. rewrite <-Hl in He. by eapply lookup2_month.
Qed.

Lemma aggregate_Permutation (l l' : list stats) :
  Forall valid_stats l → l ≡ₚ l' →
  match aggregate l, aggregate l' with
  | Ok r, Ok r' =>
      d_keys r = d_keys r' ∧ ∀ m e, lookup2 m e r = lookup2 m e r'
  | Raise _, Raise _ => True
  | _, _ => False
  end.
Proof.
  intros Hv Hp.
  assert (Hv' : Forall valid_stats l') by (by rewrite <-Hp).
  pose proof (aggregate_spec l Hv) as H. pose proof (aggregate_spec l' Hv') as H'.
  assert (Hocc : ∀ m e, occurrences m e l ≡ₚ occurrences m e l').
  { intros m e. unfold occurrences. by rewrite Hp. }
  destruct (aggregate l) as [r|x], (aggregate l') as [r'|x'].
  - destruct H as (_ & Hvr & Hs & Hl & Hn), H' as (_ & Hvr' & Hs' & Hl' & Hn').
    assert (Hll : ∀ m e, lookup2 m e r = lookup2 m e r').
    { intros m e. rewrite Hl, Hl'. unfold silent.
      rewrite (summed_Permutation _ _ (Hocc m e)).
      destruct (decide (Forall _ (occurrences m e l))) as [Hf|Hf].
      - rewrite decide_True; [done|]. by rewrite <-(Hocc m e).
      - rewrite decide_False; [done|]. by rewrite <-(Hocc m e). }
    split; [|done].
    apply ascending_unique; [apply Hvr|apply Hvr'|done..|].
    by apply same_months.
  - destruct H as (Hk & _), H' as (metric & _ & Hin & Hout).
    destruct Hout. apply (all_known_names l'); [by rewrite <-Hp | done].
  - destruct H' as (Hk & _), H as (metric & _ & Hin & Hout).
    destruct Hout. apply (all_known_names l); [by rewrite Hp | done].
  - done.
Qed.

End TotalsProps.

Module RunProps.
Import Merge Identity Acquisition Pipeline Totals Run.
Import MergeProps PipelineProps TotalsProps.

Section run_facts.
Variable temp_dir : string.
Variable git_clone : Repository → clone_outcome.
Variable analyze_git_repo : string → list string → analysis.
Variable as_completed : list stats → list stats.

#[local] Abbreviation gather := (gather temp_dir git_clone).
#[local] Abbreviation analyze_repo_commits :=
  (analyze_repo_commits analyze_git_repo).
#[local] Abbreviation submit_all := (submit_all analyze_git_repo).
#[local] Abbreviation contribution := (contribution analyze_git_repo).
#[local] Abbreviation process_all_repos :=
  (process_all_repos temp_dir git_clone analyze_git_repo as_completed).
#[local] Abbreviation clone_trace := (clone_trace temp_dir git_clone).
#[local] Abbreviation main :=
  (main temp_dir git_clone analyze_git_repo as_completed).

Lemma collected_contributions paths patterns :
  (∀ futures, as_completed futures ≡ₚ futures) →
  (collect (as_completed (submit_all paths patterns).1)).1
    ≡ₚ omap (contribution patterns) paths.
Proof.
  intros Hperm.
  destruct (collect_spec (as_completed (submit_all paths patterns).1)) as [-> _].
  rewrite (Hperm _), submit_all_futures. by rewrite contributions_filter.
Qed.

Lemma process_result matcher repos :
  repo_paths_of (gather repos) ≠ [] →
  (process_all_repos matcher repos).1 =
    aggregate (collect (as_completed
      (submit_all (repo_paths_of (gather repos)) (patterns matcher)).1)).1.
Proof.
  intros Hpaths. rewrite process_all_repos_eq.
  assert (Hrepos : repos ≠ []) by (by intros ->).
  rewrite bool_decide_false by done. cbn zeta.
  rewrite bool_decide_false by (by destruct (repo_paths_of _)). done.
Qed.

(** When some repository has been cloned and the analyzer reports known
    metric names, [process_all_repos] returns a history whose months are
    distinct and ascending and whose entries hold, for each of the six
    metrics, the sum over the cloned repositories of what the analyzer
    reports for them, whatever the order in which the analyses complete. *)
Theorem process_all_repos_totals (matcher : CommitIdentityMatcher)
    (repos : list Repository) :
  let reports := omap (contribution (patterns matcher))
                   (repo_paths_of (gather repos)) in
  (∀ futures, as_completed futures ≡ₚ futures) →
  repo_paths_of (gather repos) ≠ [] →
  Forall valid_stats reports → Forall all_known reports →
  ∃ r, (process_all_repos matcher repos).1 = Ok r ∧
       valid_doc r ∧ ascending (d_keys r) ∧
       (∀ m e, lookup2 m e r =
               if decide (silent (occurrences m e reports)) then None
               else Some (summed (occurrences m e reports))) ∧
       no_empty_month r.
Proof.
  intros reports Hperm Hpaths Hv Hk. rewrite (process_result _ _ Hpaths).
  pose proof (collected_contributions (repo_paths_of (gather repos))
                (patterns matcher) Hperm) as Hp.
  fold reports in Hp.
  set (l := (collect _).1) in *.
  destruct (aggregate_sums reports Hv Hk) as (r0 & Hr0 & _ & _ & Hl0 & _).
  pose proof (aggregate_Permutation reports l Hv (symmetry Hp)) as Hagg.
  rewrite Hr0 in Hagg.
  assert (Hv' : Forall valid_stats l) by (by rewrite Hp).
  pose proof (aggregate_spec l Hv') as Hs.
  destruct (aggregate l) as [r|x]; [|done].
  destruct Hagg as [_ Hll]. destruct Hs as (_ & Hvr & Hasc & _ & Hne).
  exists r. split_and!; [done..| |done].
  intros m e. by rewrite <-Hll, Hl0.
Qed.

(** C6. An Exception of the analyzer is turned into the empty
    contribution by [analyze_repo_commits], which logs it. When some
    repository has been cloned, [process_all_repos] submits one job per
    cloned repository and consumes every future, in whatever order they
    complete, and the history that it returns is made of the reports of
    the repositories whose analysis returned something: a pair has an
    entry exactly when one of these reports has a metric for it, and the
    entry holds the sums over these reports. A repository whose analysis
    failed adds nothing and takes nothing away. (The reports are taken
    to carry the six known metric names; [unknown_metric_stops_run] has the other case.) *)
Theorem failed_analyses_are_skipped (matcher : CommitIdentityMatcher)
    (repos : list Repository) :
  let paths := repo_paths_of (gather repos) in
  let reports := omap (contribution (patterns matcher)) paths in
  (∀ futures, as_completed futures ≡ₚ futures) →
  paths ≠ [] → Forall valid_stats reports → Forall all_known reports →
  (∀ path msg,
     analyze_git_repo path (pattern <$> patterns matcher) = Fails msg →
     (analyze_repo_commits path (patterns matcher)).1 = [] ∧
     Log ERROR ("Failed to analyze repo " +:+ path +:+ ": " +:+ msg)
       ∈ (analyze_repo_commits path (patterns matcher)).2 ∧
     contribution (patterns matcher) path = None) ∧
  length (filter is_submit (process_all_repos matcher repos).2)
    = length paths ∧
  length (filter is_pbar (process_all_repos matcher repos).2)
    = length paths ∧
  ∃ r, (process_all_repos matcher repos).1 = Ok r ∧
       ∀ m e, lookup2 m e r =
              if decide (silent (occurrences m e reports)) then None
              else Some (summed (occurrences m e reports)).
Proof.
  intros paths reports Hperm Hpaths Hv Hk. split_and!.
  - intros path msg Hfail.
    unfold Pipeline.analyze_repo_commits, Pipeline.contribution.
    rewrite Hfail. cbn [fst snd]. split_and!; [done| |done].
    apply elem_of_cons. right. by apply list_elem_of_singleton.
  - by apply process_counts.
  - by apply process_counts.
  - rewrite (process_result _ _ Hpaths).
    pose proof (collected_contributions paths (patterns matcher) Hperm) as Hp.
    fold reports in Hp. fold paths.
    set (l := (collect _).1) in *.
    destruct (aggregate_sums reports Hv Hk) as (r0 & Hr0 & _ & _ & Hl0 & _).
    pose proof (aggregate_Permutation reports l Hv (symmetry Hp)) as Hagg.
    rewrite Hr0 in Hagg.
    destruct (aggregate l) as [r|x]; [|done].
    destruct Hagg as [_ Hll]. exists r. split; [done|].
    intros m e. by rewrite <-Hll, Hl0.
Qed.

(** An analyzer that reports a metric name outside the six of the default
    entry stops the run: [process_all_repos] raises the KeyError of such a
    name, and [main] logs it (the [repr] of the name, for names of ASCII
    characters), cleans up and exports nothing. *)
Theorem unknown_metric_stops_run (matcher : CommitIdentityMatcher)
    (repos : list Repository) :
  let reports := omap (contribution (patterns matcher))
                   (repo_paths_of (gather repos)) in
  (∀ futures, as_completed futures ≡ₚ futures) →
  repo_paths_of (gather repos) ≠ [] →
  Forall valid_stats reports → Forall ascii_text (metric_names reports) →
  ¬ Forall all_known reports →
  ∃ metric,
    metric ∈ metric_names reports ∧ (metric ∉ d_keys ZERO) ∧
    (process_all_repos matcher repos).1 = Raise (KeyError metric) ∧
    main matcher repos =
      (process_all_repos matcher repos).2
      ++ [Log ERROR ("An error occurred: " +:+ exn_str (KeyError metric));
          Cleanup; Log INFO "Analysis completed"].
Proof.
  intros reports Hperm Hpaths Hv _ Hk.
  pose proof (collected_contributions (repo_paths_of (gather repos))
                (patterns matcher) Hperm) as Hp.
  fold reports in Hp.
  assert (Hres := process_result matcher repos Hpaths).
  set (l := (collect _).1) in *.
  assert (Hv' : Forall valid_stats l) by (by rewrite Hp).
  pose proof (aggregate_spec l Hv') as Hs.
  destruct (aggregate l) as [r|x].
  { destruct Hs as [Hkl _]. destruct Hk. by rewrite <-Hp. }
  destruct Hs as (metric & -> & Hin & Hout). exists metric.
  split_and!; [|done..|].
  - unfold metric_names in *. apply list_elem_of_bind in Hin as (h & Hm & Hh).
    apply list_elem_of_bind. exists h. split; [done|]. by rewrite <-Hp.
  - unfold Pipeline.main.
    destruct (process_all_repos matcher repos) as [o t]. cbn [fst snd] in *.
    by subst o.
Qed.

(** *** The jobs *)

Lemma submitted_logs (l : list event) : Forall is_log l → submitted l = [].
Proof.
  induction 1 as [|e l He _ IH]; [done|]. unfold submitted in *.
  cbn [omap list_omap]. rewrite IH. by destruct e.
Qed.

Lemma submitted_app l1 l2 : submitted (l1 ++ l2) = submitted l1 ++ submitted l2.
Proof. unfold submitted. apply omap_app. Qed.

Lemma submitted_submit_all paths patterns :
  submitted (submit_all paths patterns).2 = paths.
Proof.
  induction paths as [|path rest IH]; [done|].
  rewrite submit_all_cons. cbn [snd].
  change (submitted (Submit path patterns :: ?l)) with (path :: submitted l).
  rewrite submitted_app, IH, submitted_logs; [done|].
  apply analyze_repo_commits_logs.
Qed.

Lemma submitted_pbar n : submitted (replicate n PbarUpdate) = [].
Proof. induction n as [|n IH]; [done|]. done. Qed.

Lemma repo_paths_cloned repos :
  repo_paths_of (gather repos) =
    (λ repo, path_join temp_dir (repo_name repo))
      <$> filter (λ repo, is_cloned (git_clone repo)) repos.
Proof.
  unfold repo_paths_of, Acquisition.gather.
  induction repos as [|repo repos IH]; [done|]. rewrite fmap_cons.
  assert (Hpath : (Acquisition.clone_repo temp_dir git_clone repo).1.1
                  = path_join temp_dir (repo_name repo)).
  { unfold Acquisition.clone_repo. by destruct (git_clone repo). }
  assert (Hok : (Acquisition.clone_repo temp_dir git_clone repo).1.2 = true
                ↔ is_cloned (git_clone repo)).
  { unfold Acquisition.clone_repo. by destruct (git_clone repo). }
  destruct (decide (is_cloned (git_clone repo))) as [Hc|Hc].
  - rewrite (filter_cons_True (λ repo, is_cloned (git_clone repo))) by done.
    rewrite filter_cons_True by (by apply Hok).
    rewrite !fmap_cons, IH. by rewrite Hpath.
  - rewrite (filter_cons_False (λ repo, is_cloned (git_clone repo))) by done.
    rewrite filter_cons_False by (by rewrite Hok). done.
Qed.

(** The analyzer jobs that [process_all_repos] submits are, in the order
    of the candidate list, one for each repository whose clone succeeded,
    on the directory [temp_dir/name] of the repository. *)
Theorem jobs_are_the_cloned_repositories (matcher : CommitIdentityMatcher)
    (repos : list Repository) :
  submitted (process_all_repos matcher repos).2 =
    (λ repo, path_join temp_dir (repo_name repo))
      <$> filter (λ repo, is_cloned (git_clone repo)) repos.
Proof.
  rewrite <-repo_paths_cloned, process_all_repos_eq.
  case_bool_decide as Hr; [by subst|]. cbn zeta.
  case_bool_decide as Hn; cbn [snd]; rewrite !submitted_app.
  - rewrite (submitted_logs (clone_trace repos)) by apply clone_logs_are_logs.
    by destruct (repo_paths_of (gather repos)).
  - rewrite (submitted_logs (clone_trace repos)) by apply clone_logs_are_logs.
    rewrite submitted_submit_all, (proj2 (collect_spec _)), submitted_pbar.
    cbn [submitted omap list_omap app]. by rewrite app_nil_r.
Qed.

End run_facts.

(** The theorems at concrete inputs. *)
Lemma process_all_repos_totals_witness :
  let run := process_all_repos "/tmp/w" all_cloned steady_analyzer reverse
               (matcher_of trailing_hyphen) (one_repo ++ one_repo) in
  let reports := [three_lines; three_lines] in
  ∃ r, run.1 = Ok r ∧
       valid_doc r ∧ ascending (d_keys r) ∧
       (∀ m e, lookup2 m e r =
               if decide (silent (occurrences m e reports)) then None
               else Some (summed (occurrences m e reports))) ∧
       no_empty_month r.
Proof.
  apply (process_all_repos_totals "/tmp/w" all_cloned steady_analyzer reverse
           (matcher_of trailing_hyphen) (one_repo ++ one_repo)).
  - intros futures. apply reverse_Permutation.
  - vm_compute. discriminate.
  - (apply (bool_decide_unpack _); vm_compute; reflexivity).
  - (apply (bool_decide_unpack _); vm_compute; reflexivity).
Defined.

(** Two cloned repositories; the analyzer fails on the first of them. *)
Lemma failed_analyses_are_skipped_witness :
  let matcher := matcher_of trailing_hyphen in
  let run := process_all_repos "/tmp/w" all_cloned flaky_analyzer reverse
               matcher two_repos in
  let reports := [three_lines] in
  (∀ path msg,
     flaky_analyzer path (pattern <$> patterns matcher) = Fails msg →
     (analyze_repo_commits flaky_analyzer path (patterns matcher)).1 = [] ∧
     Log ERROR ("Failed to analyze repo " +:+ path +:+ ": " +:+ msg)
       ∈ (analyze_repo_commits flaky_analyzer path (patterns matcher)).2 ∧
     contribution flaky_analyzer (patterns matcher) path = None) ∧
  length (filter is_submit run.2) = 2%nat ∧
  length (filter is_pbar run.2) = 2%nat ∧
  ∃ r, run.1 = Ok r ∧
       ∀ m e, lookup2 m e r =
              if decide (silent (occurrences m e reports)) then None
              else Some (summed (occurrences m e reports)).
Proof.
  apply (failed_analyses_are_skipped "/tmp/w" all_cloned flaky_analyzer reverse
           (matcher_of trailing_hyphen) two_repos).
  - intros futures. apply reverse_Permutation.
  - vm_compute. discriminate.
  - apply (bool_decide_unpack _). vm_compute. reflexivity.
  - apply (bool_decide_unpack _). vm_compute. reflexivity.
Defined.

(** The analyzer fails on the first of the two repositories and the
    history is that of the second. *)
Example failed_analysis_run :
  (process_all_repos "/tmp/w" all_cloned flaky_analyzer reverse
     (matcher_of trailing_hyphen) two_repos).1 = Ok three_lines_total.
Proof. vm_compute. reflexivity. Qed.

Lemma unknown_metric_stops_run_witness :
  let run := process_all_repos "/tmp/w" all_cloned quoting_analyzer reverse
               (matcher_of trailing_hyphen) one_repo in
  let reports := [[("2024-01", [("py", [(quoted_metric, 1)])])]] in
  ∃ metric,
    metric ∈ metric_names reports ∧ (metric ∉ d_keys ZERO) ∧
    run.1 = Raise (KeyError metric) ∧
    main "/tmp/w" all_cloned quoting_analyzer reverse (matcher_of trailing_hyphen) one_repo
    = run.2 ++ [Log ERROR ("An error occurred: " +:+ exn_str (KeyError metric));
                Cleanup; Log INFO "Analysis completed"].
Proof.
  apply (unknown_metric_stops_run "/tmp/w" all_cloned quoting_analyzer reverse
           (matcher_of trailing_hyphen) one_repo).
  - intros futures. apply reverse_Permutation.
  - vm_compute. discriminate.
  - apply (bool_decide_unpack _). vm_compute. reflexivity.
  - apply (bool_decide_unpack _). vm_compute. reflexivity.
  - apply (bool_decide_unpack _). vm_compute. reflexivity.
Defined.

(** [str(KeyError(k))] is [repr(k)]: a name with a single quote stands
    between double quotes, a backslash is doubled. *)
Example key_error_str :
  exn_str (KeyError "renames") = "'renames'" ∧
  exn_str (KeyError quoted_metric)
    = String double_quote ("lines'" +:+ String double_quote "") ∧
  exn_str (KeyError "a\b") = "'a\\b'".
Proof. split_and!; reflexivity. Qed.

End RunProps.

Module ExchangeProps.
Import Merge Pipeline Totals Run Exchange MergeProps TotalsProps.

Lemma lookup2_as_document m e (h : stats) :
  lookup2 m e (as_document h) = as_metrics <$> lookup2 m e h.
Proof.
  unfold lookup2, as_document. rewrite d_get_fmap.
  destruct (d_get m h) as [inner|]; [|done]. simpl. apply d_get_fmap.
Qed.

Lemma d_get_as_document m (h : stats) :
  is_Some (d_get m (as_document h)) ↔ is_Some (d_get m h).
Proof. unfold as_document. rewrite d_get_fmap. apply fmap_is_Some. Qed.

Lemma valid_as_document (h : stats) : valid_doc h → valid_doc (as_document h).
Proof.
  intros [Hk Hv]. unfold as_document. split.
  - unfold valid_dict. by rewrite d_keys_fmap.
  - apply Forall_fmap. eapply Forall_impl; [exact Hv|]. intros [m inner] Hi.
    simpl in *. unfold valid_dict, as_exts. by rewrite d_keys_fmap.
Qed.

Lemma as_metrics_summed l k :
  as_metrics (summed l) !! k =
    if decide (k ∈ FIELDS) then Some (sum_of k l) else None.
Proof.
  unfold as_metrics, summed. rewrite d_keys_ZERO. case_decide as Hk.
  - apply elem_of_list_to_map_1.
    + rewrite fst_graph. apply NoDup_FIELDS.
    + apply list_elem_of_fmap. by exists k.
  - apply not_elem_of_list_to_map_1. by rewrite fst_graph.
Qed.

Lemma as_metrics_metric_set l : metric_set (as_metrics (summed l)).
Proof.
  unfold metric_set. apply set_eq. intros k.
  rewrite elem_of_dom, as_metrics_summed, elem_of_list_to_set.
  case_decide; [by eauto | split; [by intros [] | done]].
Qed.

Lemma exported_lookup ls rs m e :
  exported ls rs →
  occurrences m e rs =
    summed <$> filter (λ b, ¬ silent b) (occurrences m e <$> ls).
Proof.
  induction 1 as [|l r ls rs [Hv Hr] _ IH]; [done|].
  rewrite occurrences_cons, fmap_cons, filter_cons, IH.
  pose proof (aggregate_spec l Hv) as Hs. rewrite Hr in Hs.
  destruct Hs as (_ & _ & _ & -> & _).
  destruct (decide (silent (occurrences m e l))).
  - by rewrite decide_False by tauto.
  - by rewrite decide_True by done.
Qed.

Lemma occurrences_concat {V} m e (ls : list (list (pydict (pydict V)))) :
  occurrences m e (concat ls) = concat (occurrences m e <$> ls).
Proof.
  induction ls as [|l ls IH]; [done|]. simpl.
  by rewrite occurrences_app, IH.
Qed.

Lemma silent_concat bs :
  silent (concat bs) ↔ filter (λ b, ¬ silent b) bs = [].
Proof.
  unfold silent. induction bs as [|b bs IH]; [done|]. simpl.
  rewrite Forall_app, filter_cons, IH. case_decide; naive_solver.
Qed.

Lemma total_blocks k bs :
  k ∈ FIELDS →
  total k ((as_metrics ∘ summed) <$> filter (λ b, ¬ silent b) bs)
  = sum_of k (concat bs).
Proof.
  intros Hk. induction bs as [|b bs IH]; [done|]. cbn [concat].
  rewrite sum_of_app, filter_cons, <-IH. case_decide as Hb.
  - rewrite fmap_cons, total_cons. f_equal. unfold compose.
    apply lookup_total_correct. by rewrite as_metrics_summed, decide_True.
  - assert (silent b) by (by destruct (decide (silent b))).
    rewrite (sum_of_empty k b) by done. lia.
Qed.

Lemma occurrences_as_document m e (rs : list stats) :
  occurrences m e (as_document <$> rs) = as_metrics <$> occurrences m e rs.
Proof.
  induction rs as [|r rs IH]; [done|].
  rewrite fmap_cons, !occurrences_cons, lookup2_as_document, IH.
  by destruct (lookup2 m e r).
Qed.

Lemma months_by_entries {V} (a b : pydict (pydict V)) :
  (∀ m, is_Some (d_get m a) → ∃ e, is_Some (lookup2 m e a)) →
  (∀ m, is_Some (d_get m b) → ∃ e, is_Some (lookup2 m e b)) →
  (∀ m e, lookup2 m e a = lookup2 m e b) →
  ∀ m, is_Some (d_get m a) ↔ is_Some (d_get m b).
Proof.
  intros Ha Hb Hl m. split; intros Hs.
  - destruct (Ha m Hs) as [e He]. rewrite Hl in He. by eapply lookup2_month.
  - destruct (Hb m Hs) as [e He]. rewrite <-Hl in He. by eapply lookup2_month.
Qed.

Lemma exported_inv ls rs :
  exported ls rs →
  Forall valid_stats (concat ls) ∧ Forall all_known (concat ls) ∧
  Forall (λ r, valid_doc r ∧ no_empty_month r) rs.
Proof.
  induction 1 as [|l r ls rs [Hv Hr] _ (IH1 & IH2 & IH3)]; [done|].
  pose proof (aggregate_spec l Hv) as Hs. rewrite Hr in Hs.
  destruct Hs as (Hk & Hvr & _ & _ & Hne). cbn [concat].
  rewrite !Forall_app. split_and!; try done. by constructor.
Qed.

(** The merge utility on the histories that runs of the pipeline have
    exported gives what one run on all their repositories together would
    have returned: the same months and extensions with the same six sums. *)
Theorem merge_of_exports (ls : list (list stats)) (rs : list stats)
    (σ : heap) :
  exported ls rs →
  ∃ r r', merge_result (as_document <$> rs) σ = Ok r ∧
          aggregate (concat ls) = Ok r' ∧
          same_history r (as_document r').
Proof.
  intros Hex. destruct (exported_inv ls rs Hex) as (Hv & Hk & Hrs).
  destruct (aggregate_sums (concat ls) Hv Hk) as (r' & Hr' & Hvr' & _ & Hl' & Hne').
  assert (Hocc : ∀ m e, occurrences m e (as_document <$> rs) =
            (as_metrics ∘ summed)
              <$> filter (λ b, ¬ silent b) (occurrences m e <$> ls)).
  { intros m e. rewrite occurrences_as_document, (exported_lookup ls rs m e Hex).
    by rewrite <-list_fmap_compose. }
  assert (Hms : ∀ m e,
    Forall metric_set (occurrences m e (as_document <$> rs))).
  { intros m e. rewrite Hocc. apply Forall_fmap, Forall_forall. intros b _.
    apply as_metrics_metric_set. }
  assert (Hfold : ∀ m e,
    fold_occ (add_fields_copy FIELDS) None (occurrences m e (as_document <$> rs))
    = Ok (lookup2 m e (as_document r'))).
  { intros m e. rewrite fold_occ_metric_sets.
    - f_equal. rewrite lookup2_as_document, Hl', occurrences_concat, Hocc.
      assert (Hsum : sum_metrics ((as_metrics ∘ summed)
                       <$> filter (λ b, ¬ silent b) (occurrences m e <$> ls))
                     = as_metrics (summed (concat (occurrences m e <$> ls)))).
      { apply map_eq. intros k. rewrite sum_metrics_lookup, as_metrics_summed.
        case_decide; [|done]. f_equal. by apply total_blocks. }
      destruct (decide (silent (concat (occurrences m e <$> ls)))) as [Hs|Hs].
      + apply silent_concat in Hs. by rewrite Hs.
      + cbn [fmap option_fmap option_map]. rewrite <-Hsum.
        destruct (filter _ (occurrences m e <$> ls)) as [|b bs] eqn:Hf; [|done].
        destruct Hs. by apply silent_concat.
    - apply Hms. }
  assert (Hvd : Forall valid_doc (as_document <$> rs)).
  { apply Forall_fmap. eapply Forall_impl; [exact Hrs|].
    intros r [? _]. by apply valid_as_document. }
  pose proof (merge_result_spec (as_document <$> rs) σ Hvd) as Hm.
  destruct (merge_result (as_document <$> rs) σ) as [r|x].
  - destruct Hm as (Hvr & Hl & Hmon). exists r, r'. split_and!; [done..|].
    assert (Hll : ∀ m e, lookup2 m e r = lookup2 m e (as_document r')).
    { intros m e. specialize (Hl m e). rewrite Hfold in Hl. by injection Hl. }
    intros m. split; [|done]. apply months_by_entries; [| |done].
    + intros m' Hs. apply not_eq_None_Some in Hs. rewrite Hmon in Hs.
      apply not_Forall_Exists in Hs; [|apply _].
      apply Exists_exists in Hs as (d & Hd & Hsd).
      apply list_elem_of_fmap in Hd as (r0 & -> & Hr0).
      rewrite Forall_forall in Hrs. destruct (Hrs r0 Hr0) as [_ Hne0].
      destruct (Hne0 m') as [e He].
      { apply d_get_as_document. by apply not_eq_None_Some. }
      exists e.
      assert (Ho : occurrences m' e (as_document <$> rs) ≠ []).
      { destruct He as [s Hs0]. intros Ho.
        assert (Hin : as_metrics s ∈ occurrences m' e (as_document <$> rs)).
        { apply list_elem_of_omap. exists (as_document r0).
          split; [by apply list_elem_of_fmap_2|].
          by rewrite lookup2_as_document, Hs0. }
        rewrite Ho in Hin. by apply elem_of_nil in Hin. }
      specialize (Hl m' e). rewrite fold_occ_metric_sets in Hl by apply Hms.
      injection Hl as <-.
      by destruct (occurrences m' e (as_document <$> rs)).
    + intros m' Hs. apply d_get_as_document in Hs.
      destruct (Hne' m' Hs) as [e He]. exists e.
      rewrite lookup2_as_document. by apply fmap_is_Some.
  - destruct Hm as (m & e & Hr). by rewrite Hfold in Hr.
Qed.

(** Two runs on one repository each. *)
Lemma merge_of_exports_witness :
  ∃ r r',
    merge_result (as_document <$> [three_lines_total; three_lines_total]) []
      = Ok r ∧
    aggregate (concat [[three_lines]; [three_lines]]) = Ok r' ∧
    same_history r (as_document r').
Proof.
  apply (merge_of_exports [[three_lines]; [three_lines]]
           [three_lines_total; three_lines_total] []).
  repeat constructor; (apply (bool_decide_unpack _); vm_compute; reflexivity).
Defined.

End ExchangeProps.

Module FileTypesProps.
Import FileTypes.

Lemma endswith_app stem ext : endswith (stem +:+ ext) ext = true.
Proof.
  induction stem as [|c stem IH].
  - change ("" +:+ ext) with ext.
    destruct ext; cbn [endswith]; by rewrite bool_decide_true.
  - change (String c stem +:+ ext) with (String c (stem +:+ ext)).
    cbn [endswith]. by rewrite IH, orb_true_r.
Qed.

Lemma endswith_inv s ext :
  endswith s ext = true → ∃ stem, s = stem +:+ ext.
Proof.
  induction s as [|c s IH]; cbn [endswith].
  - rewrite orb_false_r. intros ->%bool_decide_eq_true. by exists "".
  - intros [->%bool_decide_eq_true|H]%orb_true_iff; [by exists ""|].
    destruct (IH H) as [stem ->]. by exists (String c stem).
Qed.

Lemma dotted_app stem ext :
  "."%char ∈ list_ascii_of_string ext →
  "."%char ∈ list_ascii_of_string (stem +:+ ext).
Proof.
  intros H. induction stem as [|c stem IH]; [done|].
  change (list_ascii_of_string (String c stem +:+ ext))
    with (c :: list_ascii_of_string (stem +:+ ext)).
  apply elem_of_cons. by right.
Qed.

Lemma length_app_string s t :
  String.length (s +:+ t) = (String.length s + String.length t)%nat.
Proof. induction s as [|c s IH]; [done|]. simpl. by rewrite IH. Qed.

(** A file name is taken for a text file exactly when it ends with one of
    the listed extensions, compared as they are written (lower case), the
    bare extension included; so a name without a dot, or shorter than two
    characters, never is. *)
Theorem text_file_by_extension (filename : string) :
  (is_text_file filename = true ↔
     ∃ stem ext, ext ∈ TEXT_EXTENSIONS ∧ filename = stem +:+ ext) ∧
  (is_text_file filename = true →
     "."%char ∈ list_ascii_of_string filename ∧
     (2 ≤ String.length filename)%nat).
Proof.
  assert (Hiff : is_text_file filename = true ↔
     ∃ stem ext, ext ∈ TEXT_EXTENSIONS ∧ filename = stem +:+ ext).
  { unfold is_text_file. rewrite existsb_exists. split.
    - intros (ext & Hin%list_elem_of_In & [stem ->]%endswith_inv). eauto.
    - intros (stem & ext & Hin & ->). exists ext.
      split; [by apply list_elem_of_In | apply endswith_app]. }
  split; [done|]. intros H. apply Hiff in H as (stem & ext & Hin & Heq).
  clear Hiff. subst filename.
  assert (Hext : "."%char ∈ list_ascii_of_string ext ∧ (2 ≤ String.length ext)%nat).
  { revert ext Hin. apply Forall_forall. apply (bool_decide_unpack _).
    by vm_compute. }
  destruct Hext as [Hdot Hlen]. split; [by apply dotted_app|].
  rewrite length_app_string. lia.
Qed.

End FileTypesProps.

Module CatalogProps.
Import Acquisition Catalog.

Lemma split_on_length sep s :
  length (str_split_on sep s) = S (count_char sep s).
Proof.
  induction s as [|c s IH]; [done|]. cbn [str_split_on count_char].
  case_bool_decide; simpl; [by rewrite IH|].
  destruct (str_split_on sep s); simpl in *; lia.
Qed.

Lemma split_on_none sep s : count_char sep s = 0%nat → str_split_on sep s = [s].
Proof.
  induction s as [|c s IH]; [done|]. cbn [str_split_on count_char].
  case_bool_decide; [done|]. simpl. intros Hc. by rewrite IH.
Qed.

(** Splitting is undone by joining with the separator. *)
Lemma split_on_join sep a b :
  count_char sep a = 0%nat →
  str_split_on sep (a +:+ String sep b) = a :: str_split_on sep b.
Proof.
  induction a as [|c a IH]; cbn [count_char].
  - intros _. change ("" +:+ String sep b) with (String sep b).
    cbn [str_split_on]. by rewrite bool_decide_true.
  - case_bool_decide; [done|]. simpl. intros Hc.
    rewrite bool_decide_false by done. by rewrite IH.
Qed.

Section catalog_facts.
Variable repos_get : string → string → api FullRepository.
Variable list_for_authenticated_user : api (list FullRepository).
Variable list_commits : string → string → string → api bool.
Variable unpack_error : nat → string.
Variable username : string.

#[local] Abbreviation get_contributed_repos :=
  (get_contributed_repos repos_get list_for_authenticated_user list_commits
     unpack_error username).
#[local] Abbreviation check_commits := (check_commits list_commits username).
#[local] Abbreviation contributed := (contributed list_commits username).

(** With [--repo], the listing is not consulted and at most one repository
    is returned: the one that the API has under [owner/name], when the
    argument has exactly one slash; any other argument, and any failure of
    the API, gives the empty list and one error line. *)
Theorem single_repo_lookup (single_repo : string) :
  single_repo ≠ "" →
  (length (get_contributed_repos (Some single_repo)).1 ≤ 1)%nat ∧
  (count_char "/" single_repo ≠ 1%nat →
   get_contributed_repos (Some single_repo) =
     ([], [(ERROR, "Failed to get repository " +:+ single_repo +:+ ": "
                   +:+ unpack_error (S (count_char "/" single_repo)))])) ∧
  (∀ owner name,
     single_repo = owner +:+ String "/" name →
     count_char "/" owner = 0%nat → count_char "/" name = 0%nat →
     (get_contributed_repos (Some single_repo)).1 =
       match repos_get owner name with
       | Responds repo => [repo]
       | ApiRaises _ => []
       end).
Proof.
  intros Hne. unfold Catalog.get_contributed_repos.
  change (default "" (Some single_repo)) with single_repo.
  rewrite bool_decide_true by done.
  pose proof (split_on_length "/" single_repo) as Hlen.
  split_and!.
  - destruct (str_split_on "/" single_repo) as [|a [|b [|c l]]]; try (simpl; lia).
    destruct (repos_get a b); simpl; lia.
  - intros Hc.
    destruct (str_split_on "/" single_repo) as [|a [|b [|c l]]];
      simpl in Hlen; try (by rewrite <-Hlen); lia.
  - intros owner name -> Ho Hn.
    rewrite (split_on_join "/" owner name Ho), (split_on_none "/" name Hn).
    by destruct (repos_get owner name).
Qed.

Lemma check_commits_result repo :
  (check_commits repo).1 = if decide (contributed repo) then Some repo else None.
Proof.
  unfold Catalog.check_commits.
  destruct (decide (contributed repo)) as [Hc|Hc];
    unfold Catalog.contributed in Hc.
  - by rewrite Hc.
  - by destruct (list_commits _ _ _) as [[]|msg].
Qed.

Lemma omap_checks (repos : list FullRepository) :
  omap fst (check_commits <$> repos) = filter contributed repos.
Proof.
  induction repos as [|repo repos IH]; [done|].
  rewrite fmap_cons, filter_cons. cbn [omap list_omap].
  rewrite check_commits_result, IH. by case_decide.
Qed.

(** Without [--repo] (or with an empty one), the repositories returned are
    those of the listing in which the user has a commit, in the order of
    the listing; a check that fails drops its repository and nothing else,
    and a listing that fails gives the empty list. The count that is
    logged last is the number returned. *)
Theorem listing_keeps_contributed (single_repo : option string) :
  default "" single_repo = "" →
  match list_for_authenticated_user with
  | Responds repos =>
      (get_contributed_repos single_repo).1 = filter contributed repos ∧
      last (get_contributed_repos single_repo).2 =
        Some (found (filter contributed repos))
  | ApiRaises msg =>
      get_contributed_repos single_repo =
        ([], [(INFO, "Fetching all contributed repositories...");
              (ERROR, "Failed to fetch repositories: " +:+ msg)])
  end.
Proof.
  intros He. unfold Catalog.get_contributed_repos. rewrite He.
  rewrite bool_decide_false by (by intros ?).
  destruct list_for_authenticated_user as [repos|msg]; [|done].
  cbn [fst snd]. rewrite omap_checks. split; [done|].
  by rewrite (assoc (++)), last_snoc.
Qed.

End catalog_facts.

(** The theorems at concrete inputs. *)
Lemma single_repo_lookup_witness :
  let get := get_contributed_repos (λ _ _, Responds tool) (Responds [])
               (λ _ _ _, Responds true) unpack_message "ada" in
  (length (get (Some "ada/tool")).1 ≤ 1)%nat ∧
  (count_char "/" "ada/tool" ≠ 1%nat →
   get (Some "ada/tool") =
     ([], [(ERROR, "Failed to get repository " +:+ "ada/tool" +:+ ": "
                   +:+ unpack_message (S (count_char "/" "ada/tool")))])) ∧
  (∀ owner name,
     "ada/tool" = owner +:+ String "/" name →
     count_char "/" owner = 0%nat → count_char "/" name = 0%nat →
     (get (Some "ada/tool")).1 =
       match (λ _ _ : string, Responds tool) owner name with
       | Responds repo => [repo]
       | ApiRaises _ => []
       end).
Proof.
  apply (single_repo_lookup (λ _ _, Responds tool) (Responds [])
           (λ _ _ _, Responds true) unpack_message "ada" "ada/tool").
  discriminate.
Defined.

Lemma listing_keeps_contributed_witness :
  let commits := λ (_ name _ : string),
                   if decide (name = "tool") then Responds true
                   else ApiRaises "502" in
  let fork := {| owner_login := "ada";
                 repository := Build_Repository "fork" "ada/fork" |} in
  let get := get_contributed_repos (λ _ _, ApiRaises "404")
               (Responds [fork; tool]) commits unpack_message "ada" in
  (get None).1 = filter (contributed commits "ada") [fork; tool] ∧
  last (get None).2 = Some (found (filter (contributed commits "ada") [fork; tool])).
Proof.
  apply (listing_keeps_contributed (λ _ _, ApiRaises "404")
           (Responds [{| owner_login := "ada";
                         repository := Build_Repository "fork" "ada/fork" |};
                      tool])
           (λ (_ name _ : string),
              if decide (name = "tool") then Responds true
              else ApiRaises "502")
           unpack_message "ada" None).
  reflexivity.
Defined.

End CatalogProps.

Module CsvExportProps.
Import Merge Acquisition Pipeline Totals Run CsvExport MergeProps TotalsProps.

Lemma str_le_total : Total str_le.
Proof. intros a b. apply String.leb_total. Qed.

#[local] Existing Instance str_le_total.

Lemma bind_const_length {A B} (f : A → list B) n (l : list A) :
  (∀ x, length (f x) = n) → length (l ≫= f) = (n * length l)%nat.
Proof.
  intros Hf. induction l as [|x l IH]; [simpl; lia|].
  rewrite bind_cons, length_app, Hf, IH. simpl. lia.
Qed.

Lemma bind_const_lookup {A B} (f : A → list B) n (l : list A) i j x :
  (∀ x, length (f x) = n) → l !! i = Some x → (j < n)%nat →
  (l ≫= f) !! (n * i + j)%nat = f x !! j.
Proof.
  intros Hf. revert i. induction l as [|y l IH]; intros i Hi Hj; [done|].
  rewrite bind_cons. destruct i as [|i]; simpl in Hi.
  - injection Hi as ->. rewrite Nat.mul_0_r, Nat.add_0_l.
    apply lookup_app_l. by rewrite Hf.
  - rewrite lookup_app_r by (rewrite Hf; lia). rewrite Hf.
    replace (n * S i + j - n)%nat with (n * i + j)%nat by lia. by apply IH.
Qed.

Lemma csv_header_length langs :
  length (csv_header langs) = (1 + 5 * length langs)%nat.
Proof.
  unfold csv_header. cbn [length]. by rewrite (bind_const_length _ 5).
Qed.

Lemma csv_row_length langs item :
  length (csv_row langs item) = (1 + 5 * length langs)%nat.
Proof.
  destruct item as [month stats]. unfold csv_row. cbn [length].
  by rewrite (bind_const_length _ 5).
Qed.

Lemma languages_spec (results : stats) lang :
  lang ∈ languages results ↔
    lang ≠ "total" ∧
    ∃ month month_data, (month, month_data) ∈ results ∧
                        is_Some (d_get lang month_data).
Proof.
  unfold languages. rewrite merge_sort_Permutation, elem_of_remove_dups.
  rewrite list_elem_of_bind. split.
  - intros ([month data] & Hin & Hm). simpl in Hin.
    apply list_elem_of_filter in Hin as [Hne Hk]. split; [done|].
    exists month, data. split; [done|]. by apply d_get_is_Some.
  - intros (Hne & month & data & Hm & Hk). exists (month, data).
    split; [|done]. simpl. apply list_elem_of_filter. split; [done|].
    by apply d_get_is_Some.
Qed.

Lemma languages_NoDup (results : stats) : NoDup (languages results).
Proof.
  unfold languages. rewrite merge_sort_Permutation. apply NoDup_remove_dups.
Qed.

(** [export_results] writes the results as they are to the JSON file,
    and to the CSV file a table with a header and one row per month, in
    ascending order of the months, all of the same length, one field for
    the month and five for each language; the languages are the extension
    keys that occur in some month, [total] left out, each once and in
    ascending order. *)
Theorem csv_shape (results : stats) (output_dir : string) :
  ∃ rows,
    export_results results output_dir =
      [MakeDirs output_dir;
       WriteJson (path_join output_dir "loc_history.json") results;
       LogInfo ("Exported JSON results to "
                +:+ path_join output_dir "loc_history.json");
       WriteCsv (path_join output_dir "loc_history.csv") rows;
       LogInfo ("Exported CSV results to "
                +:+ path_join output_dir "loc_history.csv")] ∧
    length rows = S (length results) ∧
    Forall (λ row, length row = (1 + 5 * length (languages results))%nat)
      rows ∧
    omap head rows
      = Text "Month" :: (Text <$> d_keys (merge_sort month_le results)) ∧
    ascending (d_keys (merge_sort month_le results)) ∧
    ascending (languages results) ∧ NoDup (languages results) ∧
    ∀ lang, lang ∈ languages results ↔
              lang ≠ "total" ∧
              ∃ month month_data, (month, month_data) ∈ results ∧
                                  is_Some (d_get lang month_data).
Proof.
  exists (csv_rows results). split; [done|]. unfold csv_rows. split_and!.
  - cbn [length]. by rewrite length_fmap, merge_sort_Permutation.
  - constructor.
    + by rewrite length_fmap, csv_header_length.
    + apply Forall_fmap, Forall_forall. intros item _. apply csv_row_length.
  - cbn [omap list_omap fmap list_fmap csv_header head]. f_equal.
    induction (merge_sort month_le results) as [|[month stats] l IH]; [done|].
    rewrite fmap_cons. cbn [omap list_omap csv_row head]. by rewrite IH.
  - apply ascending_sorted.
  - unfold ascending, languages. apply (Sorted_merge_sort str_le).
  - apply languages_NoDup.
  - apply languages_spec.
Qed.

(** The fields of the table that [export_results] writes: the column of
    the [i]-th language and the [j]-th metric is headed by the two names,
    and in the row of a month, the months taken in ascending order, it
    has the value that the month has for them, or 0 when the month does
    not have the language or the language does not have the metric. *)
Theorem csv_cells (results : stats) (output_dir path : string)
    (rows : list (list cell)) (i j : nat) (lang metric : string) :
  WriteCsv path rows ∈ export_results results output_dir →
  languages results !! i = Some lang → CSV_METRICS !! j = Some metric →
  rows !! 0%nat ≫= (.!! (1 + 5 * i + j)%nat)
    = Some (Text (lang +:+ " " +:+ metric)) ∧
  ∀ k month month_data,
    merge_sort month_le results !! k = Some (month, month_data) →
    rows !! S k ≫= (.!! (1 + 5 * i + j)%nat)
    = Some (Number (default 0 (d_get lang month_data ≫= d_get metric))).
Proof.
  intros Hin Hi Hj.
  assert (rows = csv_rows results) as ->.
  { unfold export_results in Hin.
    repeat (apply elem_of_cons in Hin as [Hin|Hin]; [by inversion Hin|]).
    by apply elem_of_nil in Hin. }
  assert (Hlt : (j < 5)%nat) by (by apply lookup_lt_Some in Hj).
  unfold csv_rows. split.
  - cbn [lookup list_lookup mbind option_bind]. rewrite list_lookup_fmap.
    unfold csv_header. change (1 + 5 * i + j)%nat with (S (5 * i + j)).
    rewrite lookup_cons. rewrite (bind_const_lookup _ 5 _ i j lang); [|done..].
    by rewrite list_lookup_fmap, Hj.
  - intros k month month_data Hk. rewrite lookup_cons, list_lookup_fmap, Hk.
    cbn [fmap option_fmap option_map mbind option_bind]. unfold csv_row.
    change (1 + 5 * i + j)%nat with (S (5 * i + j)). rewrite lookup_cons.
    rewrite (bind_const_lookup _ 5 _ i j lang); [|done..].
    rewrite list_lookup_fmap, Hj. simpl. by destruct (d_get lang month_data).
Qed.

(** The first column of the first language. *)
Lemma csv_cells_witness :
  let rows := csv_rows three_lines_total in
  rows !! 0%nat ≫= (.!! (1 + 5 * 0 + 0)%nat)
    = Some (Text ("py" +:+ " " +:+ "lines")) ∧
  ∀ k month month_data,
    merge_sort month_le three_lines_total !! k = Some (month, month_data) →
    rows !! S k ≫= (.!! (1 + 5 * 0 + 0)%nat)
    = Some (Number (default 0 (d_get "py" month_data ≫= d_get "lines"))).
Proof.
  apply (csv_cells three_lines_total "github_stats"
           (path_join "github_stats" "loc_history.csv")
           (csv_rows three_lines_total) 0 0 "py" "lines").
  - unfold export_results. rewrite !elem_of_cons. auto 10.
  - vm_compute. reflexivity.
  - vm_compute. reflexivity.
Defined.

End CsvExportProps.
